(** * dev-events: the Event and Booking models and the cached connection

    A shallow embedding of the data-access layer of the repository:
    [database/event.model.ts] (slug generation, date normalisation, the
    Event schema and its pre-save hook), [database/booking.model.ts] (the
    Booking schema and its referential check) and [lib/mongodb.ts] (the
    cached connection).

    JavaScript strings are sequences of UTF-16 code units; they are modelled
    as lists of natural numbers, one per code unit.  Regular expressions
    without the [u] flag work on code units, so this is the level at which
    the source's [replace] and [test] calls operate. *)

From Stdlib Require Import List ZArith NArith Lia Bool String Ascii.
Import ListNotations.

(* ================================================================== *)
(** * JavaScript strings *)
(* ================================================================== *)

Module JS.

Definition codeUnit := N.
Definition jsstring := list codeUnit.

(** An ASCII literal of the source as a list of code units. *)
Definition js (s : string) : jsstring :=
  List.map N_of_ascii (list_ascii_of_string s).

Local Open Scope N_scope.

(** ** Character classes of ECMAScript regular expressions *)

Definition inRange (lo hi c : N) : bool := (lo <=? c) && (c <=? hi).

(** [\d] *)
Definition isDigit (c : N) : bool := inRange 48 57 c.
(** [[A-Z]] *)
Definition isUpper (c : N) : bool := inRange 65 90 c.
(** [[a-z]] *)
Definition isLower (c : N) : bool := inRange 97 122 c.
Definition isHyphen (c : N) : bool := c =? 45.
Definition isUnderscore (c : N) : bool := c =? 95.
Definition isAt (c : N) : bool := c =? 64.
Definition isDot (c : N) : bool := c =? 46.

(** [\w] is [[A-Za-z0-9_]]. *)
Definition isWordChar (c : N) : bool :=
  isUpper c || isLower c || isDigit c || isUnderscore c.

(** [\s]: the WhiteSpace and LineTerminator code points of ECMAScript.
    [String.prototype.trim] strips the same set. *)
Definition isSpace (c : N) : bool :=
  inRange 9 13 c || (c =? 32) || (c =? 160) || (c =? 5760)
  || inRange 8192 8202 c || (c =? 8232) || (c =? 8233) || (c =? 8239)
  || (c =? 8287) || (c =? 12288) || (c =? 65279).

(** ** [String.prototype.toLowerCase]

    The Unicode lower-case mapping, written out for Basic Latin and Latin-1
    and for the two code points outside ASCII whose lower-case form contains
    an ASCII letter (U+0130 and U+212A, the Kelvin sign).  Other code units
    are kept: no other character has ASCII or white space in its lower-case
    form, and the white space characters have no case.

    So the function is that of the language on strings of code units below
    U+0100, and on every string as far as ASCII characters and white space
    go, which is what [generateSlug] and the email pattern look at.  The
    lower-case forms of the other letters (Latin Extended, Greek, Cyrillic
    and so on) are not written out: what is stated of a lower-cased text
    beyond its ASCII characters and white space is stated of strings below
    U+0100. *)
Definition lowerUnit (c : N) : jsstring :=
  if isUpper c then [c + 32]
  else if inRange 192 222 c && negb (c =? 215) then [c + 32]
  else if c =? 304 then [105; 775]
  else if c =? 8490 then [107]
  else if c =? 8491 then [229]
  else [c].

Definition toLowerCase (s : jsstring) : jsstring := flat_map lowerUnit s.

(** ** [String.prototype.trim] *)

Fixpoint dropWhile (p : N -> bool) (s : jsstring) : jsstring :=
  match s with
  | [] => []
  | c :: t => if p c then dropWhile p t else s
  end.

Fixpoint dropEndWhile (p : N -> bool) (s : jsstring) : jsstring :=
  match s with
  | [] => []
  | c :: t =>
      match dropEndWhile p t with
      | [] => if p c then [] else [c]
      | r => c :: r
      end
  end.

Definition trim (s : jsstring) : jsstring :=
  dropEndWhile isSpace (dropWhile isSpace s).

(** ** [String.prototype.replace] with a global character-class pattern *)

(** [s.replace(/[^C]/g, "")]: every code unit outside the class is deleted. *)
Definition removeOutside (keep : N -> bool) (s : jsstring) : jsstring :=
  filter keep s.

(** [s.replace(/C+/g, r)]: every maximal run of code units of the class [p]
    is replaced by [r].  [inRun] tells whether the previous code unit
    belonged to the run being replaced. *)
Fixpoint replaceRunsFrom (p : N -> bool) (r : jsstring) (inRun : bool)
    (s : jsstring) : jsstring :=
  match s with
  | [] => []
  | c :: t =>
      if p c then
        if inRun then replaceRunsFrom p r true t
        else r ++ replaceRunsFrom p r true t
      else c :: replaceRunsFrom p r false t
  end.

Definition replaceRuns (p : N -> bool) (r s : jsstring) : jsstring :=
  replaceRunsFrom p r false s.

(** [s.replace(/^C+|C+$/g, "")]: the leading run and the trailing run of the
    class are deleted. *)
Definition stripEnds (p : N -> bool) (s : jsstring) : jsstring :=
  dropEndWhile p (dropWhile p s).

End JS.

Import JS.
Open Scope N_scope.

(* ================================================================== *)
(** * The JavaScript runtime: regular expressions and Date *)
(* ================================================================== *)

(** ** [RegExp.prototype.test] for anchored patterns

    The patterns the models test are of the form [/^r$/]: [test] answers
    whether the whole string belongs to the language of [r].  Matching is by
    Brzozowski derivatives. *)
Module RegExp.

Inductive regex : Type :=
| Void                              (* matches nothing *)
| Eps                               (* the empty string *)
| Class (p : N -> bool)             (* one code unit of a class *)
| Seq (a b : regex)
| Alt (a b : regex)
| Star (a : regex).

(** [a+] *)
Definition Plus (a : regex) : regex := Seq a (Star a).

(** [a{n}] *)
Fixpoint Times (n : nat) (a : regex) : regex :=
  match n with
  | O => Eps
  | S k => Seq a (Times k a)
  end.

Fixpoint nullable (r : regex) : bool :=
  match r with
  | Void => false
  | Eps => true
  | Class _ => false
  | Seq a b => nullable a && nullable b
  | Alt a b => nullable a || nullable b
  | Star _ => true
  end.

Fixpoint deriv (c : N) (r : regex) : regex :=
  match r with
  | Void => Void
  | Eps => Void
  | Class p => if p c then Eps else Void
  | Seq a b =>
      if nullable a then Alt (Seq (deriv c a) b) (deriv c b)
      else Seq (deriv c a) b
  | Alt a b => Alt (deriv c a) (deriv c b)
  | Star a => Seq (deriv c a) (Star a)
  end.

Fixpoint matches (r : regex) (s : jsstring) : bool :=
  match s with
  | [] => nullable r
  | c :: t => matches (deriv c r) t
  end.

(** [/^r$/.test(s)] *)
Definition test (r : regex) (s : jsstring) : bool := matches r s.

(** The language of a pattern. *)
Inductive lang : regex -> jsstring -> Prop :=
| lang_eps : lang Eps []
| lang_class p c : p c = true -> lang (Class p) [c]
| lang_seq a b s t : lang a s -> lang b t -> lang (Seq a b) (s ++ t)
| lang_alt_l a b s : lang a s -> lang (Alt a b) s
| lang_alt_r a b s : lang b s -> lang (Alt a b) s
| lang_star_nil a : lang (Star a) []
| lang_star_cons a s t : lang a s -> lang (Star a) t -> lang (Star a) (s ++ t).

End RegExp.

Import RegExp.

(** [/^\d{4}-\d{2}-\d{2}$/], the pattern of both the date validator (line 93)
    and [normalizeDate] (line 188). *)
Definition isoDateRegex : regex :=
  Seq (Times 4 (Class isDigit))
    (Seq (Class isHyphen)
       (Seq (Times 2 (Class isDigit))
          (Seq (Class isHyphen) (Times 2 (Class isDigit))))).

(** Neither white space nor [@]: the class [[^\s@]]. *)
Definition notSpaceAt (c : N) : bool := negb (isSpace c || isAt c).

(** [/^[^\s@]+@[^\s@]+\.[^\s@]+$/], booking.model.ts line 33. *)
Definition emailRegex : regex :=
  Seq (Plus (Class notSpaceAt))
    (Seq (Class isAt)
       (Seq (Plus (Class notSpaceAt))
          (Seq (Class isDot) (Plus (Class notSpaceAt))))).

(** ** Date: time values, [Date.parse] and [toISOString]

    The definitions follow ECMA-262, section "Date Objects".  A time value is
    the number of milliseconds since the epoch, an integer; the value NaN of
    an invalid Date is [None]. *)
Module ESDate.

Local Open Scope Z_scope.

Definition msPerSecond : Z := 1000.
Definition msPerMinute : Z := 60000.
Definition msPerHour : Z := 3600000.
Definition msPerDay : Z := 86400000.

Definition Day (t : Z) : Z := t / msPerDay.
Definition TimeWithinDay (t : Z) : Z := t mod msPerDay.

Definition isLeapYear (y : Z) : bool :=
  (y mod 4 =? 0) && (negb (y mod 100 =? 0) || (y mod 400 =? 0)).

Definition DaysInYear (y : Z) : Z := if isLeapYear y then 366 else 365.

Definition DayFromYear (y : Z) : Z :=
  365 * (y - 1970) + (y - 1969) / 4 - (y - 1901) / 100 + (y - 1601) / 400.

Definition TimeFromYear (y : Z) : Z := msPerDay * DayFromYear y.

(** The largest [y] with [DayFromYear y <= d]: the estimate from the mean
    length of a year is off by at most one. *)
Definition YearFromDay (d : Z) : Z :=
  let y0 := 1970 + (400 * d) / 146097 in
  if d <? DayFromYear y0 then y0 - 1
  else if DayFromYear (y0 + 1) <=? d then y0 + 1
  else y0.

Definition YearFromTime (t : Z) : Z := YearFromDay (Day t).

Definition InLeapYear (t : Z) : Z :=
  if isLeapYear (YearFromTime t) then 1 else 0.

Definition DayWithinYear (t : Z) : Z := Day t - DayFromYear (YearFromTime t).

(** The day of the year on which month [m] (0 to 11) begins; entry 12 is the
    length of the year. *)
Definition monthStart (leap m : Z) : Z :=
  if m <=? 0 then 0
  else if m =? 1 then 31
  else if m =? 2 then 59 + leap
  else if m =? 3 then 90 + leap
  else if m =? 4 then 120 + leap
  else if m =? 5 then 151 + leap
  else if m =? 6 then 181 + leap
  else if m =? 7 then 212 + leap
  else if m =? 8 then 243 + leap
  else if m =? 9 then 273 + leap
  else if m =? 10 then 304 + leap
  else if m =? 11 then 334 + leap
  else 365 + leap.

Definition monthOfYearDay (leap dwy : Z) : Z :=
  if dwy <? 31 then 0
  else if dwy <? 59 + leap then 1
  else if dwy <? 90 + leap then 2
  else if dwy <? 120 + leap then 3
  else if dwy <? 151 + leap then 4
  else if dwy <? 181 + leap then 5
  else if dwy <? 212 + leap then 6
  else if dwy <? 243 + leap then 7
  else if dwy <? 273 + leap then 8
  else if dwy <? 304 + leap then 9
  else if dwy <? 334 + leap then 10
  else 11.

Definition MonthFromTime (t : Z) : Z :=
  monthOfYearDay (InLeapYear t) (DayWithinYear t).

Definition DateFromTime (t : Z) : Z :=
  DayWithinYear t - monthStart (InLeapYear t) (MonthFromTime t) + 1.

Definition HourFromTime (t : Z) : Z := (t / msPerHour) mod 24.
Definition MinFromTime (t : Z) : Z := (t / msPerMinute) mod 60.
Definition SecFromTime (t : Z) : Z := (t / msPerSecond) mod 60.
Definition msFromTime (t : Z) : Z := t mod msPerSecond.

Definition MakeTime (hour min sec ms : Z) : Z :=
  hour * msPerHour + min * msPerMinute + sec * msPerSecond + ms.

Definition MakeDay (year month date : Z) : Z :=
  let ym := year + month / 12 in
  let mn := month mod 12 in
  DayFromYear ym + monthStart (if isLeapYear ym then 1 else 0) mn + date - 1.

Definition MakeDate (day time : Z) : Z := day * msPerDay + time.

Definition TimeClip (t : Z) : option Z :=
  if Z.abs t <=? 8640000000000000 then Some t else None.

Definition DaysInMonth (y m : Z) : Z :=
  let leap := if isLeapYear y then 1 else 0 in
  monthStart leap m - monthStart leap (m - 1).

(** *** What the host supplies

    The offset of local time and the parsing of strings outside the Date
    Time String Format are implementation-defined. *)
Record runtime : Type := {
  (** the offset of local time from UTC, in milliseconds, at a local time. *)
  localTZA : Z -> Z;
  (** [Date.parse] on a string that is not in the Date Time String Format. *)
  fallbackParse : jsstring -> option Z
}.

(** *** The Date Time String Format *)

Fixpoint takeDigits (n : nat) (acc : Z) (s : jsstring)
    : option (Z * jsstring) :=
  match n with
  | O => Some (acc, s)
  | S k =>
      match s with
      | c :: t =>
          if isDigit c then takeDigits k (10 * acc + Z.of_N (c - 48)) t
          else None
      | [] => None
      end
  end.

(** [YYYY], or an expanded year: a sign and six digits, [-000000] excluded. *)
Definition parseYear (s : jsstring) : option (Z * jsstring) :=
  match s with
  | 43%N :: t => takeDigits 6 0 t
  | 45%N :: t =>
      match takeDigits 6 0 t with
      | Some (y, r) => if y =? 0 then None else Some (- y, r)
      | None => None
      end
  | _ => takeDigits 4 0 s
  end.

(** [YYYY], [YYYY-MM] or [YYYY-MM-DD]; a month or day left out is 1. *)
Definition parseDatePart (s : jsstring) : option (Z * Z * Z * jsstring) :=
  match parseYear s with
  | None => None
  | Some (y, r1) =>
      match r1 with
      | 45%N :: r2 =>
          match takeDigits 2 0 r2 with
          | None => None
          | Some (m, r3) =>
              match r3 with
              | 45%N :: r4 =>
                  match takeDigits 2 0 r4 with
                  | None => None
                  | Some (d, r5) => Some (y, m, d, r5)
                  end
              | _ => Some (y, m, 1, r3)
              end
          end
      | _ => Some (y, 1, 1, r1)
      end
  end.

(** [HH:mm], [HH:mm:ss] or [HH:mm:ss.sss], as milliseconds within the day. *)
Definition parseTimePart (s : jsstring) : option (Z * jsstring) :=
  match takeDigits 2 0 s with
  | Some (h, 58%N :: r1) =>
      match takeDigits 2 0 r1 with
      | None => None
      | Some (mi, r2) =>
          let finish sec ms rest :=
            if (h <=? 24) && (mi <=? 59) && (sec <=? 59)
               && ((h <? 24) || ((mi =? 0) && (sec =? 0) && (ms =? 0)))
            then Some (MakeTime h mi sec ms, rest) else None in
          match r2 with
          | 58%N :: r3 =>
              match takeDigits 2 0 r3 with
              | None => None
              | Some (sec, r4) =>
                  match r4 with
                  | 46%N :: r5 =>
                      match takeDigits 3 0 r5 with
                      | None => None
                      | Some (ms, r6) => finish sec ms r6
                      end
                  | _ => finish sec 0 r4
                  end
              end
          | _ => finish 0 0 r2
          end
      end
  | _ => None
  end.

(** The UTC offset: [Z], or a sign with [HH:mm]; [None] inside stands for
    local time (no offset written). *)
Definition parseOffset (s : jsstring) : option (option Z) :=
  match s with
  | [] => Some None
  | [90%N] => Some (Some 0)
  | sign :: r =>
      if (sign =? 43)%N || (sign =? 45)%N then
        match takeDigits 2 0 r with
        | Some (h, 58%N :: r1) =>
            match takeDigits 2 0 r1 with
            | Some (mi, []) =>
                if (h <=? 23) && (mi <=? 59) then
                  let off := h * msPerHour + mi * msPerMinute in
                  Some (Some (if (sign =? 45)%N then - off else off))
                else None
            | _ => None
            end
        | _ => None
        end
      else None
  end.

(** A string of the Date Time String Format as a time value.  Date-only
    forms are UTC; date-time forms without an offset are local time. *)
Definition parseISO (rt : runtime) (s : jsstring) : option Z :=
  match parseDatePart s with
  | None => None
  | Some (y, m, d, rest) =>
      if (1 <=? m) && (m <=? 12) && (1 <=? d) && (d <=? DaysInMonth y m) then
        let day := MakeDay y (m - 1) d in
        match rest with
        | [] => TimeClip (MakeDate day 0)
        | 84%N :: r1 =>
            match parseTimePart r1 with
            | None => None
            | Some (time, r2) =>
                match parseOffset r2 with
                | None => None
                | Some (Some off) => TimeClip (MakeDate day time - off)
                | Some None =>
                    let t := MakeDate day time in
                    TimeClip (t - localTZA rt t)
                end
            end
        | _ => None
        end
      else None
  end.

(** [Date.parse]: the format of the standard first, then whatever the host
    accepts in addition. *)
Definition parse (rt : runtime) (s : jsstring) : option Z :=
  match parseISO rt s with
  | Some t => Some t
  | None => fallbackParse rt s
  end.

(** The value of a string of digits read after [acc]. *)
Definition digitsValue (s : jsstring) (acc : Z) : Z :=
  fold_left (fun a c => 10 * a + Z.of_N (c - 48)) s acc.

(** *** [Date.prototype.toISOString] *)

(** [n] in [k] decimal digits. *)
Fixpoint padDigits (k : nat) (n : Z) : jsstring :=
  match k with
  | O => []
  | S j => padDigits j (n / 10) ++ [(48 + Z.to_N (n mod 10))%N]
  end.

Definition yearString (y : Z) : jsstring :=
  if (0 <=? y) && (y <=? 9999) then padDigits 4 y
  else (if y <? 0 then 45%N else 43%N) :: padDigits 6 (Z.abs y).

Definition dateString (t : Z) : jsstring :=
  yearString (YearFromTime t) ++ [45%N] ++ padDigits 2 (MonthFromTime t + 1)
    ++ [45%N] ++ padDigits 2 (DateFromTime t).

Definition timeString (t : Z) : jsstring :=
  padDigits 2 (HourFromTime t) ++ [58%N] ++ padDigits 2 (MinFromTime t)
    ++ [58%N] ++ padDigits 2 (SecFromTime t) ++ [46%N]
    ++ padDigits 3 (msFromTime t).

(** [YYYY-MM-DDTHH:mm:ss.sssZ] *)
Definition toISOString (t : Z) : jsstring :=
  dateString t ++ [84%N] ++ timeString t ++ [90%N].

End ESDate.

(** [String.prototype.split] with a separator of one code unit. *)
Fixpoint split (sep : N) (s : jsstring) : list jsstring :=
  match s with
  | [] => [[]]
  | c :: t =>
      if c =? sep then [] :: split sep t
      else match split sep t with
           | h :: r => (c :: h) :: r
           | [] => [[c]]
           end
  end.

(* ================================================================== *)
(** * Errors and results *)
(* ================================================================== *)

(** What the driver throws when a connection attempt or a query fails: the
    code of this repository looks at such a value twice, with
    [error instanceof Error] and with [error.message].  So it is an Error
    object, of whatever class, with its message, or a value that is not an
    Error. *)
Inductive thrown : Type :=
| ErrorObject (message : jsstring)
| OtherValue.

(** What a failed operation reports: a plain [Error] with its message, a
    [TypeError], Mongoose's [ValidationError] with the failing paths and
    their messages, the duplicate-key error of a unique index (E11000) with
    the indexed path, Mongoose's [DocumentNotFoundError], and a value thrown
    by the driver, passed on as it is. *)
Inductive error : Type :=
| JsError (message : jsstring)
| TypeError
| ValidationError (errors : list (jsstring * jsstring))
| DuplicateKeyError (path : jsstring)
| DocumentNotFoundError
| Thrown (r : thrown).

(** The outcome of an operation that can fail with a value of [E]. *)
Inductive resultOf (E A : Type) : Type :=
| Ok (a : A)
| Err (e : E).
Arguments Ok {E A} a.
Arguments Err {E A} e.

Abbreviation result := (resultOf error).

Definition isOk {E A : Type} (r : resultOf E A) : bool :=
  match r with Ok _ => true | Err _ => false end.

(* ================================================================== *)
(** * event.model.ts: generateSlug, normalizeDate, normalizeTime *)
(* ================================================================== *)

(** The class kept by [/[^\w\s-]/g]. *)
Definition keptBySlug (c : N) : bool := isWordChar c || isSpace c || isHyphen c.

Definition hyphen : jsstring := js "-".

(** [generateSlug], lines 164-172. *)
Definition generateSlug (title : jsstring) : jsstring :=
  stripEnds isHyphen
    (replaceRuns isHyphen hyphen
       (replaceRuns isSpace hyphen
          (removeOutside keptBySlug
             (trim (toLowerCase title))))).

(** The message of the error of lines 192-194. *)
Definition invalidDateFormat (date : jsstring) : jsstring :=
  js "Invalid date format: " ++ date
    ++ js ". Expected YYYY-MM-DD or valid date string.".

(** [normalizeDate], lines 178-196.  [new Date(date)] parses the string;
    [toISOString] does not throw on a valid time value, so the only
    exception of the [try] block is the one of line 182, and the [catch]
    block is entered exactly when the string does not parse. *)
Definition normalizeDate (rt : ESDate.runtime) (date : jsstring)
    : result jsstring :=
  match ESDate.parse rt date with
  | Some t => Ok (hd [] (split 84 (ESDate.toISOString t)))
  | None =>
      if test isoDateRegex date then Ok date
      else Err (JsError (invalidDateFormat date))
  end.

(** [normalizeTime], lines 202-204. *)
Definition normalizeTime (time : jsstring) : jsstring := trim time.

(** The validator of the [date] path, lines 91-97. *)
Definition dateValidator (rt : ESDate.runtime) (value : jsstring) : bool :=
  if negb (test isoDateRegex value) then false
  else match ESDate.parse rt value with Some _ => true | None => false end.

(** The validator of the text paths: [value.trim().length > 0]. *)
Definition nonEmptyValidator (value : jsstring) : bool :=
  match trim value with [] => false | _ :: _ => true end.

(** The validator of [agenda] and [tags]:
    [Array.isArray(value) && value.length > 0]. *)
Definition nonEmptyArrayValidator (value : list jsstring) : bool :=
  match value with [] => false | _ :: _ => true end.

(** The validator of the [email] path, booking.model.ts lines 31-35. *)
Definition emailValidator (value : jsstring) : bool := test emailRegex value.

(** The alphabet of a slug as the code produces it: [[a-z0-9_-]]. *)
Definition isSlugChar (c : N) : bool :=
  isLower c || isDigit c || isUnderscore c || isHyphen c.

(** The alphabet [[a-z0-9-]]. *)
Definition isAlnumHyphen (c : N) : bool :=
  isLower c || isDigit c || isHyphen c.

(** Executable shape tests on strings. *)
Definition headIs (p : N -> bool) (s : jsstring) : bool :=
  match s with c :: _ => p c | [] => false end.

Fixpoint lastIs (p : N -> bool) (s : jsstring) : bool :=
  match s with
  | [] => false
  | c :: t => match t with [] => p c | _ :: _ => lastIs p t end
  end.

Fixpoint hasAdjacent (p : N -> bool) (s : jsstring) : bool :=
  match s with
  | [] => false
  | c :: t => (p c && headIs p t) || hasAdjacent p t
  end.

(* ================================================================== *)
(** * Mongoose: schema types, documents, validation and save *)
(* ================================================================== *)

(** The part of Mongoose the two models rely on.  A path of a schema has a
    type, setters ([lowercase], [trim]) and validators ([required], [enum],
    [validate]).  [save] runs the middleware of the schema in Mongoose's
    order: validation is itself middleware, the built-in pre-save hook
    [validateBeforeSave], which Mongoose puts in front of the hooks a schema
    registers with [pre("save", ...)] (hooks that must see the document
    before validation are registered with [pre("validate", ...)]); the
    document is written only when all of them have passed. *)
Module Mongoose.

Inductive value : Type :=
| VUndefined
| VString (s : jsstring)
| VArray (l : list jsstring)
| VObjectId (id : N).

Fixpoint string_eqb (a b : jsstring) : bool :=
  match a, b with
  | [], [] => true
  | c :: a', d :: b' => (c =? d) && string_eqb a' b'
  | _, _ => false
  end.

Fixpoint strings_eqb (a b : list jsstring) : bool :=
  match a, b with
  | [], [] => true
  | c :: a', d :: b' => string_eqb c d && strings_eqb a' b'
  | _, _ => false
  end.

Definition value_eqb (a b : value) : bool :=
  match a, b with
  | VUndefined, VUndefined => true
  | VString s, VString t => string_eqb s t
  | VArray l, VArray m => strings_eqb l m
  | VObjectId i, VObjectId j => i =? j
  | _, _ => false
  end.

Inductive pathType : Type := TString | TStringArray | TObjectId.

(** The options of one path.  [required], [enum] and [validate] carry their
    messages. *)
Record schemaType : Type := {
  type : pathType;
  required : option jsstring;
  optLowercase : bool;
  optTrim : bool;
  enum : option (list jsstring * jsstring);
  validate : option ((value -> bool) * jsstring);
  unique : bool
}.

(** A validator written for strings, or for arrays, on a value of the path. *)
Definition onString (f : jsstring -> bool) (v : value) : bool :=
  match v with VString s => f s | _ => false end.

Definition onArray (f : list jsstring -> bool) (v : value) : bool :=
  match v with VArray l => f l | _ => false end.

(** The setters of a string path: [trim] and [lowercase].  Mongoose applies
    them from the last registered to the first; the two commute
    ([toLowerCase_trim] below), so the order does not show. *)
Definition applySetters (st : schemaType) (v : value) : value :=
  match v with
  | VString s =>
      let s1 := if optTrim st then trim s else s in
      VString (if optLowercase st then toLowerCase s1 else s1)
  | _ => v
  end.

(** An array path left out defaults to the empty array. *)
Definition applyDefault (st : schemaType) (v : value) : value :=
  match type st, v with
  | TStringArray, VUndefined => VArray []
  | _, _ => v
  end.

(** [checkRequired]: a non-empty string, an array, an ObjectId. *)
Definition checkRequired (st : schemaType) (v : value) : bool :=
  match type st, v with
  | TString, VString s => match s with [] => false | _ :: _ => true end
  | TStringArray, VArray _ => true
  | TObjectId, VObjectId _ => true
  | _, _ => false
  end.

(** [doValidate]: [required] first; the other validators are skipped on an
    undefined value; the first failure is the error of the path. *)
Definition validatePath (st : schemaType) (v : value) : option jsstring :=
  match
    match required st with
    | Some msg => if checkRequired st v then None else Some msg
    | None => None
    end
  with
  | Some msg => Some msg
  | None =>
      match v with
      | VUndefined => None
      | _ =>
          match
            match enum st, v with
            | Some (values, msg), VString s =>
                if existsb (string_eqb s) values then None else Some msg
            | _, _ => None
            end
          with
          | Some msg => Some msg
          | None =>
              match validate st with
              | Some (validator, msg) =>
                  if validator v then None else Some msg
              | None => None
              end
          end
      end
  end.

(** ** Documents of a model *)
Section Model.
Variable path : Type.
Variable path_eqb : path -> path -> bool.
(** The paths of the schema, in the order of their declaration. *)
Variable paths : list path.
Variable pathName : path -> jsstring.
Variable schema : path -> schemaType.

(** A document in flight: its identifier, whether it was never saved, the
    paths marked as modified and the value of every path. *)
Record document : Type := {
  _id : N;
  isNew : bool;
  modified : path -> bool;
  get : path -> value
}.

Definition isModified (d : document) (p : path) : bool := modified d p.

(** [doc.p = v]: the setters of the path are applied, and the path is
    marked as modified when the value changes. *)
Definition set (p : path) (v : value) (d : document) : document :=
  let v' := applySetters (schema p) v in
  {| _id := _id d;
     isNew := isNew d;
     modified := fun q =>
       if path_eqb p q then modified d q || negb (value_eqb (get d q) v')
       else modified d q;
     get := fun q => if path_eqb p q then v' else get d q |}.

(** [new Model(obj)]: every path given is set, and counts as modified. *)
Definition construct (id : N) (obj : path -> value) : document :=
  {| _id := id;
     isNew := true;
     modified := fun p =>
       match obj p with VUndefined => false | _ => true end;
     get := fun p => applySetters (schema p) (applyDefault (schema p) (obj p)) |}.

(** [doc.validate()]: the failing paths with their messages. *)
Definition validateDoc (d : document) : list (jsstring * jsstring) :=
  flat_map
    (fun p =>
       match validatePath (schema p) (get d p) with
       | Some msg => [(pathName p, msg)]
       | None => []
       end)
    paths.

(** A collection of the store: the documents with their identifiers. *)
Definition collection : Type := list (N * (path -> value)).

Definition lookup (c : collection) (id : N) : option (path -> value) :=
  option_map snd (find (fun r => fst r =? id) c).

(** [Model.findById(id)]: the query resolves with the document or with
    [null], or it is rejected when the store fails it (no connection, a
    time-out, a server error): [fault] is what the driver throws then. *)
Definition findById (fault : option thrown) (c : collection) (id : N)
    : resultOf thrown (option (path -> value)) :=
  match fault with
  | Some r => Err r
  | None => Ok (lookup c id)
  end.

(** The first unique path on which another document of the collection has
    the same value. *)
Definition uniqueViolation (c : collection) (id : N)
    (fields : path -> value) : option path :=
  find
    (fun p =>
       unique (schema p)
       && existsb
            (fun r => negb (fst r =? id) && value_eqb (snd r p) (fields p))
            c)
    paths.

Definition insertOne (c : collection) (id : N) (fields : path -> value)
    : result collection :=
  if existsb (fun r => fst r =? id) c then Err (DuplicateKeyError (js "_id"))
  else
    match uniqueViolation c id fields with
    | Some p => Err (DuplicateKeyError (pathName p))
    | None => Ok (c ++ [(id, fields)])
    end.

(** The update of a saved document writes its modified paths. *)
Definition updateOne (c : collection) (d : document) : result collection :=
  match lookup c (_id d) with
  | None => Err DocumentNotFoundError
  | Some old =>
      let fields := fun p => if modified d p then get d p else old p in
      match uniqueViolation c (_id d) fields with
      | Some p => Err (DuplicateKeyError (pathName p))
      | None =>
          Ok (map (fun r => if fst r =? _id d then (_id d, fields) else r) c)
      end
  end.

(** [doc.save()]: validation, then the pre-save hook of the schema, then
    the write.  The result is paired with the collection afterwards. *)
Definition save (preSave : document -> result document) (c : collection)
    (d : document) : result document * collection :=
  match validateDoc d with
  | (_ :: _) as errors => (Err (ValidationError errors), c)
  | [] =>
      match preSave d with
      | Err e => (Err e, c)
      | Ok d' =>
          match (if isNew d' then insertOne c (_id d') (get d')
                 else updateOne c d') with
          | Err e => (Err e, c)
          | Ok c' =>
              (Ok {| _id := _id d'; isNew := false;
                     modified := fun _ => false; get := get d' |}, c')
          end
      end
  end.
End Model.

Arguments _id {path} d.
Arguments isNew {path} d.
Arguments modified {path} d p.
Arguments get {path} d p.
Arguments isModified {path} d p.
Arguments lookup {path} c id.
Arguments findById {path} fault c id.
Arguments set {path} path_eqb schema p v d.
Arguments construct {path} schema id obj.
Arguments validateDoc {path} paths pathName schema d.
Arguments uniqueViolation {path} paths schema c id fields.
Arguments insertOne {path} paths pathName schema c id fields.
Arguments updateOne {path} paths pathName schema c d.
Arguments save {path} paths pathName schema preSave c d.

End Mongoose.

Import Mongoose.

(* ================================================================== *)
(** * event.model.ts: the Event schema and its pre-save hook *)
(* ================================================================== *)

Module Event.

Inductive path : Type :=
| title | slug | description | overview | image | venue | location
| date | time | mode | audience | agenda | organizer | tags.

Definition paths : list path :=
  [title; slug; description; overview; image; venue; location;
   date; time; mode; audience; agenda; organizer; tags].

Definition index (p : path) : N :=
  match p with
  | title => 0 | slug => 1 | description => 2 | overview => 3 | image => 4
  | venue => 5 | location => 6 | date => 7 | time => 8 | mode => 9
  | audience => 10 | agenda => 11 | organizer => 12 | tags => 13
  end.

Definition path_eqb (p q : path) : bool := index p =? index q.

Definition pathName (p : path) : jsstring :=
  match p with
  | title => js "title" | slug => js "slug"
  | description => js "description" | overview => js "overview"
  | image => js "image" | venue => js "venue" | location => js "location"
  | date => js "date" | time => js "time" | mode => js "mode"
  | audience => js "audience" | agenda => js "agenda"
  | organizer => js "organizer" | tags => js "tags"
  end.

(** A required text path with the non-empty validator. *)
Definition textPath (requiredMsg : string) (trimmed : bool) (msg : string)
    : schemaType :=
  {| type := TString;
     required := Some (js requiredMsg);
     optLowercase := false;
     optTrim := trimmed;
     enum := None;
     validate := Some (onString nonEmptyValidator, js msg);
     unique := false |}.

(** A required array path with the non-empty validator. *)
Definition arrayPath (requiredMsg msg : string) : schemaType :=
  {| type := TStringArray;
     required := Some (js requiredMsg);
     optLowercase := false;
     optTrim := false;
     enum := None;
     validate := Some (onArray nonEmptyArrayValidator, js msg);
     unique := false |}.

Section WithRuntime.
Variable rt : ESDate.runtime.

(** The schema, lines 28-158. *)
Definition eventSchema (p : path) : schemaType :=
  match p with
  | title => textPath "Title is required" true "Title cannot be empty"
  | slug =>
      {| type := TString; required := None; optLowercase := true;
         optTrim := true; enum := None; validate := None; unique := true |}
  | description =>
      textPath "Description is required" false "Description cannot be empty"
  | overview =>
      textPath "Overview is required" false "Overview cannot be empty"
  | image => textPath "Image is required" false "Image cannot be empty"
  | venue => textPath "Venue is required" true "Venue cannot be empty"
  | location =>
      textPath "Location is required" true "Location cannot be empty"
  | date =>
      {| type := TString; required := Some (js "Date is required");
         optLowercase := false; optTrim := false; enum := None;
         validate :=
           Some (onString (dateValidator rt),
                 js "Date must be in ISO format (YYYY-MM-DD)");
         unique := false |}
  | time => textPath "Time is required" true "Time cannot be empty"
  | mode =>
      {| type := TString; required := Some (js "Mode is required");
         optLowercase := false; optTrim := false;
         enum :=
           Some ([js "online"; js "offline"; js "hybrid"],
                 js "Mode must be one of: online, offline, hybrid");
         validate := None; unique := false |}
  | audience =>
      textPath "Audience is required" true "Audience cannot be empty"
  | agenda => arrayPath "Agenda is required" "Agenda must be a non-empty array"
  | organizer =>
      textPath "Organizer is required" true "Organizer cannot be empty"
  | tags => arrayPath "Tags are required" "Tags must be a non-empty array"
  end.

Definition doc : Type := document path.

Definition assign (p : path) (v : value) (d : doc) : doc :=
  set path_eqb eventSchema p v d.

(** The pre-save hook, lines 210-233.  A path that is not a string cannot
    reach the hook, validation having rejected the document; on such a
    value the first and third steps raise a TypeError and the second fails
    in [normalizeDate]. *)
Definition preSave (d : doc) : result doc :=
  match
    (if isModified d title || isNew d then
       match get d title with
       | VString t => Ok (assign slug (VString (generateSlug t)) d)
       | _ => Err TypeError
       end
     else Ok d)
  with
  | Err e => Err e
  | Ok d1 =>
      match
        (if isModified d1 date then
           match get d1 date with
           | VString s =>
               match normalizeDate rt s with
               | Ok s' => Ok (assign date (VString s') d1)
               | Err e => Err e
               end
           | _ => Err (JsError (invalidDateFormat (js "undefined")))
           end
         else Ok d1)
      with
      | Err e => Err e
      | Ok d2 =>
          if isModified d2 time then
            match get d2 time with
            | VString s => Ok (assign time (VString (normalizeTime s)) d2)
            | _ => Err TypeError
            end
          else Ok d2
      end
  end.

Definition validate (d : doc) : list (jsstring * jsstring) :=
  validateDoc paths pathName eventSchema d.

(** [event.save()] on the events collection. *)
Definition saveEvent (c : collection path) (d : doc)
    : result doc * collection path :=
  save paths pathName eventSchema preSave c d.

(** [new Event(obj)] *)
Definition newEvent (id : N) (obj : path -> value) : doc :=
  construct eventSchema id obj.
End WithRuntime.

End Event.

(* ================================================================== *)
(** * booking.model.ts: the Booking schema and its pre-save hook *)
(* ================================================================== *)

Module Booking.

Inductive path : Type := eventId | email.

Definition paths : list path := [eventId; email].

Definition path_eqb (p q : path) : bool :=
  match p, q with
  | eventId, eventId => true
  | email, email => true
  | _, _ => false
  end.

Definition pathName (p : path) : jsstring :=
  match p with eventId => js "eventId" | email => js "email" end.

(** The schema, lines 17-43. *)
Definition bookingSchema (p : path) : schemaType :=
  match p with
  | eventId =>
      {| type := TObjectId; required := Some (js "Event ID is required");
         optLowercase := false; optTrim := false; enum := None;
         validate := None; unique := false |}
  | email =>
      {| type := TString; required := Some (js "Email is required");
         optLowercase := true; optTrim := true; enum := None;
         validate :=
           Some (onString emailValidator,
                 js "Please provide a valid email address");
         unique := false |}
  end.

Definition doc : Type := document path.

(** [ObjectId.prototype.toString]: 24 hexadecimal digits. *)
Definition hexDigit (n : N) : N := if n <? 10 then 48 + n else 87 + n.

Fixpoint hexDigits (k : nat) (n : N) : jsstring :=
  match k with
  | O => []
  | S j => hexDigits j (n / 16) ++ [hexDigit (n mod 16)]
  end.

Definition toHexString (id : N) : jsstring := hexDigits 24 id.

Definition doesNotExist (id : jsstring) : jsstring :=
  js "Event with ID " ++ id ++ js " does not exist".

(** [`${this.eventId}`] *)
Definition idText (v : value) : jsstring :=
  match v with
  | VObjectId id => toHexString id
  | _ => js "undefined"
  end.

(** [Event.findById(this.eventId)], line 52; [fault] is what the driver
    throws when the store fails the query.  Validation has rejected a
    missing [eventId] before the hook runs; Mongoose turns
    [findById(undefined)] into a query for [_id: null], which matches no
    document. *)
Definition findEvent (fault : option thrown)
    (events : collection Event.path) (v : value)
    : resultOf thrown (option (Event.path -> value)) :=
  match v with
  | VObjectId id => findById fault events id
  | _ => findById fault [] 0
  end.

(** The pre-save hook, lines 49-67: the referenced Event is looked up in the
    events collection; without it the hook fails with the error of line
    55.  The [catch] of lines 59-66 receives what the query was rejected
    with: it passes an Error on as it is and replaces any other value. *)
Definition preSave (fault : option thrown) (events : collection Event.path)
    (d : doc) : result doc :=
  match findEvent fault events (get d eventId) with
  | Ok (Some _) => Ok d
  | Ok None => Err (JsError (doesNotExist (idText (get d eventId))))
  | Err (ErrorObject m) => Err (Thrown (ErrorObject m))
  | Err OtherValue => Err (JsError (js "Failed to validate event reference"))
  end.

Definition validate (d : doc) : list (jsstring * jsstring) :=
  validateDoc paths pathName bookingSchema d.

(** [booking.save()] on the bookings collection. *)
Definition saveBooking (fault : option thrown)
    (events : collection Event.path) (c : collection path) (d : doc)
    : result doc * collection path :=
  save paths pathName bookingSchema (preSave fault events) c d.

Definition newBooking (id : N) (obj : path -> value) : doc :=
  construct bookingSchema id obj.

End Booking.

(* ================================================================== *)
(** * The store *)
(* ================================================================== *)

(** The two collections and the next identifier the driver hands out. *)
Record database : Type := {
  nextId : N;
  events : collection Event.path;
  bookings : collection Booking.path
}.

(** [Event.create(obj)] *)
Definition createEvent (rt : ESDate.runtime) (db : database)
    (obj : Event.path -> value) : result Event.doc * database :=
  let (r, c) := Event.saveEvent rt (events db) (Event.newEvent rt (nextId db) obj) in
  (r, {| nextId := nextId db + 1; events := c; bookings := bookings db |}).

(** [Booking.create(obj)]; [fault] is what the driver throws when the
    store fails the query of the hook. *)
Definition createBooking (fault : option thrown) (db : database)
    (obj : Booking.path -> value) : result Booking.doc * database :=
  let (r, c) :=
    Booking.saveBooking fault (events db) (bookings db)
      (Booking.newBooking (nextId db) obj) in
  (r, {| nextId := nextId db + 1; events := events db; bookings := c |}).

(** The identifiers in use are below the next one. *)
Definition freshIds (db : database) : Prop :=
  Forall (fun r => fst r < nextId db) (events db) /\
  Forall (fun r => fst r < nextId db) (bookings db).

(* ================================================================== *)
(** * lib/mongodb.ts: the cached connection *)
(* ================================================================== *)

(** [connectDB] is an async function.  JavaScript runs one job at a time, so
    a call runs without interruption up to its [await]; the connection
    attempt settles in a later job, and the suspended call resumes after it.
    The state holds the global cache, the promises made by [connectDB] and
    the number of calls of [mongoose.connect]. *)
Module Connection.

(** The Mongoose instance a connection attempt resolves with. *)
Definition handle : Type := N.
Definition promiseId : Type := nat.

Inductive promiseState : Type :=
| Pending
| Fulfilled (h : handle)
| Rejected (r : thrown).

(** [interface MongooseCache], lines 7-10. *)
Record MongooseCache : Type := {
  conn : option handle;
  promise : option promiseId
}.

Record state : Type := {
  (** [process.env.MONGODB_URI], read once at line 37. *)
  MONGODB_URI : option jsstring;
  (** [global.mongoose] *)
  mongoose : option MongooseCache;
  (** the promises [connectDB] has created, by identifier. *)
  promises : list promiseState;
  (** the calls of [mongoose.connect] so far. *)
  attempts : nat
}.

Definition withCache (c : MongooseCache) (st : state) : state :=
  {| MONGODB_URI := MONGODB_URI st; mongoose := Some c;
     promises := promises st; attempts := attempts st |}.

(** [getMongooseCache], lines 26-31. *)
Definition getMongooseCache (st : state) : MongooseCache * state :=
  match mongoose st with
  | None =>
      let c := {| conn := None; promise := None |} in (c, withCache c st)
  | Some c => (c, st)
  end.

(** [validateMongoUri], lines 43-50: an undefined or empty string is falsy. *)
Definition validateMongoUri (st : state) : result jsstring :=
  match MONGODB_URI st with
  | None | Some [] =>
      Err (JsError
             (js "Please define the MONGODB_URI environment variable inside .env.local"))
  | Some uri => Ok uri
  end.

(** Where a call of [connectDB] stands when it gives up control. *)
Inductive ticket : Type :=
| Returned (h : handle)      (* line 73: the cached connection *)
| Joined (p : promiseId)     (* line 79: the promise in progress *)
| Threw (e : error)          (* line 83: no URI *)
| Awaiting (p : promiseId).  (* line 94: suspended on its own attempt *)

(** [connectDB] up to its first suspension, lines 68-94.  [cache] is the
    object that [global.mongoose] holds, [getMongooseCache] having stored
    it there: the assignment of line 86 is seen through the global. *)
Definition connectDB (st : state) : ticket * state :=
  let (cache, st1) := getMongooseCache st in
  match conn cache with
  | Some h => (Returned h, st1)
  | None =>
      match promise cache with
      | Some p => (Joined p, st1)
      | None =>
          match validateMongoUri st1 with
          | Err e => (Threw e, st1)
          | Ok _ =>
              let p := List.length (promises st1) in
              (Awaiting p,
               {| MONGODB_URI := MONGODB_URI st1;
                  mongoose :=
                    option_map
                      (fun c => {| conn := conn c; promise := Some p |})
                      (mongoose st1);
                  promises := promises st1 ++ [Pending];
                  attempts := S (attempts st1) |})
          end
      end
  end.

Fixpoint settleAt (p : promiseId) (v : promiseState)
    (ps : list promiseState) : list promiseState :=
  match ps, p with
  | [], _ => []
  | Pending :: t, O => v :: t
  | s :: t, O => s :: t
  | s :: t, S k => s :: settleAt k v t
  end.

(** The connection attempt behind promise [p] finishes.  On success the
    callback of lines 86-90 stores the instance in the cache and the promise
    is fulfilled with it; on failure the promise is rejected. *)
Definition settle (p : promiseId) (outcome : resultOf thrown handle)
    (st : state) : state :=
  match nth_error (promises st) p with
  | Some Pending =>
      match outcome with
      | Ok h =>
          {| MONGODB_URI := MONGODB_URI st;
             mongoose :=
               option_map
                 (fun c => {| conn := Some h; promise := promise c |})
                 (mongoose st);
             promises := settleAt p (Fulfilled h) (promises st);
             attempts := attempts st |}
      | Err r =>
          {| MONGODB_URI := MONGODB_URI st;
             mongoose := mongoose st;
             promises := settleAt p (Rejected r) (promises st);
             attempts := attempts st |}
      end
  | _ => st
  end.

(** [error instanceof Error ? error.message : "Unknown error"], line 110. *)
Definition messageOf (r : thrown) : jsstring :=
  match r with
  | ErrorObject m => m
  | OtherValue => js "Unknown error"
  end.

(** The rest of [connectDB] after the [await], lines 94-113: [None] while
    the promise is pending. *)
Definition resume (p : promiseId) (st : state)
    : option (result handle * state) :=
  match nth_error (promises st) p with
  | Some (Fulfilled h) => Some (Ok h, st)
  | Some (Rejected r) =>
      Some (Err (JsError (js "Failed to connect to MongoDB: " ++ messageOf r)),
            {| MONGODB_URI := MONGODB_URI st;
               mongoose :=
                 option_map (fun c => {| conn := conn c; promise := None |})
                   (mongoose st);
               promises := promises st;
               attempts := attempts st |})
  | _ => None
  end.

(** What the caller holding a ticket receives, and the state afterwards;
    [None] while its promise is pending.  A call that joined an attempt
    holds the promise of the attempt itself (line 79), and receives what
    that promise settles with. *)
Definition complete (t : ticket) (st : state)
    : option (result handle * state) :=
  match t with
  | Returned h => Some (Ok h, st)
  | Threw e => Some (Err e, st)
  | Joined p =>
      match nth_error (promises st) p with
      | Some (Fulfilled h) => Some (Ok h, st)
      | Some (Rejected r) => Some (Err (Thrown r), st)
      | _ => None
      end
  | Awaiting p => resume p st
  end.

(** Where a call of [disconnectDB] stands when it gives up control. *)
Inductive closing : Type :=
| NothingCached          (* line 125: no connection, the call returns *)
| Closing (h : handle).  (* line 126: suspended on [cache.conn.disconnect()] *)

(** [disconnectDB] up to its suspension, lines 122-126. *)
Definition disconnectDB (st : state) : closing * state :=
  let (cache, st1) := getMongooseCache st in
  match conn cache with
  | Some h => (Closing h, st1)
  | None => (NothingCached, st1)
  end.

(** The rest of [disconnectDB] after the [await], lines 127-133, with the
    outcome of [disconnect()]: when that was rejected the call is rejected
    with the same value and the two assignments are not reached. *)
Definition disconnected (outcome : resultOf thrown unit) (st : state)
    : result unit * state :=
  match outcome with
  | Ok _ =>
      (Ok tt,
       {| MONGODB_URI := MONGODB_URI st;
          mongoose :=
            option_map (fun _ => {| conn := None; promise := None |})
              (mongoose st);
          promises := promises st;
          attempts := attempts st |})
  | Err r => (Err (Thrown r), st)
  end.

(** A call of [disconnectDB] with no other job between its two parts. *)
Definition disconnectNow (outcome : resultOf thrown unit) (st : state)
    : result unit * state :=
  match disconnectDB st with
  | (NothingCached, st1) => (Ok tt, st1)
  | (Closing _, st1) => disconnected outcome st1
  end.

(** The state a call leaves when it starts a connection attempt. *)
Definition started (st : state) : state :=
  {| MONGODB_URI := MONGODB_URI st;
     mongoose :=
       Some {| conn := None; promise := Some (List.length (promises st)) |};
     promises := promises st ++ [Pending];
     attempts := S (attempts st) |}.

(** The state after that attempt has succeeded with [h]. *)
Definition connected (h : handle) (st : state) : state :=
  {| MONGODB_URI := MONGODB_URI st;
     mongoose :=
       Some {| conn := Some h; promise := Some (List.length (promises st)) |};
     promises := promises st ++ [Fulfilled h];
     attempts := S (attempts st) |}.

(** The state after that attempt has failed with [r], before the call that
    started it has resumed. *)
Definition failed (r : thrown) (st : state) : state :=
  {| MONGODB_URI := MONGODB_URI st;
     mongoose :=
       Some {| conn := None; promise := Some (List.length (promises st)) |};
     promises := promises st ++ [Rejected r];
     attempts := S (attempts st) |}.

(** The state after that call has resumed and cleared the pending marker. *)
Definition cleared (r : thrown) (st : state) : state :=
  {| MONGODB_URI := MONGODB_URI st;
     mongoose := Some {| conn := None; promise := None |};
     promises := promises st ++ [Rejected r];
     attempts := S (attempts st) |}.

(** A development configuration for the examples. *)
Definition devState : state :=
  {| MONGODB_URI := Some (js "mongodb://localhost:27017/dev-events");
     mongoose := None; promises := []; attempts := 0%nat |}.

(** No connection is cached and none is in progress. *)
Definition idle (st : state) : Prop :=
  match mongoose st with
  | None => True
  | Some c => conn c = None /\ promise c = None
  end.

Definition configured (st : state) : Prop :=
  exists c uri, MONGODB_URI st = Some (c :: uri).

End Connection.

(* ================================================================== *)
(** * Predicates used in the statements *)
(* ================================================================== *)

(** What the email pattern of the source accepts: a local part, [@], a
    domain with a dot inside it; no part is empty and none has white space
    or [@]. *)
Definition wellFormedEmail (v : jsstring) : Prop :=
  exists l d1 d2,
    v = l ++ [64] ++ d1 ++ [46] ++ d2 /\
    l <> [] /\ d1 <> [] /\ d2 <> [] /\
    Forall (fun c => notSpaceAt c = true) l /\
    Forall (fun c => notSpaceAt c = true) d1 /\
    Forall (fun c => notSpaceAt c = true) d2.

(** The pattern in the words of the specification: a local part, [@] and a
    domain part, with no white space anywhere. *)
Definition specEmailPattern (v : jsstring) : Prop :=
  exists l d,
    v = l ++ [64] ++ d /\ l <> [] /\ d <> [] /\
    Forall (fun c => isSpace c = false) v.

(** The string [YYYY-MM-DD] of a year, a month (1 to 12) and a day. *)
Definition isoDate (y m d : Z) : jsstring :=
  ESDate.padDigits 4 y ++ [45] ++ ESDate.padDigits 2 m ++ [45]
    ++ ESDate.padDigits 2 d.

(** A date of the calendar with a year of four digits. *)
Definition realDate (y m d : Z) : Prop :=
  (0 <= y <= 9999 /\ 1 <= m <= 12 /\ 1 <= d <= ESDate.DaysInMonth y m)%Z.

(** A path of a document passes validation. *)
Definition passes (st : schemaType) (v : value) : Prop :=
  validatePath st v = None.

(* ================================================================== *)
(** * Data for the examples *)
(* ================================================================== *)

(** A host in the UTC time zone that parses nothing beyond the standard
    format. *)
Definition utcRuntime : ESDate.runtime :=
  {| ESDate.localTZA := fun _ => 0%Z; ESDate.fallbackParse := fun _ => None |}.

Definition emptyDb : database :=
  {| nextId := 1; events := []; bookings := [] |}.

(** An event after the first entry of the static dataset, with the title,
    the date and the mode left open. *)
Definition sampleEvent (t d m : jsstring) : Event.path -> value :=
  fun p =>
    match p with
    | Event.title => VString t
    | Event.slug => VUndefined
    | Event.description => VString (js "The annual Next.js conference")
    | Event.overview => VString (js "Talks and workshops")
    | Event.image => VString (js "/images/event1.png")
    | Event.venue => VString (js "Moscone Center")
    | Event.location => VString (js "San Francisco, CA")
    | Event.date => VString d
    | Event.time => VString (js "9:00 AM PDT")
    | Event.mode => VString m
    | Event.audience => VString (js "Developers")
    | Event.agenda => VArray [js "Keynote"; js "Workshops"]
    | Event.organizer => VString (js "Vercel")
    | Event.tags => VArray [js "nextjs"; js "react"]
    end.

Definition nextjsConf : Event.path -> value :=
  sampleEvent (js "Next.js Conf 2025") (js "2025-10-21") (js "hybrid").

(** The same slug from another title. *)
Definition nextjsConfAgain : Event.path -> value :=
  sampleEvent (js "  NEXT.js  conf 2025! ") (js "2025-10-22") (js "online").

(** The store after [nextjsConf] has been created in the empty one. *)
Definition dbWithNextjsConf : database :=
  snd (createEvent utcRuntime emptyDb nextjsConf).

Definition okOr {A : Type} (default : A) (r : result A) : A :=
  match r with Ok a => a | Err _ => default end.

Definition sampleBooking (id : N) (mail : jsstring) : Booking.path -> value :=
  fun p =>
    match p with
    | Booking.eventId => VObjectId id
    | Booking.email => VString mail
    end.

(* ================================================================== *)
(** * Further predicates: validation, the store, the event loop *)
(* ================================================================== *)

(** A text value that is not blank. *)
Definition nonBlank (v : value) : Prop :=
  exists s, v = VString s /\ trim s <> [].

Definition nonEmptyArray (v : value) : Prop :=
  exists l, v = VArray l /\ l <> [].

(** What the Event schema asks of a document, path by path (lines 30-153);
    nothing is asked of [slug]. *)
Definition acceptableEvent (rt : ESDate.runtime) (d : Event.doc) : Prop :=
  nonBlank (get d Event.title) /\
  nonBlank (get d Event.description) /\
  nonBlank (get d Event.overview) /\
  nonBlank (get d Event.image) /\
  nonBlank (get d Event.venue) /\
  nonBlank (get d Event.location) /\
  (exists s, get d Event.date = VString s /\ dateValidator rt s = true) /\
  nonBlank (get d Event.time) /\
  (exists s, get d Event.mode = VString s /\
             In s [js "online"; js "offline"; js "hybrid"]) /\
  nonBlank (get d Event.audience) /\
  nonEmptyArray (get d Event.agenda) /\
  nonBlank (get d Event.organizer) /\
  nonEmptyArray (get d Event.tags).

(** What the Booking schema asks of a document (lines 19-38). *)
Definition acceptableBooking (d : Booking.doc) : Prop :=
  (exists id, get d Booking.eventId = VObjectId id) /\
  (exists s, get d Booking.email = VString s /\ wellFormedEmail s).

(** Strings of code units below U+0100: on these [toLowerCase] of [JS] is
    the lower-casing of the language, unit by unit. *)
Definition latin1 (s : jsstring) : Prop := Forall (fun c => c < 256) s.

(** A host that parses the Date Time String Format and nothing else. *)
Definition strictHost (rt : ESDate.runtime) : Prop :=
  forall s, ESDate.fallbackParse rt s = None.

(** No two documents of a collection share an identifier; no two events
    share a slug. *)
Definition distinctIds {path : Type} (c : collection path) : Prop :=
  NoDup (map fst c).

Definition distinctSlugs (c : collection Event.path) : Prop :=
  NoDup (map (fun r => snd r Event.slug) c).

(** The message of the error of [validateMongoUri], lines 45-47. *)
Definition noUriMessage : jsstring :=
  js "Please define the MONGODB_URI environment variable inside .env.local".

(** ** Calls of [connectDB] on the event loop

    The jobs that touch the connection cache when only [connectDB] is in
    use: a call running up to its [await] (or to its return), the
    settlement of a connection attempt together with the callback of lines
    86-90, and the continuation of a suspended call after its [await].  A
    suspended call is resumed once, at any later time. *)
Module EventLoop.
Import Connection.

Inductive job : Type :=
| Call
| Settle (p : promiseId) (outcome : resultOf thrown handle)
| Resume (p : promiseId).

Record world : Type := {
  (** the connection state. *)
  cacheState : state;
  (** the promises of the calls suspended at line 94. *)
  suspended : list promiseId
}.

Definition isSuspended (w : world) (p : promiseId) : bool :=
  existsb (Nat.eqb p) (suspended w).

Definition step (w : world) (j : job) : world :=
  match j with
  | Call =>
      let (t, st) := connectDB (cacheState w) in
      {| cacheState := st;
         suspended :=
           match t with
           | Awaiting p => p :: suspended w
           | _ => suspended w
           end |}
  | Settle p outcome =>
      {| cacheState := settle p outcome (cacheState w);
         suspended := suspended w |}
  | Resume p =>
      if isSuspended w p then
        match resume p (cacheState w) with
        | Some (_, st) =>
            {| cacheState := st;
               suspended := filter (fun q => negb (Nat.eqb p q)) (suspended w) |}
        | None => w
        end
      else w
  end.

Definition run (jobs : list job) (w : world) : world :=
  fold_left step jobs w.

(** The process at start: nothing cached, no promise made. *)
Definition start (uri : option jsstring) : world :=
  {| cacheState :=
       {| MONGODB_URI := uri; mongoose := None; promises := [];
          attempts := 0%nat |};
     suspended := [] |}.

(** The attempts in flight. *)
Definition inFlight (st : state) : list promiseId :=
  filter
    (fun p => match nth_error (promises st) p with
              | Some Pending => true
              | _ => false
              end)
    (seq 0 (List.length (promises st))).

(** What holds of the cache after any sequence of jobs: a pending promise
    is the one the cache holds, with no connection cached; a rejected
    promise whose call has not resumed yet is still the one the cache holds;
    a call is suspended once; every attempt made a promise. *)
Definition consistent (w : world) : Prop :=
  let st := cacheState w in
  (forall p, nth_error (promises st) p = Some Pending ->
     mongoose st = Some {| conn := None; promise := Some p |}) /\
  (forall p r, In p (suspended w) ->
     nth_error (promises st) p = Some (Rejected r) ->
     mongoose st = Some {| conn := None; promise := Some p |}) /\
  NoDup (suspended w) /\
  attempts st = List.length (promises st) /\
  (forall p, In p (suspended w) -> (p < List.length (promises st))%nat).

End EventLoop.

(* ================================================================== *)
(** * Properties *)
(* ================================================================== *)

Example slug_nextjs : generateSlug (js "Next.js Conf 2025") = js "nextjs-conf-2025".
Proof. reflexivity. Qed.
Example slug_kubecon :
  generateSlug (js "KubeCon + CloudNativeCon NA 2025") = js "kubecon-cloudnativecon-na-2025".
Proof. reflexivity. Qed.
Example slug_bang : generateSlug (js "!!!") = js "".
Proof. reflexivity. Qed.
Example slug_under : generateSlug (js " -a_b - C- ") = js "a_b-c".
Proof. reflexivity. Qed.

(** ** Character classes *)

Ltac unfold_classes :=
  unfold isSlugChar, isAlnumHyphen, keptBySlug, isWordChar, isSpace, isUpper,
    isLower, isDigit, isHyphen, isUnderscore, isAt, isDot, inRange in *.

Ltac bool_to_prop :=
  repeat rewrite ?andb_true_iff, ?orb_true_iff, ?andb_false_iff,
    ?orb_false_iff, ?negb_true_iff, ?negb_false_iff, ?N.leb_le, ?N.leb_gt,
    ?N.eqb_eq, ?N.eqb_neq in *.

Ltac classes := unfold_classes; bool_to_prop; lia.

Lemma slugChar_not_space c : isSlugChar c = true -> isSpace c = false.
Proof. intros H. classes. Qed.

Lemma slugChar_not_upper c : isSlugChar c = true -> isUpper c = false.
Proof. intros H. classes. Qed.

Lemma slugChar_kept c : isSlugChar c = true -> keptBySlug c = true.
Proof. intros H. classes. Qed.

Lemma kept_lower_slugChar c :
  keptBySlug c = true -> isUpper c = false -> isSpace c = false ->
  isSlugChar c = true.
Proof.
  unfold keptBySlug, isWordChar, isSlugChar. intros H U S.
  rewrite U, S in H. simpl in H. rewrite orb_false_r in H.
  rewrite <- !orb_assoc in *. exact H.
Qed.

Lemma hyphen_slugChar : isSlugChar 45 = true.
Proof. reflexivity. Qed.

(** ** toLowerCase *)

Lemma lowerUnit_no_upper c :
  Forall (fun d => isUpper d = false) (lowerUnit c).
Proof.
  unfold lowerUnit.
  destruct (isUpper c) eqn:U.
  { repeat constructor. classes. }
  destruct (inRange 192 222 c && negb (c =? 215)) eqn:L.
  { repeat constructor. classes. }
  destruct (c =? 304) eqn:E1; [repeat constructor|].
  destruct (c =? 8490) eqn:E2; [repeat constructor|].
  destruct (c =? 8491) eqn:E3; [repeat constructor|].
  repeat constructor. exact U.
Qed.

Lemma toLowerCase_no_upper s :
  Forall (fun d => isUpper d = false) (toLowerCase s).
Proof.
  induction s as [|c t IH]; simpl; [constructor|].
  apply Forall_app; split; [apply lowerUnit_no_upper | exact IH].
Qed.

Lemma lowerUnit_slugChar c : isSlugChar c = true -> lowerUnit c = [c].
Proof.
  intros H. unfold lowerUnit.
  assert (isUpper c = false) as -> by classes.
  assert (inRange 192 222 c = false) as -> by classes.
  assert ((c =? 304) = false) as -> by classes.
  assert ((c =? 8490) = false) as -> by classes.
  assert ((c =? 8491) = false) as -> by classes.
  reflexivity.
Qed.

Lemma toLowerCase_slug_id s :
  Forall (fun c => isSlugChar c = true) s -> toLowerCase s = s.
Proof.
  induction 1 as [|c t Hc _ IH]; simpl; [reflexivity|].
  rewrite (lowerUnit_slugChar _ Hc), IH. reflexivity.
Qed.

(** ** Lists of code units: dropping and replacing runs *)

Section Runs.
Variable p : N -> bool.

Lemma dropWhile_Forall (P : N -> Prop) s : Forall P s -> Forall P (dropWhile p s).
Proof.
  induction 1 as [|c t Hc Ht IH]; simpl; [constructor|].
  destruct (p c); [exact IH | constructor; assumption].
Qed.

Lemma dropEndWhile_Forall (P : N -> Prop) s : Forall P s -> Forall P (dropEndWhile p s).
Proof.
  induction 1 as [|c t Hc Ht IH]; simpl; [constructor|].
  destruct (dropEndWhile p t) as [|d r].
  - destruct (p c); repeat constructor; assumption.
  - constructor; assumption.
Qed.

Lemma headIs_dropWhile s : headIs p (dropWhile p s) = false.
Proof.
  induction s as [|c t IH]; simpl; [reflexivity|].
  destruct (p c) eqn:E; [exact IH | simpl; exact E].
Qed.

(** [dropEndWhile] keeps the first code unit of whatever it keeps. *)
Lemma dropEndWhile_head s d r :
  dropEndWhile p s = d :: r -> exists t, s = d :: t.
Proof.
  destruct s as [|c t]; simpl; [discriminate|].
  destruct (dropEndWhile p t) as [|e r'].
  - destruct (p c); [discriminate|]. intros [= <- <-]. eauto.
  - intros [= <- <-]. eauto.
Qed.

Lemma headIs_dropEndWhile s :
  headIs p s = false -> headIs p (dropEndWhile p s) = false.
Proof.
  intros H. destruct (dropEndWhile p s) as [|d r] eqn:E; [reflexivity|].
  apply dropEndWhile_head in E as [t ->]. exact H.
Qed.

Lemma lastIs_dropEndWhile s : lastIs p (dropEndWhile p s) = false.
Proof.
  induction s as [|c t IH]; simpl; [reflexivity|].
  destruct (dropEndWhile p t) as [|d r]; [|exact IH].
  destruct (p c) eqn:E; simpl; [reflexivity | exact E].
Qed.

Lemma hasAdjacent_dropWhile s :
  hasAdjacent p s = false -> hasAdjacent p (dropWhile p s) = false.
Proof.
  induction s as [|c t IH]; simpl; [reflexivity|].
  intros H. destruct (p c) eqn:E; simpl in H |- *.
  - apply IH. apply orb_false_iff in H. tauto.
  - rewrite E. exact H.
Qed.

Lemma hasAdjacent_dropEndWhile s :
  hasAdjacent p s = false -> hasAdjacent p (dropEndWhile p s) = false.
Proof.
  induction s as [|c t IH]; simpl; [reflexivity|].
  intros H. apply orb_false_iff in H as [H1 H2]. specialize (IH H2).
  destruct (dropEndWhile p t) as [|d r] eqn:E.
  - destruct (p c); simpl; [reflexivity|]. now rewrite andb_false_r.
  - apply dropEndWhile_head in E as [t' ->].
    change (hasAdjacent p (c :: d :: r))
      with ((p c && p d) || hasAdjacent p (d :: r)).
    simpl in H1. rewrite H1, IH. reflexivity.
Qed.

(** With nothing to drop the string is returned as it is. *)
Lemma dropWhile_id s : headIs p s = false -> dropWhile p s = s.
Proof. destruct s as [|c t]; simpl; [reflexivity|]. now intros ->. Qed.

Lemma dropEndWhile_id s : lastIs p s = false -> dropEndWhile p s = s.
Proof.
  induction s as [|c t IH]; simpl; [reflexivity|].
  destruct t as [|d t'].
  - simpl. now intros ->.
  - intros H. rewrite (IH H). reflexivity.
Qed.

Lemma lastIs_none s : Forall (fun c => p c = false) s -> lastIs p s = false.
Proof.
  induction 1 as [|c t Hc Ht IH]; simpl; [reflexivity|].
  destruct t; assumption.
Qed.

Lemma headIs_none s : Forall (fun c => p c = false) s -> headIs p s = false.
Proof. destruct 1; simpl; auto. Qed.

Lemma hasAdjacent_none s :
  Forall (fun c => p c = false) s -> hasAdjacent p s = false.
Proof.
  induction 1 as [|c t Hc Ht IH]; simpl; [reflexivity|].
  now rewrite Hc, IH.
Qed.

Lemma lastIs_snoc s c : lastIs p (s ++ [c]) = p c.
Proof.
  induction s as [|d t IH]; simpl; [reflexivity|].
  destruct (t ++ [c]) eqn:E; [|exact IH].
  destruct t; discriminate.
Qed.

Lemma hasAdjacent_middle a c d b :
  p c = true -> p d = true -> hasAdjacent p (a ++ c :: d :: b) = true.
Proof.
  intros Hc Hd. induction a as [|e a IH]; simpl.
  - now rewrite Hc, Hd.
  - simpl in IH. rewrite IH. apply orb_true_r.
Qed.

(** ** [replaceRunsFrom] *)

Variable r : jsstring.

Lemma replaceRunsFrom_Forall (P : N -> Prop) b s :
  Forall P r ->
  Forall (fun c => p c = false -> P c) s ->
  Forall P (replaceRunsFrom p r b s).
Proof.
  intros Hr Hs. revert b.
  induction Hs as [|c t Hc Ht IH]; intros b; simpl; [constructor|].
  destruct (p c) eqn:E.
  - destruct b; [apply IH|]. apply Forall_app; split; [exact Hr | apply IH].
  - constructor; [apply Hc; reflexivity | apply IH].
Qed.

Lemma replaceRunsFrom_none b s :
  Forall (fun c => p c = false) s -> replaceRunsFrom p r b s = s.
Proof.
  intros Hs. revert b.
  induction Hs as [|c t Hc Ht IH]; intros b; simpl; [reflexivity|].
  rewrite Hc, IH. reflexivity.
Qed.
End Runs.

(** Replacing every run of the class by one member of the class leaves no
    two neighbours in the class. *)
Lemma replaceRunsFrom_no_adjacent p h b s :
  p h = true ->
  hasAdjacent p (replaceRunsFrom p [h] b s) = false /\
  (b = true -> headIs p (replaceRunsFrom p [h] b s) = false).
Proof.
  intros Hh. revert b.
  induction s as [|c t IH]; intros b; simpl; [split; reflexivity|].
  destruct (p c) eqn:E.
  - destruct b.
    + apply IH.
    + destruct (IH true) as [A B]. simpl. rewrite A, (B eq_refl).
      split; [now rewrite andb_false_r | discriminate].
  - destruct (IH false) as [A _]. simpl. rewrite E, A. split; auto.
Qed.

(** A string whose runs of the class all have length one, each being the
    replacement itself, is returned as it is. *)
Lemma replaceRunsFrom_id p h b s :
  (forall c, p c = true -> c = h) ->
  hasAdjacent p s = false ->
  (b = true -> headIs p s = false) ->
  replaceRunsFrom p [h] b s = s.
Proof.
  intros Hp. revert b.
  induction s as [|c t IH]; intros b A B; simpl; [reflexivity|].
  simpl in A. apply orb_false_iff in A as [A1 A2].
  destruct (p c) eqn:E.
  - destruct b; [simpl in B; rewrite B in E; [discriminate|reflexivity]|].
    simpl in A1. simpl. rewrite (IH true A2 (fun _ => A1)).
    now rewrite (Hp c E).
  - rewrite (IH false A2); [reflexivity | discriminate].
Qed.

(** ** generateSlug *)

Lemma filter_all_kept (keep : N -> bool) s :
  Forall (fun c => keep c = true) s -> removeOutside keep s = s.
Proof.
  unfold removeOutside.
  induction 1 as [|c t Hc _ IH]; simpl; [reflexivity|]. now rewrite Hc, IH.
Qed.

(** The string before the hyphen runs are collapsed: every code unit is in
    the slug alphabet. *)
Lemma slug_spaces_replaced title :
  Forall (fun c => isSlugChar c = true)
    (replaceRuns isSpace hyphen
       (removeOutside keptBySlug (trim (toLowerCase title)))).
Proof.
  apply replaceRunsFrom_Forall; [repeat constructor|].
  unfold removeOutside. apply Forall_forall. intros c Hc Hs.
  apply filter_In in Hc as [Hin Hk].
  apply kept_lower_slugChar; auto.
  pose proof (toLowerCase_no_upper title) as U.
  apply (dropWhile_Forall isSpace), (dropEndWhile_Forall isSpace) in U.
  rewrite Forall_forall in U. apply U, Hin.
Qed.

Lemma generateSlug_alphabet title :
  Forall (fun c => isSlugChar c = true) (generateSlug title).
Proof.
  unfold generateSlug, stripEnds.
  apply dropEndWhile_Forall, dropWhile_Forall.
  apply replaceRunsFrom_Forall; [repeat constructor|].
  eapply Forall_impl; [|apply slug_spaces_replaced]. auto.
Qed.

Lemma generateSlug_head title : headIs isHyphen (generateSlug title) = false.
Proof. apply headIs_dropEndWhile, headIs_dropWhile. Qed.

Lemma generateSlug_last title : lastIs isHyphen (generateSlug title) = false.
Proof. apply lastIs_dropEndWhile. Qed.

Lemma generateSlug_adjacent title :
  hasAdjacent isHyphen (generateSlug title) = false.
Proof.
  apply hasAdjacent_dropEndWhile, hasAdjacent_dropWhile.
  exact (proj1 (replaceRunsFrom_no_adjacent isHyphen 45 false _ eq_refl)).
Qed.

(** A string that already has the shape of a slug is a fixed point. *)
Lemma generateSlug_fixed s :
  Forall (fun c => isSlugChar c = true) s ->
  headIs isHyphen s = false -> lastIs isHyphen s = false ->
  hasAdjacent isHyphen s = false ->
  generateSlug s = s.
Proof.
  intros A H L D. unfold generateSlug.
  assert (S : Forall (fun c => isSpace c = false) s).
  { eapply Forall_impl; [|exact A]. apply slugChar_not_space. }
  rewrite (toLowerCase_slug_id _ A).
  unfold trim. rewrite (dropWhile_id _ _ (headIs_none _ _ S)).
  rewrite (dropEndWhile_id _ _ (lastIs_none _ _ S)).
  rewrite filter_all_kept
    by (eapply Forall_impl; [|exact A]; apply slugChar_kept).
  unfold replaceRuns. rewrite (replaceRunsFrom_none _ hyphen false _ S).
  change hyphen with [45].
  rewrite (replaceRunsFrom_id isHyphen 45 false s); try assumption;
    try discriminate.
  - unfold stripEnds. rewrite (dropWhile_id _ _ H).
    apply dropEndWhile_id, L.
  - intros c Hc. apply N.eqb_eq, Hc.
Qed.

(** C3, as amended: for every title, the slug is lower case (it has no
    upper-case letter and [toLowerCase] leaves it unchanged), every code unit
    of it is in [[a-z0-9_-]] (the underscore is a word character and
    survives), it neither starts nor ends with a hyphen, and it has no two
    consecutive hyphens. *)
Theorem generateSlug_shape (title : jsstring) :
  let s := generateSlug title in
  toLowerCase s = s /\
  Forall (fun c => isUpper c = false) s /\
  Forall (fun c => isSlugChar c = true) s /\
  (forall t, s <> 45 :: t) /\
  (forall t, s <> t ++ [45]) /\
  (forall a b, s <> a ++ [45; 45] ++ b).
Proof.
  intros s. pose proof (generateSlug_alphabet title) as A. fold s in A.
  split; [exact (toLowerCase_slug_id _ A)|].
  split; [eapply Forall_impl; [|exact A]; apply slugChar_not_upper|].
  split; [exact A|].
  split; [|split].
  - intros t E. pose proof (generateSlug_head title) as H. fold s in H.
    rewrite E in H. discriminate.
  - intros t E. pose proof (generateSlug_last title) as H. fold s in H.
    rewrite E, lastIs_snoc in H. discriminate.
  - intros a b E. pose proof (generateSlug_adjacent title) as H. fold s in H.
    rewrite E in H. simpl in H.
    rewrite (hasAdjacent_middle isHyphen a 45 45 b) in H; discriminate || reflexivity.
Qed.

(** C3, as stated, fails: the underscore is kept by [\w], so the slug of
    ["a_b"] has a code unit outside [[a-z0-9-]]. *)
Lemma generateSlug_underscore_survives :
  generateSlug (js "a_b") = js "a_b" /\
  ~ Forall (fun c => isAlnumHyphen c = true) (generateSlug (js "a_b")).
Proof.
  split; [reflexivity|].
  intros H. apply Forall_forall with (x := 95) in H;
    [discriminate | vm_compute; tauto].
Qed.

(** C4: slug generation is idempotent. *)
Theorem generateSlug_idempotent (title : jsstring) :
  generateSlug (generateSlug title) = generateSlug title.
Proof.
  apply generateSlug_fixed.
  - apply generateSlug_alphabet.
  - apply generateSlug_head.
  - apply generateSlug_last.
  - apply generateSlug_adjacent.
Qed.

(** ** Regular expressions: the matcher decides the language *)

Lemma lang_void_inv s : ~ lang Void s.
Proof. intros H. inversion H. Qed.

Lemma lang_eps_inv s : lang Eps s -> s = [].
Proof. intros H. inversion H. reflexivity. Qed.

Lemma lang_class_inv p s : lang (Class p) s -> exists c, s = [c] /\ p c = true.
Proof. intros H. inversion H; subst. eauto. Qed.

Lemma lang_seq_inv a b s :
  lang (Seq a b) s -> exists s1 s2, s = s1 ++ s2 /\ lang a s1 /\ lang b s2.
Proof. intros H. inversion H; subst. eauto. Qed.

Lemma lang_alt_inv a b s : lang (Alt a b) s -> lang a s \/ lang b s.
Proof. intros H. inversion H; subst; auto. Qed.

Lemma nullable_lang r : nullable r = true <-> lang r [].
Proof.
  induction r as [| |p|a IHa b IHb|a IHa b IHb|a IHa]; simpl.
  - split; [discriminate | intros H; inversion H].
  - split; [constructor | reflexivity].
  - split; [discriminate | intros H; inversion H].
  - rewrite andb_true_iff, IHa, IHb. split.
    + intros [Ha Hb]. exact (lang_seq a b [] [] Ha Hb).
    + intros H. apply lang_seq_inv in H as (s1 & s2 & E & Ha & Hb).
      symmetry in E. apply app_eq_nil in E as [-> ->]. auto.
  - rewrite orb_true_iff, IHa, IHb. split.
    + intros [H|H]; [apply lang_alt_l | apply lang_alt_r]; exact H.
    + apply lang_alt_inv.
  - split; [constructor | reflexivity].
Qed.

(** A non-empty word of [a*] starts with a non-empty word of [a]. *)
Lemma lang_star_cons_inv a c s :
  lang (Star a) (c :: s) ->
  exists s1 s2, s = s1 ++ s2 /\ lang a (c :: s1) /\ lang (Star a) s2.
Proof.
  intros H. remember (Star a) as r eqn:Er. remember (c :: s) as w eqn:Ew.
  revert Er Ew.
  induction H as [| | | | | |a' u v Hu _ Hv IHv]; try discriminate.
  intros [= ->] Ew.
  destruct u as [|d u'].
  - simpl in Ew. apply IHv; [reflexivity | exact Ew].
  - simpl in Ew. injection Ew as -> <-. exists u', v. auto.
Qed.

Lemma deriv_lang r : forall c s, lang (deriv c r) s <-> lang r (c :: s).
Proof.
  induction r as [| |p|a IHa b IHb|a IHa b IHb|a IHa]; intros c s; simpl.
  - split; intros H; inversion H.
  - split; intros H; inversion H.
  - destruct (p c) eqn:E; split; intros H.
    + apply lang_eps_inv in H as ->. constructor. exact E.
    + apply lang_class_inv in H as (d & [= -> ->] & _). constructor.
    + inversion H.
    + apply lang_class_inv in H as (d & [= -> ->] & Hd). congruence.
  - assert (L : lang (Seq (deriv c a) b) s -> lang (Seq a b) (c :: s)).
    { intros H. apply lang_seq_inv in H as (s1 & s2 & -> & H1 & H2).
      apply IHa in H1. exact (lang_seq a b (c :: s1) s2 H1 H2). }
    assert (R : lang (Seq a b) (c :: s) ->
                lang (Seq (deriv c a) b) s \/ (lang a [] /\ lang b (c :: s))).
    { intros H. apply lang_seq_inv in H as (s1 & s2 & E & H1 & H2).
      destruct s1 as [|d s1'].
      - simpl in E. subst s2. right. auto.
      - simpl in E. injection E as <- ->. left.
        apply lang_seq; [apply IHa; exact H1 | exact H2]. }
    destruct (nullable a) eqn:Na; split.
    + intros H. apply lang_alt_inv in H as [H|H]; [exact (L H)|].
      apply IHb in H. apply nullable_lang in Na.
      exact (lang_seq a b [] (c :: s) Na H).
    + intros H. destruct (R H) as [H'|[_ H']];
        [apply lang_alt_l; exact H' | apply lang_alt_r, IHb; exact H'].
    + exact L.
    + intros H. destruct (R H) as [H'|[H' _]]; [exact H'|].
      apply nullable_lang in H'. congruence.
  - split; intros H.
    + apply lang_alt_inv in H as [H|H];
        [apply lang_alt_l, IHa | apply lang_alt_r, IHb]; exact H.
    + apply lang_alt_inv in H as [H|H];
        [apply lang_alt_l, IHa | apply lang_alt_r, IHb]; exact H.
  - split; intros H.
    + apply lang_seq_inv in H as (s1 & s2 & -> & H1 & H2).
      apply IHa in H1. exact (lang_star_cons a (c :: s1) s2 H1 H2).
    + apply lang_star_cons_inv in H as (s1 & s2 & -> & H1 & H2).
      apply lang_seq; [apply IHa; exact H1 | exact H2].
Qed.

Theorem test_lang r s : test r s = true <-> lang r s.
Proof.
  unfold test. revert r.
  induction s as [|c t IH]; intros r; simpl.
  - apply nullable_lang.
  - rewrite IH. apply deriv_lang.
Qed.

(** [C+]: the non-empty strings over the class. *)
Lemma lang_star_class p s :
  lang (Star (Class p)) s <-> Forall (fun c => p c = true) s.
Proof.
  split.
  - intros H. remember (Star (Class p)) as r eqn:Er. revert Er.
    induction H as [| | | | | |a u v Hu _ Hv IHv]; try discriminate.
    + constructor.
    + intros [= ->]. apply lang_class_inv in Hu as (c & -> & Hc).
      constructor; auto.
  - induction 1 as [|c t Hc _ IH]; [constructor|].
    apply (lang_star_cons (Class p) [c] t); [constructor; exact Hc | exact IH].
Qed.

Lemma lang_plus_class p s :
  lang (Plus (Class p)) s <-> s <> [] /\ Forall (fun c => p c = true) s.
Proof.
  unfold Plus. split.
  - intros H. apply lang_seq_inv in H as (s1 & s2 & -> & H1 & H2).
    apply lang_class_inv in H1 as (c & -> & Hc).
    apply lang_star_class in H2. split; [discriminate | constructor; auto].
  - intros [Hn H]. destruct s as [|c t]; [congruence|].
    apply Forall_cons_iff in H as [Hc Ht].
    apply (lang_seq (Class p) (Star (Class p)) [c] t);
      [constructor; exact Hc | apply lang_star_class; exact Ht].
Qed.

(** ** booking.model.ts: the email validator *)

Lemma isAt_eq c : isAt c = true -> c = 64.
Proof. apply N.eqb_eq. Qed.

Lemma isDot_eq c : isDot c = true -> c = 46.
Proof. apply N.eqb_eq. Qed.

Lemma emailValidator_spec v : emailValidator v = true <-> wellFormedEmail v.
Proof.
  unfold emailValidator, wellFormedEmail, emailRegex. rewrite test_lang. split.
  - intros H.
    apply lang_seq_inv in H as (l & r1 & -> & Hl & H).
    apply lang_seq_inv in H as (a & r2 & -> & Ha & H).
    apply lang_seq_inv in H as (d1 & r3 & -> & Hd1 & H).
    apply lang_seq_inv in H as (o & d2 & -> & Ho & Hd2).
    apply lang_class_inv in Ha as (ca & -> & Hca). apply isAt_eq in Hca as ->.
    apply lang_class_inv in Ho as (co & -> & Hco). apply isDot_eq in Hco as ->.
    apply lang_plus_class in Hl as [? ?], Hd1 as [? ?], Hd2 as [? ?].
    exists l, d1, d2. repeat split; assumption.
  - intros (l & d1 & d2 & -> & Nl & N1 & N2 & Fl & F1 & F2).
    repeat apply lang_seq;
      try (apply lang_plus_class; split; assumption);
      constructor; reflexivity.
Qed.

Lemma email_passes_iff v :
  passes (Booking.bookingSchema Booking.email) (VString v) <->
  emailValidator v = true.
Proof.
  unfold passes, validatePath. simpl.
  destruct v as [|c t]; simpl.
  - split; [discriminate|]. intros H. apply emailValidator_spec in H.
    destruct H as (l & d1 & d2 & E & _). destruct l; discriminate.
  - destruct (emailValidator (c :: t)); split; congruence.
Qed.

(** C7, as amended: the stored email is the trimmed, lower-cased input, and
    it passes validation exactly when it is a local part, [@] and a domain
    that has a dot with something on both sides of it, no part containing
    white space or [@]. *)
Theorem email_validation (raw : jsstring) :
  let st := Booking.bookingSchema Booking.email in
  exists v,
    applySetters st (VString raw) = VString v /\
    v = toLowerCase (trim raw) /\
    (passes st (VString v) <-> wellFormedEmail v).
Proof.
  intros st. exists (toLowerCase (trim raw)).
  split; [reflexivity|]. split; [reflexivity|].
  unfold st. rewrite email_passes_iff. apply emailValidator_spec.
Qed.

(** What the validator accepts does match the pattern of the
    specification; the converse fails. *)
Lemma wellFormedEmail_specEmailPattern v :
  wellFormedEmail v -> specEmailPattern v.
Proof.
  intros (l & d1 & d2 & -> & Nl & N1 & N2 & Fl & F1 & F2).
  exists l, (d1 ++ [46] ++ d2). repeat split; try assumption.
  - destruct d1; [congruence | discriminate].
  - assert (W : forall s, Forall (fun c => notSpaceAt c = true) s ->
                          Forall (fun c => isSpace c = false) s).
    { intros s. apply Forall_impl. intros c H. unfold notSpaceAt in H.
      apply negb_true_iff, orb_false_iff in H. tauto. }
    repeat (apply Forall_app; split); auto; repeat constructor.
Qed.

(** C7, as stated, fails: ["a@b"] is a local part, [@] and a domain part
    without white space, it is its own normal form, and the validator
    rejects it, the domain having no dot. *)
Lemma email_without_dot_rejected :
  let st := Booking.bookingSchema Booking.email in
  specEmailPattern (js "a@b") /\
  applySetters st (VString (js "a@b")) = VString (js "a@b") /\
  ~ passes st (VString (js "a@b")).
Proof.
  split; [|split].
  - exists (js "a"), (js "b"). repeat split; try discriminate.
    repeat constructor.
  - reflexivity.
  - unfold passes. vm_compute. discriminate.
Qed.

(** ** lib/mongodb.ts: the cached connection *)

Module ConnectionFacts.
Import Connection.

Lemma nth_error_last (ps : list promiseState) v :
  nth_error (ps ++ [v]) (List.length ps) = Some v.
Proof. induction ps as [|s t IH]; simpl; [reflexivity | exact IH]. Qed.

Lemma settleAt_last ps v :
  settleAt (List.length ps) v (ps ++ [Pending]) = ps ++ [v].
Proof.
  induction ps as [|s t IH]; simpl; [reflexivity|].
  rewrite IH. destruct s; reflexivity.
Qed.

Lemma validateMongoUri_withCache c st :
  validateMongoUri (withCache c st) = validateMongoUri st.
Proof. reflexivity. Qed.

(** A call that suspends on its own attempt found the cache empty and left
    the state [started]. *)
Lemma connectDB_awaiting st p st1 :
  connectDB st = (Awaiting p, st1) ->
  p = List.length (promises st) /\ st1 = started st.
Proof.
  unfold connectDB, getMongooseCache.
  destruct (mongoose st) as [[[h|] [q|]]|] eqn:M; simpl; try discriminate.
  - destruct (validateMongoUri st); [|discriminate].
    intros [= <- <-]. unfold started. rewrite M. split; reflexivity.
  - rewrite validateMongoUri_withCache.
    destruct (validateMongoUri st); [|discriminate].
    intros [= <- <-]. split; reflexivity.
Qed.

Lemma connectDB_idle st :
  idle st -> configured st ->
  connectDB st = (Awaiting (List.length (promises st)), started st).
Proof.
  unfold idle, configured, connectDB, getMongooseCache.
  intros I (c & uri & U).
  destruct (mongoose st) as [[cn pr]|] eqn:M; simpl in *.
  - destruct I as [-> ->]. unfold validateMongoUri, started. rewrite U, M.
    reflexivity.
  - unfold validateMongoUri, started. simpl. rewrite U. reflexivity.
Qed.

Lemma connectDB_started st :
  connectDB (started st) = (Joined (List.length (promises st)), started st).
Proof. reflexivity. Qed.

Lemma settle_started h st :
  settle (List.length (promises st)) (Ok h) (started st) = connected h st.
Proof.
  unfold settle, started, connected. simpl.
  rewrite nth_error_last, settleAt_last. reflexivity.
Qed.

Lemma complete_connected t h st :
  t = Awaiting (List.length (promises st)) \/
  t = Joined (List.length (promises st)) ->
  complete t (connected h st) = Some (Ok h, connected h st).
Proof.
  intros [-> | ->]; unfold complete, resume, connected; simpl;
    rewrite nth_error_last; reflexivity.
Qed.

Lemma complete_started t st :
  t = Awaiting (List.length (promises st)) \/
  t = Joined (List.length (promises st)) ->
  complete t (started st) = None.
Proof.
  intros [-> | ->]; unfold complete, resume, started; simpl;
    rewrite nth_error_last; reflexivity.
Qed.

(** C8, as amended: when a call of [connectDB] starts a connection attempt
    and the attempt succeeds with [h], the call returns [h], the cache holds
    [h] as its connection, and the pending marker is not cleared: it still
    holds the promise of that attempt, now fulfilled with [h]. *)
Theorem connect_success_caches_handle st p st1 (h : handle) :
  connectDB st = (Awaiting p, st1) ->
  let st2 := settle p (Ok h) st1 in
  complete (Awaiting p) st2 = Some (Ok h, st2) /\
  mongoose st2 = Some {| conn := Some h; promise := Some p |} /\
  nth_error (promises st2) p = Some (Fulfilled h).
Proof.
  intros C. apply connectDB_awaiting in C as [-> ->]. simpl.
  rewrite settle_started. split; [|split].
  - exact (complete_connected (Awaiting _) h st (or_introl eq_refl)).
  - reflexivity.
  - apply nth_error_last.
Qed.

Lemma connect_success_caches_handle_witness :
  connectDB devState = (Awaiting 0%nat, started devState) /\
  mongoose (settle 0%nat (Ok 7) (started devState))
  = Some {| conn := Some 7; promise := Some 0%nat |}.
Proof.
  split; [reflexivity|].
  exact (proj1 (proj2
    (connect_success_caches_handle devState 0%nat (started devState) 7
       eq_refl))).
Defined.

(** C8, as stated, fails: after a successful first connection the pending
    marker is not empty. *)
Lemma connect_success_keeps_promise :
  let (t, st1) := connectDB devState in
  let st2 := settle 0%nat (Ok 7) st1 in
  t = Awaiting 0%nat /\
  complete t st2 = Some (Ok 7, st2) /\
  option_map conn (mongoose st2) = Some (Some 7) /\
  option_map promise (mongoose st2) = Some (Some 0%nat) /\
  option_map promise (mongoose st2) <> Some None.
Proof. vm_compute. repeat split; discriminate. Qed.

(** A call of [connectDB] either starts an attempt, the cache being empty
    and the URI set, or it leaves the state as [getMongooseCache] left it;
    a second call then does the same as the first. *)
Lemma connectDB_cases st :
  (idle st /\ configured st /\
   connectDB st = (Awaiting (List.length (promises st)), started st)) \/
  (~ (idle st /\ configured st) /\
   exists t,
     connectDB st = (t, snd (getMongooseCache st)) /\
     connectDB (snd (getMongooseCache st)) = (t, snd (getMongooseCache st)) /\
     attempts (snd (getMongooseCache st)) = attempts st /\
     forall p, t <> Awaiting p).
Proof.
  destruct (mongoose st) as [[[h|] [q|]]|] eqn:M;
    [right | right | right | |];
    try (split;
         [unfold idle; rewrite M; intros [[? ?] _]; discriminate|];
         unfold connectDB, getMongooseCache; rewrite M; simpl; rewrite ?M;
         eexists; repeat split; discriminate).
  - assert (I : idle st) by (unfold idle; rewrite M; split; reflexivity).
    destruct (MONGODB_URI st) as [[|c uri]|] eqn:U;
      [right | left | right];
      try (split;
           [unfold configured; rewrite U; intros [_ (? & ? & ?)];
            discriminate|];
           unfold connectDB, getMongooseCache, validateMongoUri;
           rewrite M; simpl; rewrite ?M, U; simpl;
           eexists; repeat split; discriminate).
    assert (C : configured st) by (unfold configured; eauto).
    split; [exact I|]. split; [exact C|]. apply connectDB_idle; assumption.
  - assert (I : idle st) by (unfold idle; rewrite M; exact Logic.I).
    destruct (MONGODB_URI st) as [[|c uri]|] eqn:U;
      [right | left | right];
      try (split;
           [unfold configured; rewrite U; intros [_ (? & ? & ?)];
            discriminate|];
           unfold connectDB, getMongooseCache, validateMongoUri;
           rewrite M; simpl; rewrite U; simpl;
           eexists; repeat split; discriminate).
    assert (C : configured st) by (unfold configured; eauto).
    split; [exact I|]. split; [exact C|]. apply connectDB_idle; assumption.
Qed.

(** The state after the attempt of [started st] has failed with [r]. *)
Lemma settle_started_failed r st :
  settle (List.length (promises st)) (Err r) (started st) = failed r st.
Proof.
  unfold settle, started, failed. simpl.
  rewrite nth_error_last, settleAt_last. reflexivity.
Qed.

(** After the failure, the call that started the attempt resumes with the
    wrapped error and clears the pending marker; a call that joined the
    attempt receives the failure itself, before and after that. *)
Lemma complete_failed r st :
  complete (Awaiting (List.length (promises st))) (failed r st)
  = Some (Err (JsError (js "Failed to connect to MongoDB: " ++ messageOf r)),
          cleared r st) /\
  complete (Joined (List.length (promises st))) (failed r st)
  = Some (Err (Thrown r), failed r st) /\
  complete (Joined (List.length (promises st))) (cleared r st)
  = Some (Err (Thrown r), cleared r st).
Proof.
  unfold complete, resume, failed, cleared. simpl.
  rewrite nth_error_last. repeat split; reflexivity.
Qed.

(** C9, as amended: of two calls of [connectDB], the second made right after
    the first, at most one starts a connection attempt: exactly one attempt
    is made when no connection is cached, none is in progress and the URI
    is set, and none otherwise; whenever both calls receive a handle, it is
    the same handle.  When the attempt is made, the second call waits on the
    promise of the first; if the attempt succeeds with [h] both receive
    [h]; if it fails with [r] neither receives a handle: the first call
    throws the wrapped error and the second gets [r] itself, before and
    after the first has resumed.  A second call made later, when the
    attempt has settled and the first call has not resumed yet, makes no
    attempt either: it returns the cached [h], or joins the rejected promise
    and gets [r]. *)
Theorem concurrent_connects_share_attempt st :
  let (t1, st1) := connectDB st in
  let (t2, st2) := connectDB st1 in
  (idle st /\ configured st -> attempts st2 = S (attempts st)) /\
  (~ (idle st /\ configured st) -> attempts st2 = attempts st) /\
  (forall st' h1 h2 s1 s2,
     complete t1 st' = Some (Ok h1, s1) ->
     complete t2 st' = Some (Ok h2, s2) -> h1 = h2) /\
  (idle st -> configured st ->
   let p := List.length (promises st) in
   t1 = Awaiting p /\ t2 = Joined p /\
   complete t1 st2 = None /\ complete t2 st2 = None /\
   (forall h : handle,
      let st3 := settle p (Ok h) st2 in
      attempts st3 = S (attempts st) /\
      complete t1 st3 = Some (Ok h, st3) /\
      complete t2 st3 = Some (Ok h, st3)) /\
   (forall r : thrown,
      let st3 := settle p (Err r) st2 in
      attempts st3 = S (attempts st) /\
      complete t2 st3 = Some (Err (Thrown r), st3) /\
      exists st4,
        complete t1 st3
        = Some (Err (JsError (js "Failed to connect to MongoDB: "
                                ++ messageOf r)), st4) /\
        attempts st4 = S (attempts st) /\
        complete t2 st4 = Some (Err (Thrown r), st4)) /\
   (forall h : handle,
      let st3 := settle p (Ok h) st1 in
      connectDB st3 = (Returned h, st3) /\
      complete t1 st3 = Some (Ok h, st3)) /\
   (forall r : thrown,
      let st3 := settle p (Err r) st1 in
      connectDB st3 = (Joined p, st3) /\
      complete (Joined p) st3 = Some (Err (Thrown r), st3))).
Proof.
  destruct (connectDB_cases st) as [(I & U & E) | (N & t & E & E' & A & T)].
  - rewrite E, connectDB_started.
    split; [reflexivity|]. split; [intros N; destruct (N (conj I U))|].
    split.
    + intros st' h1 h2 s1 s2. unfold complete, resume.
      destruct (nth_error (promises st') (List.length (promises st)))
        as [[|h|r]|]; congruence.
    + intros _ _. cbv zeta.
      split; [reflexivity|]. split; [reflexivity|].
      split; [apply complete_started; auto|].
      split; [apply complete_started; auto|].
      split; [|split; [|split]].
      * intros h. rewrite settle_started.
        split; [reflexivity|]. split; apply complete_connected; auto.
      * intros r. rewrite settle_started_failed.
        destruct (complete_failed r st) as (C1 & C2 & C3).
        split; [reflexivity|]. split; [exact C2|].
        exists (cleared r st). split; [exact C1|].
        split; [reflexivity | exact C3].
      * intros h. rewrite settle_started.
        split; [reflexivity | apply complete_connected; auto].
      * intros r. rewrite settle_started_failed.
        split; [reflexivity | exact (proj1 (proj2 (complete_failed r st)))].
  - rewrite E, E'.
    split; [intros IU; destruct (N IU)|]. split; [intros _; exact A|].
    split; [intros st' h1 h2 s1 s2; congruence|].
    intros I U. destruct (N (conj I U)).
Qed.

Lemma concurrent_connects_share_attempt_witness :
  let (t1, st1) := connectDB devState in
  let (t2, st2) := connectDB st1 in
  attempts st2 = 1%nat /\
  forall h : handle,
    let st3 := settle 0%nat (Ok h) st2 in
    attempts st3 = 1%nat /\
    complete t1 st3 = Some (Ok h, st3) /\
    complete t2 st3 = Some (Ok h, st3).
Proof.
  assert (I : idle devState) by exact I.
  assert (U : configured devState)
    by (exists 109, (tl (js "mongodb://localhost:27017/dev-events"));
        reflexivity).
  pose proof (concurrent_connects_share_attempt devState) as H.
  destruct (connectDB devState) as [t1 st1].
  destruct (connectDB st1) as [t2 st2].
  destruct H as (A & _ & _ & S).
  split; [exact (A (conj I U))|].
  destruct (S I U) as (_ & _ & _ & _ & K & _). exact K.
Defined.

(** C9, as stated, fails: two calls share an attempt that fails.  One
    attempt was made, and neither call receives a handle: the first throws
    the wrapped error, the second gets the failure of the attempt. *)
Lemma concurrent_connects_failure :
  let (t1, st1) := connectDB devState in
  let (t2, st2) := connectDB st1 in
  let st3 := settle 0%nat (Err (ErrorObject (js "boom"))) st2 in
  attempts st3 = 1%nat /\
  option_map fst (complete t1 st3)
  = Some (Err (JsError (js "Failed to connect to MongoDB: boom"))) /\
  option_map fst (complete t2 st3)
  = Some (Err (Thrown (ErrorObject (js "boom")))) /\
  (forall h, option_map fst (complete t1 st3) <> Some (Ok h)) /\
  (forall h, option_map fst (complete t2 st3) <> Some (Ok h)).
Proof.
  vm_compute. split; [reflexivity|]. split; [reflexivity|].
  split; [reflexivity|]. split; intros h; discriminate.
Qed.

Lemma nth_error_settleAt ps : forall p v,
  nth_error ps p = Some Pending -> nth_error (settleAt p v ps) p = Some v.
Proof.
  induction ps as [|s t IH]; intros [|k] v H; simpl in *; try discriminate.
  - injection H as ->. reflexivity.
  - rewrite <- (IH k v H). destruct s; reflexivity.
Qed.

(** Calls that arrive while an attempt is in progress join it: they make no
    attempt of their own, and receive the handle the attempt resolves
    with. *)
Lemma connect_joins_pending st p :
  mongoose st = Some {| conn := None; promise := Some p |} ->
  nth_error (promises st) p = Some Pending ->
  connectDB st = (Joined p, st) /\
  complete (Joined p) st = None /\
  forall h : handle,
    attempts (settle p (Ok h) st) = attempts st /\
    complete (Joined p) (settle p (Ok h) st)
    = Some (Ok h, settle p (Ok h) st).
Proof.
  intros M P. split; [|split].
  - unfold connectDB, getMongooseCache. rewrite M. reflexivity.
  - unfold complete. rewrite P. reflexivity.
  - intros h. unfold settle. rewrite P. split; [reflexivity|].
    unfold complete. simpl. rewrite (nth_error_settleAt _ _ _ P). reflexivity.
Qed.

(** The other path of [connectDB]: when the attempt fails the pending marker
    is cleared, the error is wrapped, and the next call starts a new
    attempt. *)
Example connect_failure_clears_promise :
  let st1 := snd (connectDB devState) in
  let st2 := settle 0%nat (Err (ErrorObject (js "boom"))) st1 in
  match complete (Awaiting 0%nat) st2 with
  | Some (r, st3) =>
      r = Err (JsError (js "Failed to connect to MongoDB: boom")) /\
      mongoose st3 = Some {| conn := None; promise := None |} /\
      fst (connectDB st3) = Awaiting 1%nat /\
      attempts (snd (connectDB st3)) = 2%nat
  | None => False
  end.
Proof. vm_compute. repeat split. Qed.

End ConnectionFacts.

(** ** toLowerCase and trim commute *)

Lemma lowerUnit_space c : isSpace c = true -> lowerUnit c = [c].
Proof.
  intros H. unfold lowerUnit.
  assert (isUpper c = false) as -> by classes.
  assert (inRange 192 222 c = false) as -> by classes.
  assert ((c =? 304) = false) as -> by classes.
  assert ((c =? 8490) = false) as -> by classes.
  assert ((c =? 8491) = false) as -> by classes.
  reflexivity.
Qed.

Lemma lowerUnit_not_space c :
  isSpace c = false ->
  lowerUnit c <> [] /\ Forall (fun d => isSpace d = false) (lowerUnit c).
Proof.
  intros H. unfold lowerUnit.
  destruct (isUpper c) eqn:U.
  { split; [discriminate|]. repeat constructor. classes. }
  destruct (inRange 192 222 c && negb (c =? 215)) eqn:L.
  { split; [discriminate|]. repeat constructor. classes. }
  destruct (c =? 304) eqn:E1; [split; [discriminate | repeat constructor]|].
  destruct (c =? 8490) eqn:E2; [split; [discriminate | repeat constructor]|].
  destruct (c =? 8491) eqn:E3; [split; [discriminate | repeat constructor]|].
  split; [discriminate | repeat constructor; exact H].
Qed.

Lemma dropEndWhile_app p a b :
  dropEndWhile p (a ++ b) =
  match dropEndWhile p b with
  | [] => dropEndWhile p a
  | r => a ++ r
  end.
Proof.
  induction a as [|c t IH]; simpl.
  - destruct (dropEndWhile p b); reflexivity.
  - rewrite IH. destruct (dropEndWhile p b) as [|d r]; [reflexivity|].
    destruct (t ++ d :: r) eqn:E; [|reflexivity].
    destruct t; discriminate.
Qed.

Lemma toLowerCase_dropWhile s :
  dropWhile isSpace (toLowerCase s) = toLowerCase (dropWhile isSpace s).
Proof.
  induction s as [|c t IH]; simpl; [reflexivity|].
  destruct (isSpace c) eqn:E.
  - rewrite (lowerUnit_space _ E). simpl. rewrite E. exact IH.
  - destruct (lowerUnit_not_space _ E) as [Hn Hf].
    destruct (lowerUnit c) as [|d r] eqn:L; [congruence|].
    apply Forall_cons_iff in Hf as [Hd _]. simpl. rewrite Hd, L. reflexivity.
Qed.

Lemma toLowerCase_dropEndWhile s :
  dropEndWhile isSpace (toLowerCase s) = toLowerCase (dropEndWhile isSpace s).
Proof.
  induction s as [|c t IH]; simpl; [reflexivity|].
  rewrite dropEndWhile_app, IH.
  destruct (dropEndWhile isSpace t) as [|d r] eqn:D.
  - simpl. destruct (isSpace c) eqn:E.
    + rewrite (lowerUnit_space _ E). simpl. rewrite E. reflexivity.
    + destruct (lowerUnit_not_space _ E) as [_ Hf].
      simpl. rewrite app_nil_r. apply dropEndWhile_id, lastIs_none, Hf.
  - assert (N : toLowerCase (d :: r) <> []).
    { simpl. destruct (lowerUnit d) eqn:L; [|discriminate].
      destruct (isSpace d) eqn:E.
      - rewrite (lowerUnit_space _ E) in L. discriminate.
      - destruct (lowerUnit_not_space _ E) as [Hn _]. congruence. }
    destruct (toLowerCase (d :: r)) eqn:T; [congruence|]. simpl.
    simpl in T. rewrite T. reflexivity.
Qed.

Lemma toLowerCase_trim s : toLowerCase (trim s) = trim (toLowerCase s).
Proof.
  unfold trim. now rewrite toLowerCase_dropWhile, toLowerCase_dropEndWhile.
Qed.

Lemma trim_trim s : trim (trim s) = trim s.
Proof.
  unfold trim.
  rewrite (dropWhile_id isSpace (dropEndWhile isSpace (dropWhile isSpace s)))
    by apply headIs_dropEndWhile, headIs_dropWhile.
  apply dropEndWhile_id, lastIs_dropEndWhile.
Qed.

(** The [trim] setter of the [title] path does not change the slug. *)
Lemma generateSlug_trim t : generateSlug (trim t) = generateSlug t.
Proof.
  unfold generateSlug. now rewrite toLowerCase_trim, trim_trim.
Qed.

(** The setters of the [slug] path leave a generated slug as it is. *)
Lemma slug_setters_fixed t :
  toLowerCase (trim (generateSlug t)) = generateSlug t.
Proof.
  pose proof (generateSlug_alphabet t) as A.
  assert (S : Forall (fun c => isSpace c = false) (generateSlug t)).
  { eapply Forall_impl; [|exact A]. apply slugChar_not_space. }
  unfold trim. rewrite (dropWhile_id _ _ (headIs_none _ _ S)).
  rewrite (dropEndWhile_id _ _ (lastIs_none _ _ S)).
  apply toLowerCase_slug_id, A.
Qed.

(** ** Mongoose: save *)

Section SaveFacts.
Variable path : Type.
Variable paths : list path.
Variable pathName : path -> jsstring.
Variable schema : path -> schemaType.
Variable preSave : document path -> result (document path).

(** A document that fails validation is not written, whatever the hook
    would have done. *)
Lemma save_invalid c d :
  validateDoc paths pathName schema d <> [] ->
  save paths pathName schema preSave c d
  = (Err (ValidationError (validateDoc paths pathName schema d)), c).
Proof.
  unfold save. intros H.
  destruct (validateDoc paths pathName schema d); [congruence | reflexivity].
Qed.

(** A save that fails leaves the collection as it was. *)
Lemma save_error_no_write c d e c' :
  save paths pathName schema preSave c d = (Err e, c') -> c' = c.
Proof.
  unfold save. destruct (validateDoc paths pathName schema d).
  - destruct (preSave d) as [d'|e']; [|congruence].
    destruct (if isNew d' then _ else _); congruence.
  - congruence.
Qed.

Lemma validateDoc_nil d p :
  validateDoc paths pathName schema d = [] -> In p paths ->
  passes (schema p) (get d p).
Proof.
  unfold validateDoc, passes. intros H Hin.
  induction paths as [|q qs IH]; [contradiction|].
  simpl in H. apply app_eq_nil in H as [H1 H2].
  destruct Hin as [<- | Hin]; [|exact (IH H2 Hin)].
  destruct (validatePath (schema q) (get d q)); [discriminate | reflexivity].
Qed.
End SaveFacts.

Lemma string_eqb_refl s : string_eqb s s = true.
Proof.
  induction s as [|c t IH]; simpl; [reflexivity|]. now rewrite N.eqb_refl, IH.
Qed.

(** ** event.model.ts: validation and the pre-save hook *)

Lemma Event_paths_all p : In p Event.paths.
Proof. destruct p; simpl; tauto. Qed.

Lemma passes_textPath r t m v :
  passes (Event.textPath r t m) v -> exists s, v = VString s.
Proof.
  unfold passes, validatePath. simpl.
  destruct v as [|s|l|i]; simpl; try discriminate. eauto.
Qed.

Lemma passes_date rt v :
  passes (Event.eventSchema rt Event.date) v ->
  exists s, v = VString s /\ dateValidator rt s = true.
Proof.
  unfold passes, validatePath, checkRequired. simpl.
  destruct v as [|s|l|i]; simpl; try discriminate.
  destruct s as [|c t]; [discriminate|].
  destruct (dateValidator rt (c :: t)) eqn:E; [eauto | discriminate].
Qed.

(** A date the validator accepts is normalised without error. *)
Lemma dateValidator_normalizeDate rt s :
  dateValidator rt s = true -> exists s', normalizeDate rt s = Ok s'.
Proof.
  unfold dateValidator, normalizeDate.
  destruct (test isoDateRegex s); simpl; [|discriminate].
  destruct (ESDate.parse rt s); [eauto | discriminate].
Qed.

(** After validation the hook cannot fail: the branches of lines 220-224
    are not reached. *)
Lemma preSave_valid rt d :
  Event.validate rt d = [] -> exists d', Event.preSave rt d = Ok d'.
Proof.
  intros V.
  pose proof (fun p => validateDoc_nil _ _ _ _ d p V (Event_paths_all p)) as P.
  destruct (passes_textPath _ _ _ _ (P Event.title)) as [t Ht].
  destruct (passes_textPath _ _ _ _ (P Event.time)) as [tm Htm].
  destruct (passes_date _ _ (P Event.date)) as (s & Hs & Hv).
  destruct (dateValidator_normalizeDate _ _ Hv) as [s' Hn].
  unfold Event.preSave, Event.assign, set, isModified. simpl.
  rewrite Ht.
  destruct (modified d Event.title || isNew d); simpl;
    rewrite Hs, Hn; destruct (modified d Event.date); simpl;
    rewrite Htm; destruct (modified d Event.time); simpl; eauto.
Qed.

(** What the hook leaves of a new document. *)
Lemma preSave_new rt d d' t :
  Event.preSave rt d = Ok d' -> isNew d = true ->
  get d Event.title = VString t ->
  _id d' = _id d /\ isNew d' = true /\
  get d' Event.slug = VString (toLowerCase (trim (generateSlug t))).
Proof.
  intros H N T. revert H.
  unfold Event.preSave, Event.assign, set, isModified. simpl.
  rewrite N, orb_true_r, T. simpl.
  destruct (modified d Event.date); simpl.
  - destruct (get d Event.date) as [|s|l|i]; try discriminate.
    destruct (normalizeDate rt s) as [s'|e]; [|discriminate]. simpl.
    destruct (modified d Event.time); simpl.
    + destruct (get d Event.time) as [|s2|l2|i2]; try discriminate.
      intros [= <-]. simpl. auto.
    + intros [= <-]. simpl. auto.
  - destruct (modified d Event.time); simpl.
    + destruct (get d Event.time) as [|s2|l2|i2]; try discriminate.
      intros [= <-]. simpl. auto.
    + intros [= <-]. simpl. auto.
Qed.

Lemma string_eqb_eq a : forall b, string_eqb a b = true -> a = b.
Proof.
  induction a as [|c t IH]; intros [|d u]; simpl; try discriminate; auto.
  intros H. apply andb_true_iff in H as [H1 H2].
  apply N.eqb_eq in H1 as ->. now rewrite (IH u H2).
Qed.

Lemma value_string_eqb v s : value_eqb v (VString s) = true -> v = VString s.
Proof.
  destruct v as [|t|l|i]; simpl; try discriminate.
  intros H. now rewrite (string_eqb_eq _ _ H).
Qed.

(** ** The unique index on [slug] *)

Lemma existsb_false {A : Type} (f : A -> bool) l :
  (forall x, In x l -> f x = false) -> existsb f l = false.
Proof.
  intros H. induction l as [|x t IH]; simpl; [reflexivity|].
  rewrite (H x (or_introl eq_refl)), IH; [reflexivity|].
  intros y Hy. apply H. right. exact Hy.
Qed.

(** Only [slug] is a unique path: the index is violated exactly when another
    document has the same slug. *)
Lemma uniqueViolation_slug rt c id f :
  uniqueViolation Event.paths (Event.eventSchema rt) c id f =
  if existsb
       (fun r => negb (fst r =? id)
                 && value_eqb (snd r Event.slug) (f Event.slug)) c
  then Some Event.slug else None.
Proof.
  unfold uniqueViolation. simpl.
  destruct (existsb _ c); reflexivity.
Qed.

Lemma insertOne_duplicate_slug rt c id0 f0 id f s :
  In (id0, f0) c -> id0 <> id ->
  f0 Event.slug = VString s -> f Event.slug = VString s ->
  (forall r, In r c -> fst r <> id) ->
  insertOne Event.paths Event.pathName (Event.eventSchema rt) c id f
  = Err (DuplicateKeyError (js "slug")).
Proof.
  intros Hin Hne H0 H1 Hfresh. unfold insertOne.
  rewrite existsb_false
    by (intros r Hr; apply N.eqb_neq, Hfresh, Hr).
  rewrite uniqueViolation_slug.
  assert (E : existsb
    (fun r => negb (fst r =? id)
              && value_eqb (snd r Event.slug) (f Event.slug)) c = true).
  { apply existsb_exists. exists (id0, f0). split; [exact Hin|]. simpl.
    apply N.eqb_neq in Hne. rewrite Hne, H0, H1. simpl.
    apply string_eqb_refl. }
  rewrite E. reflexivity.
Qed.

Lemma insertOne_fresh_slug rt c id f s :
  f Event.slug = VString s ->
  (forall r, In r c -> fst r <> id) ->
  (forall r, In r c -> snd r Event.slug <> VString s) ->
  insertOne Event.paths Event.pathName (Event.eventSchema rt) c id f
  = Ok (c ++ [(id, f)]).
Proof.
  intros Hs Hfresh Hslug. unfold insertOne.
  rewrite existsb_false
    by (intros r Hr; apply N.eqb_neq, Hfresh, Hr).
  rewrite uniqueViolation_slug, existsb_false; [reflexivity|].
  intros r Hr. apply andb_false_iff. right. rewrite Hs.
  destruct (value_eqb (snd r Event.slug) (VString s)) eqn:E; [|reflexivity].
  apply value_string_eqb in E. exfalso. exact (Hslug r Hr E).
Qed.

(** The title of a new document is the trimmed title given. *)
Lemma newEvent_title rt id obj t :
  obj Event.title = VString t ->
  get (Event.newEvent rt id obj) Event.title = VString (trim t).
Proof. intros H. simpl. rewrite H. reflexivity. Qed.

(** What a successful create leaves in the store. *)
Lemma createEvent_ok rt db obj d db1 t :
  createEvent rt db obj = (Ok d, db1) -> obj Event.title = VString t ->
  db1 = {| nextId := nextId db + 1;
           events := events db ++ [(nextId db, get d)];
           bookings := bookings db |} /\
  get d Event.slug = VString (generateSlug t).
Proof.
  intros H T. revert H.
  unfold createEvent, Event.saveEvent, save.
  destruct (validateDoc _ _ _ _); [|discriminate].
  destruct (Event.preSave rt _) as [d'|e] eqn:P; [|discriminate].
  destruct (preSave_new _ _ _ _ P eq_refl (newEvent_title rt _ _ _ T))
    as (I & N & S).
  rewrite N. unfold insertOne.
  destruct (existsb _ (events db)); [discriminate|].
  destruct (uniqueViolation _ _ _ _ _); [discriminate|].
  intros [= <- <-]. simpl. rewrite I. simpl.
  rewrite S, generateSlug_trim, slug_setters_fixed. auto.
Qed.

(** Saving a new document whose slug is already that of a stored event. *)
Lemma saveEvent_duplicate rt c d t id0 f0 :
  isNew d = true -> get d Event.title = VString t ->
  In (id0, f0) c -> f0 Event.slug = VString (generateSlug t) ->
  (forall r, In r c -> fst r <> _id d) ->
  snd (Event.saveEvent rt c d) = c /\
  (exists e, fst (Event.saveEvent rt c d) = Err e) /\
  (Event.validate rt d = [] ->
   fst (Event.saveEvent rt c d) = Err (DuplicateKeyError (js "slug"))) /\
  (Event.validate rt d <> [] ->
   fst (Event.saveEvent rt c d) = Err (ValidationError (Event.validate rt d))).
Proof.
  intros N T Hin H0 Hfresh.
  assert (K : forall d', Event.preSave rt d = Ok d' ->
            (if isNew d'
             then insertOne Event.paths Event.pathName (Event.eventSchema rt)
                    c (_id d') (get d')
             else updateOne Event.paths Event.pathName (Event.eventSchema rt)
                    c d')
            = Err (DuplicateKeyError (js "slug"))).
  { intros d' P. destruct (preSave_new _ _ _ _ P N T) as (I & N' & S).
    rewrite N', I. rewrite slug_setters_fixed in S.
    apply (insertOne_duplicate_slug rt c id0 f0 (_id d) (get d')
             (generateSlug t)); auto.
    apply Hfresh in Hin. exact Hin. }
  unfold Event.saveEvent, save. fold (Event.validate rt d).
  destruct (Event.validate rt d) as [|v vs] eqn:V.
  - destruct (preSave_valid rt d V) as [d' P]. rewrite P, (K d' P).
    simpl. split; [reflexivity|]. split; [eauto|].
    split; [reflexivity | congruence].
  - simpl. split; [reflexivity|]. split; [eauto|].
    split; [discriminate | reflexivity].
Qed.

(** C5, as amended: when two creates have titles with the same slug and the
    first succeeds, the second fails and writes nothing; it fails with the
    duplicate-key error of the unique index on [slug] when its document
    passes validation, and otherwise with the validation error, which lists
    the paths that failed. *)
Theorem duplicate_slug_rejected rt db o1 o2 t1 t2 d1 db1 :
  freshIds db ->
  o1 Event.title = VString t1 -> o2 Event.title = VString t2 ->
  generateSlug t1 = generateSlug t2 ->
  createEvent rt db o1 = (Ok d1, db1) ->
  events (snd (createEvent rt db1 o2)) = events db1 /\
  bookings (snd (createEvent rt db1 o2)) = bookings db1 /\
  (exists e, fst (createEvent rt db1 o2) = Err e) /\
  (Event.validate rt (Event.newEvent rt (nextId db1) o2) = [] ->
   fst (createEvent rt db1 o2) = Err (DuplicateKeyError (js "slug"))) /\
  (Event.validate rt (Event.newEvent rt (nextId db1) o2) <> [] ->
   fst (createEvent rt db1 o2)
   = Err (ValidationError
            (Event.validate rt (Event.newEvent rt (nextId db1) o2)))).
Proof.
  intros F T1 T2 E C.
  destruct (createEvent_ok _ _ _ _ _ _ C T1) as (-> & S). simpl.
  assert (G : generateSlug t1 = generateSlug (trim t2))
    by (rewrite generateSlug_trim; exact E).
  rewrite G in S.
  pose proof (saveEvent_duplicate rt (events db ++ [(nextId db, get d1)])
    (Event.newEvent rt (nextId db + 1) o2) (trim t2) (nextId db) (get d1)
    eq_refl (newEvent_title rt _ _ _ T2)) as D.
  destruct D as (D1 & D2 & D3 & D4).
  - apply in_or_app. right. left. reflexivity.
  - exact S.
  - intros r Hr. simpl. apply in_app_or in Hr as [Hr|[<-|[]]].
    + destruct F as [F _]. rewrite Forall_forall in F.
      specialize (F r Hr). lia.
    + simpl. lia.
  - unfold createEvent. simpl.
    destruct (Event.saveEvent rt _ _) as [r c]. simpl in *.
    split; [exact D1|]. split; [reflexivity|]. split; [exact D2|].
    split; assumption.
Qed.

Lemma duplicate_slug_rejected_witness :
  fst (createEvent utcRuntime dbWithNextjsConf nextjsConfAgain)
  = Err (DuplicateKeyError (js "slug")).
Proof.
  refine (proj1 (proj2 (proj2 (proj2
    (duplicate_slug_rejected utcRuntime emptyDb nextjsConf nextjsConfAgain
       (js "Next.js Conf 2025") (js "  NEXT.js  conf 2025! ")
       (okOr (Event.newEvent utcRuntime 0 nextjsConf)
          (fst (createEvent utcRuntime emptyDb nextjsConf)))
       dbWithNextjsConf _ _ _ _ _)))) _).
  - split; constructor.
  - reflexivity.
  - reflexivity.
  - reflexivity.
  - reflexivity.
  - reflexivity.
Defined.

(** C5, as stated, fails: the second create has a title with the same slug
    and a mode outside the enumeration; it fails with the validation error
    and the unique index is never asked. *)
Lemma duplicate_slug_invalid_second :
  let second :=
    sampleEvent (js "next.js conf 2025") (js "2025-10-21") (js "in-person") in
  isOk (fst (createEvent utcRuntime emptyDb nextjsConf)) = true /\
  generateSlug (js "Next.js Conf 2025") = generateSlug (js "next.js conf 2025") /\
  fst (createEvent utcRuntime dbWithNextjsConf second)
  = Err (ValidationError
           [(js "mode", js "Mode must be one of: online, offline, hybrid")]) /\
  fst (createEvent utcRuntime dbWithNextjsConf second)
  <> Err (DuplicateKeyError (js "slug")).
Proof.
  split; [reflexivity|]. split; [reflexivity|].
  split; [reflexivity | discriminate].
Qed.

(** C10: the title ["!!!"] is not empty and passes the title validator, its
    slug is the empty string, the [slug] path accepts the empty string, and
    creating an otherwise valid event with that title stores it with the
    empty slug (no stored event having that slug already). *)
Theorem empty_slug_saved rt db obj :
  freshIds db ->
  obj Event.title = VString (js "!!!") ->
  Event.validate rt (Event.newEvent rt (nextId db) obj) = [] ->
  (forall r, In r (events db) -> snd r Event.slug <> VString []) ->
  js "!!!" <> [] /\
  passes (Event.eventSchema rt Event.title) (VString (js "!!!")) /\
  generateSlug (js "!!!") = [] /\
  passes (Event.eventSchema rt Event.slug) (VString []) /\
  exists d,
    createEvent rt db obj
    = (Ok d, {| nextId := nextId db + 1;
                events := events db ++ [(nextId db, get d)];
                bookings := bookings db |}) /\
    get d Event.slug = VString [].
Proof.
  intros F T V U.
  split; [discriminate|]. split; [reflexivity|].
  split; [reflexivity|]. split; [reflexivity|].
  destruct (preSave_valid rt _ V) as [d' P].
  destruct (preSave_new _ _ _ _ P eq_refl (newEvent_title rt _ _ _ T))
    as (I & Hn & S).
  change (toLowerCase (trim (generateSlug (trim (js "!!!"))))) with (@nil N)
    in S.
  exists {| _id := _id d'; isNew := false; modified := fun _ => false;
            get := get d' |}.
  split; [|exact S].
  unfold createEvent, Event.saveEvent, save.
  fold (Event.validate rt (Event.newEvent rt (nextId db) obj)).
  rewrite V, P, Hn.
  rewrite (insertOne_fresh_slug rt (events db) (_id d') (get d') [] S).
  - simpl. rewrite I. reflexivity.
  - intros r Hr. rewrite I. simpl.
    destruct F as [F _]. rewrite Forall_forall in F. specialize (F r Hr). lia.
  - exact U.
Qed.

Lemma empty_slug_saved_witness :
  exists d,
    createEvent utcRuntime emptyDb
      (sampleEvent (js "!!!") (js "2025-10-21") (js "hybrid"))
    = (Ok d, {| nextId := 2; events := [(1, get d)]; bookings := [] |}) /\
    get d Event.slug = VString [].
Proof.
  refine (proj2 (proj2 (proj2 (proj2
    (empty_slug_saved utcRuntime emptyDb
       (sampleEvent (js "!!!") (js "2025-10-21") (js "hybrid")) _ _ _ _))))).
  - split; constructor.
  - reflexivity.
  - reflexivity.
  - intros r [].
Defined.

(** C2 fails on the code: validation is the first pre-save hook, so the
    validator of [date] judges the date as given.  A new event with the date
    ["2025-10-21T09:00:00Z"] is rejected by it and nothing is written,
    although [normalizeDate] turns that date into ["2025-10-21"], which the
    validator accepts, and the hook alone would have left a valid
    document. *)
Theorem save_validates_before_normalizing rt :
  let raw := js "2025-10-21T09:00:00Z" in
  let d := Event.newEvent rt 1
             (sampleEvent (js "Next.js Conf 2025") raw (js "hybrid")) in
  isModified d Event.date = true /\
  normalizeDate rt raw = Ok (js "2025-10-21") /\
  dateValidator rt (js "2025-10-21") = true /\
  match Event.preSave rt d with
  | Ok d' => Event.validate rt d' = []
  | Err _ => False
  end /\
  forall c,
    Event.saveEvent rt c d
    = (Err (ValidationError
              [(js "date", js "Date must be in ISO format (YYYY-MM-DD)")]),
       c).
Proof.
  split; [reflexivity|]. split; [reflexivity|]. split; [reflexivity|].
  split; [vm_compute; reflexivity|].
  intros c. unfold Event.saveEvent.
  rewrite save_invalid; [reflexivity|].
  vm_compute. discriminate.
Qed.

(** The half of C2 that holds: a save that validation rejects reports the
    validation error and leaves the collection unchanged. *)
Lemma saveEvent_invalid_no_write rt c d :
  Event.validate rt d <> [] ->
  Event.saveEvent rt c d = (Err (ValidationError (Event.validate rt d)), c).
Proof. apply save_invalid. Qed.

(** Whenever a save succeeds, the date given was already of the pattern
    [YYYY-MM-DD]: no other format reaches [normalizeDate]. *)
Lemma saved_date_was_iso rt c d d' c' :
  Event.saveEvent rt c d = (Ok d', c') ->
  exists s, get d Event.date = VString s /\ test isoDateRegex s = true.
Proof.
  unfold Event.saveEvent, save. fold (Event.validate rt d).
  destruct (Event.validate rt d) eqn:V; [|discriminate]. intros _.
  pose proof (validateDoc_nil _ _ _ _ d Event.date V
                (Event_paths_all Event.date)) as P.
  apply passes_date in P as (s & Hs & Hv). exists s. split; [exact Hs|].
  unfold dateValidator in Hv.
  destruct (test isoDateRegex s); [reflexivity | discriminate].
Qed.

(** ** booking.model.ts: the referential check *)

Lemma Booking_paths_all p : In p Booking.paths.
Proof. destruct p; simpl; tauto. Qed.

(** What the hook does with a document whose event is not stored. *)
Lemma preSave_unknown_event fault events (d : Booking.doc) id :
  get d Booking.eventId = VObjectId id -> lookup events id = None ->
  Booking.preSave fault events d
  = Err match fault with
        | None =>
            JsError (js "Event with ID " ++ Booking.toHexString id
                       ++ js " does not exist")
        | Some (ErrorObject m) => Thrown (ErrorObject m)
        | Some OtherValue => JsError (js "Failed to validate event reference")
        end.
Proof.
  intros E L. unfold Booking.preSave, Booking.findEvent, findById. rewrite E.
  destruct fault as [[m|]|]; try reflexivity.
  rewrite L. reflexivity.
Qed.

(** C6, as amended: a create whose [eventId] matches no stored event fails
    and stores no booking.  When the booking fails validation the error is
    the validation error, and the events are not looked up.  When it passes
    validation and the store answers the lookup, the error is the one of
    line 55, whose message contains the identifier; when the store fails
    the lookup, the error is what the driver threw, if that is an Error,
    and the error of line 64 otherwise. *)
Theorem booking_unknown_event_rejected fault db obj id :
  obj Booking.eventId = VObjectId id ->
  lookup (events db) id = None ->
  bookings (snd (createBooking fault db obj)) = bookings db /\
  events (snd (createBooking fault db obj)) = events db /\
  (exists e, fst (createBooking fault db obj) = Err e) /\
  (Booking.validate (Booking.newBooking (nextId db) obj) <> [] ->
   fst (createBooking fault db obj)
   = Err (ValidationError
            (Booking.validate (Booking.newBooking (nextId db) obj)))) /\
  (Booking.validate (Booking.newBooking (nextId db) obj) = [] ->
   fst (createBooking fault db obj)
   = Err match fault with
         | None =>
             JsError (js "Event with ID " ++ Booking.toHexString id
                        ++ js " does not exist")
         | Some (ErrorObject m) => Thrown (ErrorObject m)
         | Some OtherValue =>
             JsError (js "Failed to validate event reference")
         end).
Proof.
  intros E L. unfold createBooking, Booking.saveBooking, save.
  fold (Booking.validate (Booking.newBooking (nextId db) obj)).
  rewrite (preSave_unknown_event fault (events db)
             (Booking.newBooking (nextId db) obj) id); [|simpl; now rewrite E|exact L].
  destruct (Booking.validate _) as [|v vs]; simpl.
  - split; [reflexivity|]. split; [reflexivity|]. split; [eauto|].
    split; [congruence | reflexivity].
  - split; [reflexivity|]. split; [reflexivity|]. split; [eauto|].
    split; [reflexivity | discriminate].
Qed.

Lemma booking_unknown_event_rejected_witness :
  fst (createBooking None dbWithNextjsConf
         (sampleBooking 5 (js " User@Example.COM ")))
  = Err (JsError (js "Event with ID 000000000000000000000005 does not exist")).
Proof.
  refine (proj2 (proj2 (proj2 (proj2
    (booking_unknown_event_rejected None dbWithNextjsConf
       (sampleBooking 5 (js " User@Example.COM ")) 5 _ _)))) _);
    reflexivity.
Defined.

(** C6, as stated, fails: the booking names an event that is not stored and
    has a malformed email; the save fails with the validation error, not
    with the error of the referential check. *)
Lemma booking_invalid_email_first :
  let obj := sampleBooking 5 (js "not-an-email") in
  lookup (events dbWithNextjsConf) 5 = None /\
  fst (createBooking None dbWithNextjsConf obj)
  = Err (ValidationError
           [(js "email", js "Please provide a valid email address")]) /\
  fst (createBooking None dbWithNextjsConf obj)
  <> Err (JsError (Booking.doesNotExist (Booking.toHexString 5))).
Proof.
  split; [reflexivity|]. split; [reflexivity | discriminate].
Qed.

(** The other case in which the error is not the one of the referential
    check: the store fails the lookup, and the hook passes on what the
    driver threw. *)
Example booking_lookup_fails :
  let obj := sampleBooking 5 (js "a@b.co") in
  let down := Some (ErrorObject (js "connection timed out")) in
  lookup (events dbWithNextjsConf) 5 = None /\
  createBooking down dbWithNextjsConf obj
  = (Err (Thrown (ErrorObject (js "connection timed out"))),
     {| nextId := 3; events := events dbWithNextjsConf; bookings := [] |}) /\
  fst (createBooking (Some OtherValue) dbWithNextjsConf obj)
  = Err (JsError (js "Failed to validate event reference")).
Proof. repeat split. Qed.

(** A booking for a stored event is saved, its email normalised. *)
Example booking_saved :
  let r := createBooking None dbWithNextjsConf
             (sampleBooking 1 (js "  USER@Example.COM ")) in
  option_map (fun f => f Booking.email) (lookup (bookings (snd r)) 2)
  = Some (VString (js "user@example.com")).
Proof. reflexivity. Qed.

(** ** Date: years, months and days of a time value *)

Module DateFacts.
Import ESDate.
Local Open Scope Z_scope.

Lemma DayFromYear_succ y : DayFromYear (y + 1) = DayFromYear y + DaysInYear y.
Proof.
  unfold DayFromYear, DaysInYear, isLeapYear.
  destruct (Z.eqb_spec (y mod 4) 0), (Z.eqb_spec (y mod 100) 0),
    (Z.eqb_spec (y mod 400) 0); cbn [andb orb negb];
    Z.div_mod_to_equations; lia.
Qed.

Lemma DayFromYear_mono a b : a <= b -> DayFromYear a <= DayFromYear b.
Proof. unfold DayFromYear. intros H. Z.div_mod_to_equations. lia. Qed.

(** [YearFromDay d] is a year whose days include [d] ... *)
Lemma YearFromDay_spec d :
  DayFromYear (YearFromDay d) <= d < DayFromYear (YearFromDay d + 1).
Proof.
  unfold YearFromDay.
  set (y0 := 1970 + 400 * d / 146097).
  assert (B : DayFromYear (y0 - 1) <= d < DayFromYear (y0 + 2)).
  { unfold y0, DayFromYear. Z.div_mod_to_equations. lia. }
  destruct (Z.ltb_spec d (DayFromYear y0)).
  - replace (y0 - 1 + 1) with y0 by lia. lia.
  - destruct (Z.leb_spec (DayFromYear (y0 + 1)) d).
    + replace (y0 + 1 + 1) with (y0 + 2) by lia. lia.
    + lia.
Qed.

(** ... and the only one: it is the largest year that starts on or before
    [d], as ECMA-262 defines YearFromTime. *)
Lemma YearFromDay_unique d y :
  DayFromYear y <= d < DayFromYear (y + 1) -> YearFromDay d = y.
Proof.
  intros H. pose proof (YearFromDay_spec d) as S.
  destruct (Z.lt_trichotomy (YearFromDay d) y) as [L|[E|G]]; [|exact E|].
  - pose proof (DayFromYear_mono (YearFromDay d + 1) y). lia.
  - pose proof (DayFromYear_mono (y + 1) (YearFromDay d)). lia.
Qed.

Lemma DaysInYear_leap y :
  DaysInYear y = 365 + (if isLeapYear y then 1 else 0).
Proof. unfold DaysInYear. destruct (isLeapYear y); reflexivity. Qed.

Lemma DayWithinYear_range t :
  0 <= DayWithinYear t < 365 + InLeapYear t.
Proof.
  unfold DayWithinYear, InLeapYear, YearFromTime.
  pose proof (YearFromDay_spec (Day t)) as S.
  rewrite DayFromYear_succ, DaysInYear_leap in S. lia.
Qed.

Ltac month_cases k :=
  let H := fresh in
  assert (H : k = 0 \/ k = 1 \/ k = 2 \/ k = 3 \/ k = 4 \/ k = 5 \/ k = 6
              \/ k = 7 \/ k = 8 \/ k = 9 \/ k = 10 \/ k = 11) by lia;
  repeat (destruct H as [H | H]); subst k.

Ltac leap_cases l :=
  let H := fresh in
  assert (H : l = 0 \/ l = 1) by lia; destruct H; subst l.

(** [monthStart] on closed arguments is replaced by its value. *)
Ltac eval_monthStart :=
  repeat match goal with
  | |- context [monthStart ?l ?k] =>
      let v := eval vm_compute in (monthStart l k) in
      change (monthStart l k) with v
  | H : context [monthStart ?l ?k] |- _ =>
      let v := eval vm_compute in (monthStart l k) in
      change (monthStart l k) with v in H
  end.

Ltac split_ltb :=
  repeat match goal with
  | |- context [?a <? ?b] => destruct (Z.ltb_spec a b); try lia
  end.

(** The month that contains a day of the year. *)
Lemma monthOfYearDay_start leap k d :
  0 <= leap <= 1 -> 0 <= k <= 11 ->
  1 <= d <= monthStart leap (k + 1) - monthStart leap k ->
  monthOfYearDay leap (monthStart leap k + d - 1) = k.
Proof.
  intros Hl Hk Hd. leap_cases leap; month_cases k; eval_monthStart;
    unfold monthOfYearDay; split_ltb; reflexivity.
Qed.

Lemma monthOfYearDay_range leap dwy :
  0 <= leap <= 1 -> 0 <= dwy < 365 + leap ->
  0 <= monthOfYearDay leap dwy <= 11 /\
  1 <= dwy - monthStart leap (monthOfYearDay leap dwy) + 1
    <= monthStart leap (monthOfYearDay leap dwy + 1)
       - monthStart leap (monthOfYearDay leap dwy).
Proof.
  intros Hl Hd. leap_cases leap; unfold monthOfYearDay; split_ltb;
    eval_monthStart; lia.
Qed.

Lemma leap_bit_range y : 0 <= (if isLeapYear y then 1 else 0) <= 1.
Proof. destruct (isLeapYear y); lia. Qed.

Lemma InLeapYear_range t : 0 <= InLeapYear t <= 1.
Proof. apply leap_bit_range. Qed.

Lemma Day_MakeDate day : Day (MakeDate day 0) = day.
Proof.
  unfold Day, MakeDate. rewrite Z.add_0_r. apply Z.div_mul. discriminate.
Qed.

Lemma MakeDay_month y k d :
  0 <= k <= 11 ->
  MakeDay y k d
  = DayFromYear y + monthStart (if isLeapYear y then 1 else 0) k + d - 1.
Proof.
  intros Hk. unfold MakeDay.
  rewrite (Z.div_small k 12), (Z.mod_small k 12), Z.add_0_r by lia.
  reflexivity.
Qed.

Lemma monthStart_year leap k d :
  0 <= leap <= 1 -> 0 <= k <= 11 ->
  1 <= d <= monthStart leap (k + 1) - monthStart leap k ->
  0 <= monthStart leap k + d - 1 < 365 + leap.
Proof.
  intros Hl Hk Hd. leap_cases leap; month_cases k; eval_monthStart; lia.
Qed.

(** The year, month and day of the time value made from a date of the
    calendar are that date. *)
Lemma date_of_MakeDay y m d :
  1 <= m <= 12 -> 1 <= d <= DaysInMonth y m ->
  let t := MakeDate (MakeDay y (m - 1) d) 0 in
  YearFromTime t = y /\ MonthFromTime t = m - 1 /\ DateFromTime t = d.
Proof.
  intros Hm Hd. cbv zeta. unfold DaysInMonth in Hd.
  set (leap := if isLeapYear y then 1 else 0) in *.
  assert (Hl : 0 <= leap <= 1) by apply leap_bit_range.
  replace m with (m - 1 + 1) in Hd at 1 by lia.
  pose proof (monthStart_year leap (m - 1) d Hl ltac:(lia) Hd) as R.
  pose proof (monthOfYearDay_start leap (m - 1) d Hl ltac:(lia) Hd) as M.
  assert (Y : YearFromTime (MakeDate (MakeDay y (m - 1) d) 0) = y).
  { unfold YearFromTime. rewrite Day_MakeDate, MakeDay_month by lia.
    fold leap. apply YearFromDay_unique.
    rewrite DayFromYear_succ, DaysInYear_leap. fold leap. lia. }
  assert (L : InLeapYear (MakeDate (MakeDay y (m - 1) d) 0) = leap).
  { unfold InLeapYear. rewrite Y. reflexivity. }
  assert (W : DayWithinYear (MakeDate (MakeDay y (m - 1) d) 0)
              = monthStart leap (m - 1) + d - 1).
  { unfold DayWithinYear. rewrite Y, Day_MakeDate, MakeDay_month by lia.
    fold leap. lia. }
  assert (Mo : MonthFromTime (MakeDate (MakeDay y (m - 1) d) 0) = m - 1).
  { unfold MonthFromTime. rewrite L, W. exact M. }
  split; [exact Y|]. split; [exact Mo|].
  unfold DateFromTime. rewrite Mo, L, W. lia.
Qed.

(** Every time value has a date of the calendar, from which [MakeDay] gives
    its day back. *)
Lemma date_of_time t :
  1 <= MonthFromTime t + 1 <= 12 /\
  1 <= DateFromTime t <= DaysInMonth (YearFromTime t) (MonthFromTime t + 1) /\
  MakeDay (YearFromTime t) (MonthFromTime t) (DateFromTime t) = Day t.
Proof.
  pose proof (DayWithinYear_range t) as R.
  pose proof (InLeapYear_range t) as Hl.
  pose proof (monthOfYearDay_range (InLeapYear t) (DayWithinYear t) Hl R)
    as [K D].
  fold (MonthFromTime t) in K, D.
  split; [lia|]. split.
  - unfold DateFromTime, DaysInMonth. fold (InLeapYear t).
    replace (MonthFromTime t + 1 - 1) with (MonthFromTime t) by lia. exact D.
  - rewrite MakeDay_month by lia. fold (InLeapYear t).
    unfold DateFromTime, DayWithinYear. lia.
Qed.


(** *** Digits *)

Lemma padDigits_length k : forall n, List.length (padDigits k n) = k.
Proof.
  induction k as [|j IH]; intros n; simpl; [reflexivity|].
  rewrite length_app, IH. simpl. lia.
Qed.

Lemma digit_of_mod n : isDigit (48 + Z.to_N (n mod 10)) = true.
Proof.
  pose proof (Z.mod_pos_bound n 10 ltac:(lia)) as B.
  remember (n mod 10) as r eqn:E. clear E.
  unfold isDigit, inRange. apply andb_true_iff.
  split; apply N.leb_le; lia.
Qed.

Lemma padDigits_digits k :
  forall n, Forall (fun c => isDigit c = true) (padDigits k n).
Proof.
  induction k as [|j IH]; intros n; simpl; [constructor|].
  apply Forall_app. split; [apply IH|].
  constructor; [apply digit_of_mod | constructor].
Qed.

Lemma padDigits_value k :
  forall n acc, 0 <= n < 10 ^ Z.of_nat k ->
  digitsValue (padDigits k n) acc = acc * 10 ^ Z.of_nat k + n.
Proof.
  unfold digitsValue.
  induction k as [|j IH]; intros n acc H.
  - simpl in *. lia.
  - rewrite Nat2Z.inj_succ, Z.pow_succ_r in * by lia.
    set (P := 10 ^ Z.of_nat j) in *.
    cbn [padDigits]. rewrite fold_left_app. cbn [fold_left].
    rewrite IH by (fold P; Z.div_mod_to_equations; lia).
    fold P.
    assert (D : Z.of_N (48 + Z.to_N (n mod 10) - 48) = n mod 10).
    { pose proof (Z.mod_pos_bound n 10 ltac:(lia)) as B.
      remember (n mod 10) as r eqn:E. clear - B. lia. }
    rewrite D.
    replace (acc * (10 * P)) with (10 * (acc * P)) by ring.
    Z.div_mod_to_equations. lia.
Qed.

Lemma takeDigits_digits s :
  forall acc rest, Forall (fun c => isDigit c = true) s ->
  takeDigits (List.length s) acc (s ++ rest)
  = Some (digitsValue s acc, rest).
Proof.
  induction s as [|c t IH]; intros acc rest H; simpl; [reflexivity|].
  apply Forall_cons_iff in H as [Hc Ht]. rewrite Hc. apply IH, Ht.
Qed.

(** Reading back the digits that were written. *)
Lemma takeDigits_padDigits k n rest :
  0 <= n < 10 ^ Z.of_nat k ->
  takeDigits k 0 (padDigits k n ++ rest) = Some (n, rest).
Proof.
  intros H.
  pose proof (takeDigits_digits (padDigits k n) 0 rest (padDigits_digits k n))
    as T.
  rewrite padDigits_length, padDigits_value in T by exact H.
  exact T.
Qed.

Lemma parseYear_digit c t :
  isDigit c = true -> parseYear (c :: t) = takeDigits 4 0 (c :: t).
Proof.
  intros H. unfold parseYear.
  destruct (N.eqb_spec c 43) as [->|N1]; [discriminate|].
  destruct (N.eqb_spec c 45) as [->|N2]; [discriminate|].
  destruct c as [|p]; [reflexivity|].
  do 6 (try (destruct p as [p|p|]; try reflexivity)); congruence.
Qed.

Lemma padDigits_head j n :
  exists c t, padDigits (S j) n = c :: t /\ isDigit c = true.
Proof.
  pose proof (padDigits_digits (S j) n) as F.
  pose proof (padDigits_length (S j) n) as L.
  destruct (padDigits (S j) n) as [|c t]; [discriminate|].
  apply Forall_cons_iff in F as [Hc _]. eauto.
Qed.

Lemma parseDatePart_isoDate y m d :
  0 <= y <= 9999 -> 0 <= m <= 99 -> 0 <= d <= 99 ->
  parseDatePart (isoDate y m d) = Some (y, m, d, []).
Proof.
  intros Hy Hm Hd. unfold parseDatePart, isoDate.
  destruct (padDigits_head 3 y) as (c & t & E & Hc).
  assert (PY : parseYear (padDigits 4 y ++ [45%N] ++ padDigits 2 m ++ [45%N]
                            ++ padDigits 2 d)
               = Some (y, [45%N] ++ padDigits 2 m ++ [45%N] ++ padDigits 2 d)).
  { rewrite E. simpl app at 1. rewrite (parseYear_digit _ _ Hc).
    change (c :: t ++ ?r) with ((c :: t) ++ r). rewrite <- E.
    apply takeDigits_padDigits. simpl. lia. }
  rewrite PY. cbn [app].
  rewrite (takeDigits_padDigits 2 m) by (simpl; lia).
  rewrite <- (app_nil_r (padDigits 2 d)).
  rewrite (takeDigits_padDigits 2 d) by (simpl; lia).
  reflexivity.
Qed.


(** A string of [k] digits is the [k]-digit form of its value. *)
Lemma digits_padDigits s :
  Forall (fun c => isDigit c = true) s ->
  0 <= digitsValue s 0 < 10 ^ Z.of_nat (List.length s) /\
  padDigits (List.length s) (digitsValue s 0) = s.
Proof.
  unfold digitsValue.
  induction s as [|c t IH] using rev_ind; intros F.
  - simpl. split; [lia | reflexivity].
  - apply Forall_app in F as [Ft Fc]. apply Forall_cons_iff in Fc as [Hc _].
    destruct (IH Ft) as [B E].
    rewrite length_app, fold_left_app. cbn [fold_left List.length].
    replace (List.length t + 1)%nat with (S (List.length t)) by lia.
    rewrite Nat2Z.inj_succ, Z.pow_succ_r by lia.
    set (v := fold_left (fun a c => 10 * a + Z.of_N (c - 48)) t 0) in *.
    set (P := 10 ^ Z.of_nat (List.length t)) in *.
    assert (Dc : 0 <= Z.of_N (c - 48) <= 9 /\ (48 + Z.to_N (Z.of_N (c - 48)))%N = c).
    { unfold isDigit, inRange in Hc. apply andb_true_iff in Hc as [H1 H2].
      apply N.leb_le in H1, H2. lia. }
    destruct Dc as [Dr Dc]. set (r := Z.of_N (c - 48)) in *.
    split; [lia|]. cbn [padDigits].
    replace ((10 * v + r) / 10) with v by (Z.div_mod_to_equations; lia).
    replace ((10 * v + r) mod 10) with r by (Z.div_mod_to_equations; lia).
    rewrite E, Dc. reflexivity.
Qed.

Lemma lang_times_digits k s :
  lang (Times k (Class isDigit)) s <->
  List.length s = k /\ Forall (fun c => isDigit c = true) s.
Proof.
  revert s. induction k as [|j IH]; intros s; simpl.
  - split.
    + intros H. apply lang_eps_inv in H as ->. split; [reflexivity|constructor].
    + intros [L _]. destruct s; [constructor | discriminate].
  - split.
    + intros H. apply lang_seq_inv in H as (a & b & -> & Ha & Hb).
      apply lang_class_inv in Ha as (c & -> & Hc).
      apply IH in Hb as [L F]. simpl. split; [lia | constructor; assumption].
    + intros [L F]. destruct s as [|c t]; [discriminate|].
      apply Forall_cons_iff in F as [Hc Ft]. injection L as L.
      apply (lang_seq (Class isDigit) (Times j (Class isDigit)) [c] t);
        [constructor; exact Hc | apply IH; auto].
Qed.

(** The strings of the pattern [YYYY-MM-DD] are the values of [isoDate]. *)
Lemma isoDateRegex_isoDate D :
  test isoDateRegex D = true <->
  exists y m d,
    0 <= y <= 9999 /\ 0 <= m <= 99 /\ 0 <= d <= 99 /\ D = isoDate y m d.
Proof.
  rewrite test_lang. unfold isoDateRegex. split.
  - intros H.
    apply lang_seq_inv in H as (sy & r1 & -> & Hy & H).
    apply lang_seq_inv in H as (h1 & r2 & -> & Hh1 & H).
    apply lang_seq_inv in H as (sm & r3 & -> & Hm & H).
    apply lang_seq_inv in H as (h2 & sd & -> & Hh2 & Hd).
    apply lang_class_inv in Hh1 as (c1 & -> & E1). apply N.eqb_eq in E1 as ->.
    apply lang_class_inv in Hh2 as (c2 & -> & E2). apply N.eqb_eq in E2 as ->.
    apply lang_times_digits in Hy as [Ly Fy], Hm as [Lm Fm], Hd as [Ld Fd].
    destruct (digits_padDigits sy Fy) as [By Ey].
    destruct (digits_padDigits sm Fm) as [Bm Em].
    destruct (digits_padDigits sd Fd) as [Bd Ed].
    unfold codeUnit in *. rewrite Ly in *. rewrite Lm in *. rewrite Ld in *.
    exists (digitsValue sy 0), (digitsValue sm 0), (digitsValue sd 0).
    change (10 ^ Z.of_nat 4) with 10000 in By.
    change (10 ^ Z.of_nat 2) with 100 in Bm, Bd.
    repeat split; try lia.
    unfold isoDate. rewrite Ey, Em, Ed. reflexivity.
  - intros (y & m & d & _ & _ & _ & ->). unfold isoDate.
    assert (T : forall k n, lang (Times k (Class isDigit)) (padDigits k n)).
    { intros k n. apply lang_times_digits.
      split; [apply padDigits_length | apply padDigits_digits]. }
    assert (Hy : lang (Class isHyphen) [45%N]) by (constructor; reflexivity).
    apply (lang_seq (Times 4 (Class isDigit))); [apply T|].
    apply (lang_seq (Class isHyphen)); [exact Hy|].
    apply (lang_seq (Times 2 (Class isDigit))); [apply T|].
    apply (lang_seq (Class isHyphen)); [exact Hy | apply T].
Qed.

(** *** toISOString and split *)

Lemma split_nonempty sep s : split sep s <> [].
Proof.
  destruct s as [|c t]; simpl; [discriminate|].
  destruct (c =? sep)%N; [discriminate|].
  destruct (split sep t); discriminate.
Qed.

Lemma split_head sep a b :
  Forall (fun c => (c =? sep)%N = false) a ->
  hd [] (split sep (a ++ sep :: b)) = a.
Proof.
  induction 1 as [|c t Hc _ IH]; simpl.
  - rewrite N.eqb_refl. reflexivity.
  - rewrite Hc. pose proof (split_nonempty sep (t ++ sep :: b)) as N.
    destruct (split sep (t ++ sep :: b)) as [|h r]; [congruence|].
    simpl in IH. now rewrite IH.
Qed.

Lemma digit_not_T c : isDigit c = true -> (c =? 84)%N = false.
Proof.
  unfold isDigit, inRange. intros H. apply andb_true_iff in H as [H1 H2].
  apply N.leb_le in H1, H2. apply N.eqb_neq. lia.
Qed.

Lemma dateString_no_T t :
  Forall (fun c => (c =? 84)%N = false) (dateString t).
Proof.
  assert (D : forall k n, Forall (fun c => (c =? 84)%N = false) (padDigits k n)).
  { intros k n. eapply Forall_impl; [|apply padDigits_digits].
    apply digit_not_T. }
  assert (H : Forall (fun c => (c =? 84)%N = false) [45%N])
    by (repeat constructor).
  unfold dateString.
  apply Forall_app; split; [|apply Forall_app; split; [exact H|]].
  - unfold yearString. destruct (_ && _); [apply D|].
    constructor; [destruct (_ <? 0); reflexivity | apply D].
  - apply Forall_app; split; [apply D|].
    apply Forall_app; split; [exact H | apply D].
Qed.

(** The part of the ISO string before the [T] is the date. *)
Lemma toISOString_date t :
  hd [] (split 84 (toISOString t)) = dateString t.
Proof.
  unfold toISOString. cbn [app]. apply split_head, dateString_no_T.
Qed.

Lemma dateString_isoDate t :
  0 <= YearFromTime t <= 9999 ->
  dateString t
  = isoDate (YearFromTime t) (MonthFromTime t + 1) (DateFromTime t).
Proof.
  intros H. unfold dateString, yearString, isoDate.
  destruct (Z.leb_spec 0 (YearFromTime t)); [|lia].
  destruct (Z.leb_spec (YearFromTime t) 9999); [|lia].
  reflexivity.
Qed.


(** *** Parsing a date of the calendar *)

Lemma DaysInMonth_bound y m : 1 <= m <= 12 -> 28 <= DaysInMonth y m <= 31.
Proof.
  intros Hm. unfold DaysInMonth.
  pose proof (leap_bit_range y) as Hl.
  set (leap := if isLeapYear y then 1 else 0) in *. clearbody leap.
  assert (G : forall k, 0 <= k <= 11 ->
              28 <= monthStart leap (k + 1) - monthStart leap k <= 31).
  { intros k Hk. leap_cases leap; month_cases k; eval_monthStart; lia. }
  specialize (G (m - 1) ltac:(lia)).
  replace (m - 1 + 1) with m in G by lia. exact G.
Qed.

Lemma TimeClip_date y m d :
  realDate y m d ->
  TimeClip (MakeDate (MakeDay y (m - 1) d) 0)
  = Some (MakeDate (MakeDay y (m - 1) d) 0).
Proof.
  intros (Hy & Hm & Hd). unfold TimeClip.
  assert (B : Z.abs (MakeDate (MakeDay y (m - 1) d) 0) <= 8640000000000000).
  { rewrite MakeDay_month by lia.
    pose proof (leap_bit_range y) as Hl.
    unfold DaysInMonth in Hd.
    set (leap := if isLeapYear y then 1 else 0) in *.
    replace m with (m - 1 + 1) in Hd at 1 by lia.
    pose proof (monthStart_year leap (m - 1) d Hl ltac:(lia) Hd) as R.
    unfold MakeDate, msPerDay, DayFromYear. Z.div_mod_to_equations. lia. }
  apply Z.leb_le in B. rewrite B. reflexivity.
Qed.

Lemma parseISO_isoDate rt y m d :
  realDate y m d ->
  parseISO rt (isoDate y m d) = Some (MakeDate (MakeDay y (m - 1) d) 0).
Proof.
  intros R. pose proof R as (Hy & Hm & Hd).
  pose proof (DaysInMonth_bound y m Hm) as B.
  unfold parseISO. rewrite parseDatePart_isoDate by lia.
  destruct (Z.leb_spec 1 m); [|lia].
  destruct (Z.leb_spec m 12); [|lia].
  destruct (Z.leb_spec 1 d); [|lia].
  destruct (Z.leb_spec d (DaysInMonth y m)); [|lia].
  cbn [andb]. apply TimeClip_date, R.
Qed.

End DateFacts.

(** ** event.model.ts: normalizeDate *)

Section NormalizeDate.
Import ESDate DateFacts.
Local Open Scope Z_scope.
Variable rt : runtime.

(** Whatever [Date.parse] accepts comes back as the date part of its ISO
    string. *)
Lemma normalizeDate_parsed D t :
  parse rt D = Some t -> normalizeDate rt D = Ok (dateString t).
Proof.
  intros P. unfold normalizeDate. rewrite P, toISOString_date. reflexivity.
Qed.

Lemma normalizeDate_unparsed D :
  parse rt D = None -> test isoDateRegex D = true ->
  normalizeDate rt D = Ok D.
Proof. intros P T. unfold normalizeDate. rewrite P, T. reflexivity. Qed.

Lemma normalizeDate_realDate y m d :
  realDate y m d -> normalizeDate rt (isoDate y m d) = Ok (isoDate y m d).
Proof.
  intros R. pose proof R as (Hy & Hm & Hd).
  set (t := MakeDate (MakeDay y (m - 1) d) 0).
  assert (P : parse rt (isoDate y m d) = Some t).
  { unfold parse. rewrite (parseISO_isoDate rt y m d R). reflexivity. }
  rewrite (normalizeDate_parsed _ _ P).
  destruct (date_of_MakeDay y m d Hm Hd) as (Y & M & Dt). fold t in Y, M, Dt.
  rewrite dateString_isoDate by (rewrite Y; exact Hy).
  rewrite Y, M, Dt. replace (m - 1 + 1) with m by lia. reflexivity.
Qed.

(** C1, as amended: (1) for every string that [Date.parse] accepts, with
    a time value whose UTC year has four digits, [normalizeDate] returns
    the [YYYY-MM-DD] string of the UTC calendar date of that time value;
    (2) for every [YYYY-MM-DD] string of a date of the calendar the result
    is the string itself; (3) so it is for every string of the pattern
    that [Date.parse] rejects. *)
Theorem normalizeDate_utc_date :
  (forall D t,
     parse rt D = Some t -> 0 <= YearFromTime t <= 9999 ->
     let y := YearFromTime t in
     let m := MonthFromTime t + 1 in
     let d := DateFromTime t in
     normalizeDate rt D = Ok (isoDate y m d) /\
     test isoDateRegex (isoDate y m d) = true /\
     realDate y m d /\ MakeDay y (m - 1) d = Day t) /\
  (forall y m d,
     realDate y m d -> normalizeDate rt (isoDate y m d) = Ok (isoDate y m d)) /\
  (forall D,
     test isoDateRegex D = true -> parse rt D = None ->
     normalizeDate rt D = Ok D).
Proof.
  split; [|split].
  - intros D t P Hy. cbv zeta.
    destruct (date_of_time t) as (Hm & Hd & E).
    pose proof (DaysInMonth_bound (YearFromTime t) _ Hm) as B.
    split; [|split; [|split]].
    + rewrite (normalizeDate_parsed _ _ P), dateString_isoDate by exact Hy.
      reflexivity.
    + apply isoDateRegex_isoDate. do 3 eexists.
      split; [exact Hy|]. split; [|split; [|reflexivity]]; lia.
    + repeat split; lia.
    + replace (MonthFromTime t + 1 - 1) with (MonthFromTime t) by lia.
      exact E.
  - apply normalizeDate_realDate.
  - intros D T P. apply normalizeDate_unparsed; assumption.
Qed.
End NormalizeDate.

Lemma normalizeDate_utc_date_witness :
  let t := 1761096600000%Z in
  (normalizeDate utcRuntime (js "2025-10-21T20:30:00-05:00")
   = Ok (isoDate (ESDate.YearFromTime t) (ESDate.MonthFromTime t + 1)
           (ESDate.DateFromTime t)) /\
   isoDate (ESDate.YearFromTime t) (ESDate.MonthFromTime t + 1)
     (ESDate.DateFromTime t) = js "2025-10-22") /\
  normalizeDate utcRuntime (isoDate 2024 2 29) = Ok (isoDate 2024 2 29).
Proof.
  split; [split|].
  - apply (proj1 (normalizeDate_utc_date utcRuntime)).
    + vm_compute. reflexivity.
    + vm_compute. split; discriminate.
  - vm_compute. reflexivity.
  - apply (proj1 (proj2 (normalizeDate_utc_date utcRuntime))).
    vm_compute. repeat split; discriminate.
Defined.

(** C1, as stated, fails: the string below is in the Date Time String
    Format and names 21 October 2025, in a zone two hours ahead of UTC;
    [normalizeDate] returns 20 October, the UTC date of that instant. *)
Lemma normalizeDate_offset_shifts_day :
  let D := js "2025-10-21T00:30:00+02:00" in
  ESDate.parseDatePart D = Some (2025, 10, 21, js "T00:30:00+02:00")%Z /\
  ESDate.parse utcRuntime D = Some 1760999400000%Z /\
  normalizeDate utcRuntime D = Ok (js "2025-10-20") /\
  normalizeDate utcRuntime D <> Ok (js "2025-10-21").
Proof. vm_compute. repeat split; try reflexivity. discriminate. Qed.

(** The host plays no part in it. *)
Lemma normalizeDate_offset_any_host rt :
  normalizeDate rt (js "2025-10-21T00:30:00+02:00") = Ok (js "2025-10-20").
Proof. vm_compute. reflexivity. Qed.

(** A year beyond 9999 comes back in the expanded form, which is not of the
    pattern [YYYY-MM-DD]. *)
Example normalizeDate_expanded_year rt :
  normalizeDate rt (js "+010000-01-01") = Ok (js "+010000-01-01") /\
  test isoDateRegex (js "+010000-01-01") = false.
Proof. split; vm_compute; reflexivity. Qed.

(** A string of the pattern that is no date and that the host rejects is
    returned as it is; any other string the host rejects is an error. *)
Example normalizeDate_month_13 :
  normalizeDate utcRuntime (js "2025-13-45") = Ok (js "2025-13-45") /\
  normalizeDate utcRuntime (js "not-a-date")
  = Err (JsError (invalidDateFormat (js "not-a-date"))).
Proof. split; vm_compute; reflexivity. Qed.

(* ================================================================== *)
(** * Further properties of the code *)
(* ================================================================== *)

(** ** generateSlug: what is kept *)

Lemma space_not_word c : isSpace c = true -> isWordChar c = false.
Proof. intros H. classes. Qed.

Lemma hyphen_not_word c : isHyphen c = true -> isWordChar c = false.
Proof. intros H. classes. Qed.

Lemma word_kept c : isWordChar c = true -> keptBySlug c = true.
Proof. unfold keptBySlug. now intros ->. Qed.

Section FilterRuns.
Variable p q : N -> bool.
Hypothesis disjoint : forall c, p c = true -> q c = false.

Lemma filter_dropWhile s : filter q (dropWhile p s) = filter q s.
Proof.
  induction s as [|c t IH]; simpl; [reflexivity|].
  destruct (p c) eqn:E; [|reflexivity].
  now rewrite (disjoint c E).
Qed.

Lemma filter_dropEndWhile s : filter q (dropEndWhile p s) = filter q s.
Proof.
  induction s as [|c t IH]; simpl; [reflexivity|].
  destruct (dropEndWhile p t) as [|d r].
  - destruct (p c) eqn:E.
    + rewrite (disjoint c E). exact IH.
    + simpl. simpl in IH. now rewrite <- IH.
  - simpl. simpl in IH. now rewrite IH.
Qed.

Lemma filter_replaceRunsFrom r b s :
  filter q r = [] -> filter q (replaceRunsFrom p r b s) = filter q s.
Proof.
  intros Hr. revert b.
  induction s as [|c t IH]; intros b; simpl; [reflexivity|].
  destruct (p c) eqn:E.
  - rewrite (disjoint c E). destruct b; [apply IH|].
    rewrite filter_app. unfold jsstring, codeUnit in *. rewrite Hr. apply IH.
  - simpl. now rewrite IH.
Qed.
End FilterRuns.

Lemma filter_removeOutside (q keep : N -> bool) s :
  (forall c, q c = true -> keep c = true) ->
  filter q (removeOutside keep s) = filter q s.
Proof.
  intros H. unfold removeOutside.
  induction s as [|c t IH]; simpl; [reflexivity|].
  destruct (keep c) eqn:K; simpl; rewrite IH; [reflexivity|].
  destruct (q c) eqn:Q; [|reflexivity].
  rewrite (H c Q) in K. discriminate.
Qed.

Lemma slug_word_characters title :
  filter isWordChar (generateSlug title)
  = filter isWordChar (toLowerCase title).
Proof.
  unfold generateSlug, stripEnds, replaceRuns, trim.
  rewrite (filter_dropEndWhile isHyphen isWordChar hyphen_not_word).
  rewrite (filter_dropWhile isHyphen isWordChar hyphen_not_word).
  rewrite (filter_replaceRunsFrom isHyphen isWordChar hyphen_not_word)
    by reflexivity.
  rewrite (filter_replaceRunsFrom isSpace isWordChar space_not_word)
    by reflexivity.
  rewrite (filter_removeOutside isWordChar keptBySlug _ word_kept).
  rewrite (filter_dropEndWhile isSpace isWordChar space_not_word).
  apply (filter_dropWhile isSpace isWordChar space_not_word).
Qed.

Lemma filter_nil_iff (q : N -> bool) s :
  filter q s = [] <-> Forall (fun c => q c = false) s.
Proof.
  induction s as [|c t IH]; simpl.
  - split; [constructor | reflexivity].
  - destruct (q c) eqn:E.
    + split; [discriminate|]. intros H. apply Forall_cons_iff in H as [H _].
      congruence.
    + rewrite IH. split; [now constructor|].
      intros H. now apply Forall_cons_iff in H as [_ H].
Qed.

(** X1: the slug keeps the word characters (letters, digits, underscores)
    of the lower-cased title, all of them and in their order; whatever else
    it contains is hyphens.  So the slug is empty exactly when the
    lower-cased title has no word character. *)
Theorem generateSlug_keeps_words (title : jsstring) :
  filter isWordChar (generateSlug title)
  = filter isWordChar (toLowerCase title) /\
  Forall (fun c => isHyphen c = true)
    (filter (fun c => negb (isWordChar c)) (generateSlug title)) /\
  (generateSlug title = [] <->
   Forall (fun c => isWordChar c = false) (toLowerCase title)).
Proof.
  split; [apply slug_word_characters|]. split.
  - apply Forall_forall. intros c Hc. apply filter_In in Hc as [Hin Hw].
    pose proof (generateSlug_alphabet title) as A.
    rewrite Forall_forall in A. specialize (A c Hin).
    apply negb_true_iff in Hw. unfold isSlugChar in A.
    unfold isWordChar in Hw.
    apply orb_false_iff in Hw as [Hw Hu]. apply orb_false_iff in Hw as [Hw Hd].
    apply orb_false_iff in Hw as [_ Hl]. rewrite Hl, Hd, Hu in A. exact A.
  - rewrite <- filter_nil_iff, <- slug_word_characters. split.
    + now intros ->.
    + intros H. pose proof (generateSlug_head title) as Hh.
      pose proof (generateSlug_alphabet title) as A.
      destruct (generateSlug title) as [|c t]; [reflexivity|].
      apply Forall_cons_iff in A as [A _]. simpl in Hh, H.
      assert (W : isWordChar c = true).
      { unfold isSlugChar in A. unfold isWordChar. rewrite Hh in A.
        rewrite orb_false_r in A.
        apply orb_true_iff in A as [A|A]; [|now rewrite A, orb_true_r].
        apply orb_true_iff in A as [A|A]; rewrite A;
          rewrite ?orb_true_r; reflexivity. }
      rewrite W in H. discriminate.
Qed.

(** ** generateSlug: what is ignored *)

Lemma lowerUnit_fixed c d : In d (lowerUnit c) -> lowerUnit d = [d].
Proof.
  unfold lowerUnit at 1.
  destruct (isUpper c) eqn:U.
  { intros [<-|[]]. unfold lowerUnit.
    assert (isUpper (c + 32) = false) as -> by classes.
    assert (inRange 192 222 (c + 32) = false) as -> by classes.
    assert ((c + 32 =? 304) = false) as -> by classes.
    assert ((c + 32 =? 8490) = false) as -> by classes.
    assert ((c + 32 =? 8491) = false) as -> by classes.
    reflexivity. }
  destruct (inRange 192 222 c && negb (c =? 215)) eqn:L.
  { intros [<-|[]]. unfold lowerUnit.
    assert (isUpper (c + 32) = false) as -> by classes.
    assert (inRange 192 222 (c + 32) = false) as -> by classes.
    assert ((c + 32 =? 304) = false) as -> by classes.
    assert ((c + 32 =? 8490) = false) as -> by classes.
    assert ((c + 32 =? 8491) = false) as -> by classes.
    reflexivity. }
  destruct (c =? 304) eqn:E1; [intros [<-|[<-|[]]]; reflexivity|].
  destruct (c =? 8490) eqn:E2; [intros [<-|[]]; reflexivity|].
  destruct (c =? 8491) eqn:E3; [intros [<-|[]]; reflexivity|].
  intros [<-|[]]. unfold lowerUnit. now rewrite U, L, E1, E2, E3.
Qed.

Lemma toLowerCase_app a b : toLowerCase (a ++ b) = toLowerCase a ++ toLowerCase b.
Proof. apply flat_map_app. Qed.

Lemma toLowerCase_fixed s :
  (forall d, In d s -> lowerUnit d = [d]) -> toLowerCase s = s.
Proof.
  induction s as [|c t IH]; intros H; simpl; [reflexivity|].
  rewrite (H c (or_introl eq_refl)), IH; [reflexivity|].
  intros d Hd. apply H. now right.
Qed.

Lemma toLowerCase_idempotent s : toLowerCase (toLowerCase s) = toLowerCase s.
Proof.
  induction s as [|c t IH]; [reflexivity|].
  change (toLowerCase (c :: t)) with (lowerUnit c ++ toLowerCase t).
  rewrite toLowerCase_app, IH. f_equal.
  apply toLowerCase_fixed. intros d Hd. exact (lowerUnit_fixed c d Hd).
Qed.

(** X2: the slug does not depend on the case of the letters of the title
    nor on white space around it: lower-casing or trimming the title first
    gives the same slug. *)
Theorem generateSlug_ignores_case_and_padding (title : jsstring) :
  generateSlug (toLowerCase title) = generateSlug title /\
  generateSlug (trim title) = generateSlug title.
Proof.
  split.
  - unfold generateSlug. now rewrite toLowerCase_idempotent.
  - apply generateSlug_trim.
Qed.

(** ** normalizeTime *)

Lemma filter_not_space_trim s :
  filter (fun c => negb (isSpace c)) (trim s)
  = filter (fun c => negb (isSpace c)) s.
Proof.
  assert (D : forall c, isSpace c = true -> negb (isSpace c) = false)
    by (intros c ->; reflexivity).
  unfold trim.
  rewrite (filter_dropEndWhile isSpace (fun c => negb (isSpace c)) D).
  apply (filter_dropWhile isSpace (fun c => negb (isSpace c)) D).
Qed.

(** X3: [normalizeTime] is idempotent; its result neither starts nor ends
    with white space and has the characters of the input that are not white
    space, in their order; a time without white space at its ends is
    returned as it is. *)
Theorem normalizeTime_trims (time : jsstring) :
  normalizeTime (normalizeTime time) = normalizeTime time /\
  headIs isSpace (normalizeTime time) = false /\
  lastIs isSpace (normalizeTime time) = false /\
  filter (fun c => negb (isSpace c)) (normalizeTime time)
  = filter (fun c => negb (isSpace c)) time /\
  (headIs isSpace time = false -> lastIs isSpace time = false ->
   normalizeTime time = time).
Proof.
  unfold normalizeTime. split; [apply trim_trim|].
  split; [apply headIs_dropEndWhile, headIs_dropWhile|].
  split; [apply lastIs_dropEndWhile|].
  split; [apply filter_not_space_trim|].
  intros H L. unfold trim. rewrite (dropWhile_id _ _ H).
  apply dropEndWhile_id, L.
Qed.

(** ** normalizeDate and the date validator *)

Section DateMore.
Import ESDate DateFacts.
Local Open Scope Z_scope.
Variable rt : runtime.

Lemma parseISO_not_real y m d :
  0 <= y <= 9999 -> 0 <= m <= 99 -> 0 <= d <= 99 -> ~ realDate y m d ->
  parseISO rt (isoDate y m d) = None.
Proof.
  intros Hy Hm Hd R. unfold parseISO.
  rewrite parseDatePart_isoDate by assumption.
  destruct (Z.leb_spec 1 m); [|reflexivity].
  destruct (Z.leb_spec m 12); [|reflexivity].
  destruct (Z.leb_spec 1 d); [|reflexivity].
  destruct (Z.leb_spec d (DaysInMonth y m)); [|reflexivity].
  exfalso. apply R. unfold realDate. lia.
Qed.

Lemma realDate_dec y m d : {realDate y m d} + {~ realDate y m d}.
Proof.
  unfold realDate.
  destruct (Z_le_dec 0 y), (Z_le_dec y 9999), (Z_le_dec 1 m), (Z_le_dec m 12),
    (Z_le_dec 1 d), (Z_le_dec d (DaysInMonth y m));
    try (left; lia); right; lia.
Qed.

Lemma parse_realDate y m d :
  realDate y m d ->
  parse rt (isoDate y m d) = Some (MakeDate (MakeDay y (m - 1) d) 0).
Proof.
  intros R. unfold parse. now rewrite (parseISO_isoDate rt y m d R).
Qed.

Lemma test_isoDate y m d : test isoDateRegex (isoDate y m d) = true.
Proof.
  apply test_lang. unfold isoDateRegex, isoDate.
  assert (T : forall k n, lang (Times k (Class isDigit)) (padDigits k n)).
  { intros k n. apply lang_times_digits.
    split; [apply padDigits_length | apply padDigits_digits]. }
  assert (Hy : lang (Class isHyphen) [45%N]) by (constructor; reflexivity).
  apply (lang_seq (Times 4 (Class isDigit))); [apply T|].
  apply (lang_seq (Class isHyphen)); [exact Hy|].
  apply (lang_seq (Times 2 (Class isDigit))); [apply T|].
  apply (lang_seq (Class isHyphen)); [exact Hy | apply T].
Qed.

(** X4: normalising a second time changes nothing: when [normalizeDate]
    returns [s] for a date whose UTC year, if the host parsed it, has four
    digits, it returns [s] again on [s]. *)
Theorem normalizeDate_idempotent (D s : jsstring) :
  normalizeDate rt D = Ok s ->
  (forall t, parse rt D = Some t -> 0 <= YearFromTime t <= 9999) ->
  normalizeDate rt s = Ok s.
Proof.
  intros H Y. unfold normalizeDate in H.
  destruct (parse rt D) as [t|] eqn:P.
  - injection H as <-. rewrite toISOString_date.
    rewrite dateString_isoDate by (apply Y; reflexivity).
    apply normalizeDate_realDate.
    destruct (date_of_time t) as (Hm & Hd & _).
    split; [apply Y; reflexivity|]. split; assumption.
  - destruct (test isoDateRegex D) eqn:T; [|discriminate].
    injection H as <-. unfold normalizeDate. now rewrite P, T.
Qed.

(** X5: [normalizeDate] fails exactly on the strings that the host does not
    parse and that are not of the pattern [YYYY-MM-DD]; the error is the
    format error, whose message quotes the string; the date validator
    rejects every such string. *)
Theorem normalizeDate_failure (D : jsstring) :
  (parse rt D = None /\ test isoDateRegex D = false <->
   exists e, normalizeDate rt D = Err e) /\
  (forall e, normalizeDate rt D = Err e ->
     e = JsError (js "Invalid date format: " ++ D
                    ++ js ". Expected YYYY-MM-DD or valid date string.")%list
     /\ dateValidator rt D = false).
Proof.
  unfold normalizeDate, dateValidator.
  destruct (parse rt D) as [t|]; destruct (test isoDateRegex D); simpl.
  - split; [split|]; [intros [H _]; discriminate | intros [e H]; discriminate
                     | intros e H; discriminate].
  - split; [split|]; [intros [H _]; discriminate | intros [e H]; discriminate
                     | intros e H; discriminate].
  - split; [split|]; [intros [_ H]; discriminate | intros [e H]; discriminate
                     | intros e H; discriminate].
  - split; [split|]; [eauto | auto |].
    intros e [= <-]. split; reflexivity.
Qed.

(** X6: the date validator accepts the [YYYY-MM-DD] string of every date of
    the calendar, on every host, and rejects every string that is not of the
    pattern; on a host that parses the standard format only, it accepts
    nothing else: a string passes exactly when it is the [YYYY-MM-DD] string
    of a date of the calendar. *)
Theorem dateValidator_accepts (v : jsstring) :
  (forall y m d, realDate y m d -> v = isoDate y m d ->
                 dateValidator rt v = true) /\
  (test isoDateRegex v = false -> dateValidator rt v = false) /\
  (strictHost rt ->
   (dateValidator rt v = true <->
    exists y m d, realDate y m d /\ v = isoDate y m d)).
Proof.
  split; [|split].
  - intros y m d R ->. unfold dateValidator.
    now rewrite test_isoDate, (parse_realDate y m d R).
  - intros T. unfold dateValidator. now rewrite T.
  - intros S. split.
    + unfold dateValidator. destruct (test isoDateRegex v) eqn:T;
        [|discriminate]. simpl.
      apply isoDateRegex_isoDate in T as (y & m & d & Hy & Hm & Hd & ->).
      intros H. exists y, m, d. split; [|reflexivity].
      destruct (realDate_dec y m d) as [R|R]; [exact R|].
      unfold parse in H. rewrite (parseISO_not_real y m d Hy Hm Hd R), S in H.
      discriminate.
    + intros (y & m & d & R & ->). unfold dateValidator.
      now rewrite test_isoDate, (parse_realDate y m d R).
Qed.
End DateMore.

Lemma normalizeDate_idempotent_witness :
  normalizeDate utcRuntime (js "2025-10-22") = Ok (js "2025-10-22").
Proof.
  apply (normalizeDate_idempotent utcRuntime
           (js "2025-10-21T20:30:00-05:00") (js "2025-10-22")).
  - vm_compute. reflexivity.
  - intros t H. vm_compute in H. injection H as <-. vm_compute.
    split; discriminate.
Defined.

(** ** The Event schema: what validation accepts *)

Lemma validateDoc_all_pass {path : Type} (paths : list path) pathName schema
    (d : document path) :
  (forall p, In p paths -> passes (schema p) (get d p)) ->
  validateDoc paths pathName schema d = [].
Proof.
  unfold validateDoc, passes. intros H.
  induction paths as [|q qs IH]; simpl; [reflexivity|].
  rewrite (H q (or_introl eq_refl)). simpl. apply IH.
  intros p Hp. apply H. now right.
Qed.

Lemma trim_nonempty s : trim s <> [] -> s <> [].
Proof. intros H ->. apply H. reflexivity. Qed.

Lemma passes_textPath_iff r t m v :
  passes (Event.textPath r t m) v <-> nonBlank v.
Proof.
  unfold passes, nonBlank, validatePath, checkRequired. simpl. split.
  - destruct v as [|s|l|i]; simpl; try discriminate.
    destruct s as [|c u]; [discriminate|]. simpl.
    unfold nonEmptyValidator.
    destruct (trim (c :: u)) eqn:T; [discriminate|].
    intros _. exists (c :: u). split; [reflexivity|]. rewrite T. discriminate.
  - intros (s & -> & T). pose proof (trim_nonempty s T) as N.
    destruct s as [|c u]; [congruence|]. simpl.
    unfold nonEmptyValidator. destruct (trim (c :: u)); [congruence|].
    reflexivity.
Qed.

Lemma passes_arrayPath_iff r m v :
  passes (Event.arrayPath r m) v <-> nonEmptyArray v.
Proof.
  unfold passes, nonEmptyArray, validatePath, checkRequired. simpl. split.
  - destruct v as [|s|l|i]; simpl; try discriminate.
    destruct l as [|x l']; [discriminate|]. intros _.
    exists (x :: l'). split; [reflexivity | discriminate].
  - intros (l & -> & N). destruct l; [congruence | reflexivity].
Qed.

Lemma existsb_string_eqb s values :
  existsb (string_eqb s) values = true <-> In s values.
Proof.
  rewrite existsb_exists. split.
  - intros (x & Hx & E). apply string_eqb_eq in E. now subst.
  - intros H. exists s. split; [exact H | apply string_eqb_refl].
Qed.

Lemma passes_mode_iff rt v :
  passes (Event.eventSchema rt Event.mode) v <->
  exists s, v = VString s /\ In s [js "online"; js "offline"; js "hybrid"].
Proof.
  unfold passes, validatePath, checkRequired.
  cbn [Event.eventSchema required type enum validate fst snd]. split.
  - destruct v as [|s|l|i]; try discriminate.
    destruct s as [|c u]; [discriminate|].
    destruct (existsb _ _) eqn:E; [|discriminate].
    intros _. exists (c :: u). split; [reflexivity|].
    apply existsb_string_eqb, E.
  - intros (s & -> & H). pose proof H as H'.
    apply existsb_string_eqb in H'. rewrite H'.
    destruct s as [|c u]; [|reflexivity].
    simpl in H. repeat (destruct H as [H|H]; [discriminate|]). contradiction.
Qed.

Lemma passes_date_iff rt v :
  passes (Event.eventSchema rt Event.date) v <->
  exists s, v = VString s /\ dateValidator rt s = true.
Proof.
  split; [apply passes_date|].
  intros (s & -> & H). unfold passes, validatePath, checkRequired. simpl.
  rewrite H. destruct s as [|c u]; [|reflexivity].
  vm_compute in H. discriminate.
Qed.

Lemma passes_slug rt v : passes (Event.eventSchema rt Event.slug) v.
Proof. unfold passes, validatePath. simpl. destruct v; reflexivity. Qed.

(** X7: an Event document passes validation exactly when every text path
    is a string that is not blank, [date] is a string the date validator
    accepts, [mode] is one of the three modes, and [agenda] and [tags] are
    arrays that are not empty; [slug] may be anything, also missing. *)
Theorem event_validation_accepts (rt : ESDate.runtime) (d : Event.doc) :
  Event.validate rt d = [] <-> acceptableEvent rt d.
Proof.
  unfold acceptableEvent. split.
  - intros V.
    pose proof (fun p => validateDoc_nil _ _ _ _ d p V (Event_paths_all p))
      as P.
    pose proof (P Event.title) as H1. pose proof (P Event.description) as H2.
    pose proof (P Event.overview) as H3. pose proof (P Event.image) as H4.
    pose proof (P Event.venue) as H5. pose proof (P Event.location) as H6.
    pose proof (P Event.date) as H7. pose proof (P Event.time) as H8.
    pose proof (P Event.mode) as H9. pose proof (P Event.audience) as H10.
    pose proof (P Event.agenda) as H11. pose proof (P Event.organizer) as H12.
    pose proof (P Event.tags) as H13.
    apply passes_textPath_iff in H1, H2, H3, H4, H5, H6, H8, H10, H12.
    apply passes_date_iff in H7. apply passes_mode_iff in H9.
    apply passes_arrayPath_iff in H11, H13.
    repeat split; assumption.
  - intros (H1 & H2 & H3 & H4 & H5 & H6 & H7 & H8 & H9 & H10 & H11 & H12
            & H13).
    apply validateDoc_all_pass. intros p _.
    destruct p;
      first [ apply passes_slug
            | apply passes_date_iff; assumption
            | apply passes_mode_iff; assumption
            | apply passes_textPath_iff; assumption
            | apply passes_arrayPath_iff; assumption ].
Qed.

(** ** The pre-save hook of the Event schema, path by path *)

Lemma preSave_result rt d d' :
  Event.preSave rt d = Ok d' ->
  _id d' = _id d /\ isNew d' = isNew d /\
  (forall p, p <> Event.slug -> p <> Event.date -> p <> Event.time ->
             get d' p = get d p) /\
  ((isModified d Event.title || isNew d = false ->
    get d' Event.slug = get d Event.slug) /\
   (isModified d Event.title || isNew d = true ->
    exists t, get d Event.title = VString t /\
              get d' Event.slug = VString (generateSlug t))) /\
  ((isModified d Event.date = false -> get d' Event.date = get d Event.date) /\
   (isModified d Event.date = true ->
    exists s s', get d Event.date = VString s /\ normalizeDate rt s = Ok s' /\
                 get d' Event.date = VString s')) /\
  ((isModified d Event.time = false -> get d' Event.time = get d Event.time) /\
   (isModified d Event.time = true ->
    exists s, get d Event.time = VString s /\
              get d' Event.time = VString (trim s))).
Proof.
  unfold Event.preSave, Event.assign, set, isModified. simpl.
  destruct (modified d Event.title || isNew d) eqn:MT; simpl.
  - destruct (get d Event.title) as [|t|l|i] eqn:GT; try discriminate. simpl.
    destruct (modified d Event.date) eqn:MD; simpl.
    + destruct (get d Event.date) as [|s|l|i] eqn:GD; try discriminate.
      destruct (normalizeDate rt s) as [s'|e] eqn:ND; [|discriminate]. simpl.
      destruct (modified d Event.time) eqn:MTm; simpl.
      * destruct (get d Event.time) as [|tm|l|i] eqn:GTm; try discriminate.
        intros [= <-]. simpl. rewrite slug_setters_fixed, trim_trim.
        repeat split; try discriminate; eauto.
        intros p; destruct p; simpl; congruence.
      * intros [= <-]. simpl. rewrite slug_setters_fixed.
        repeat split; try discriminate; eauto.
        intros p; destruct p; simpl; congruence.
    + destruct (modified d Event.time) eqn:MTm; simpl.
      * destruct (get d Event.time) as [|tm|l|i] eqn:GTm; try discriminate.
        intros [= <-]. simpl. rewrite slug_setters_fixed, trim_trim.
        repeat split; try discriminate; eauto.
        intros p; destruct p; simpl; congruence.
      * intros [= <-]. simpl. rewrite slug_setters_fixed.
        repeat split; try discriminate; eauto.
        intros p; destruct p; simpl; congruence.
  - destruct (modified d Event.date) eqn:MD; simpl.
    + destruct (get d Event.date) as [|s|l|i] eqn:GD; try discriminate.
      destruct (normalizeDate rt s) as [s'|e] eqn:ND; [|discriminate]. simpl.
      destruct (modified d Event.time) eqn:MTm; simpl.
      * destruct (get d Event.time) as [|tm|l|i] eqn:GTm; try discriminate.
        intros [= <-]. simpl. rewrite trim_trim.
        repeat split; try discriminate; eauto.
        intros p; destruct p; simpl; congruence.
      * intros [= <-]. simpl.
        repeat split; try discriminate; eauto.
        intros p; destruct p; simpl; congruence.
    + destruct (modified d Event.time) eqn:MTm; simpl.
      * destruct (get d Event.time) as [|tm|l|i] eqn:GTm; try discriminate.
        intros [= <-]. simpl. rewrite trim_trim.
        repeat split; try discriminate; eauto.
        intros p; destruct p; simpl; congruence.
      * intros [= <-]. simpl.
        repeat split; try discriminate; eauto.
Qed.

(** X8: on the save of a document that is not new, the hook recomputes the
    slug only when the title was modified, normalises the date only when
    the date was modified and trims the time only when the time was
    modified; a path that was not modified keeps its value, and no other
    path is ever touched. *)
Theorem preSave_on_update rt (d d' : Event.doc) :
  Event.preSave rt d = Ok d' -> isNew d = false ->
  (isModified d Event.title = false -> get d' Event.slug = get d Event.slug) /\
  (isModified d Event.title = true ->
   exists t, get d Event.title = VString t /\
             get d' Event.slug = VString (generateSlug t)) /\
  (isModified d Event.date = false -> get d' Event.date = get d Event.date) /\
  (isModified d Event.time = false -> get d' Event.time = get d Event.time) /\
  (forall p, p <> Event.slug -> p <> Event.date -> p <> Event.time ->
             get d' p = get d p).
Proof.
  intros H N.
  destruct (preSave_result rt d d' H) as (_ & _ & O & [S1 S2] & [D1 _] & [T1 _]).
  rewrite N, orb_false_r in S1, S2. repeat split; assumption.
Qed.

Lemma preSave_on_update_witness :
  let d := {| _id := 1; isNew := false;
              modified := fun p => Event.path_eqb p Event.title;
              get := fun p =>
                if Event.path_eqb p Event.slug then VString (js "old-slug")
                else nextjsConf p |} in
  exists t, get d Event.title = VString t /\
            get (okOr d (Event.preSave utcRuntime d)) Event.slug
            = VString (generateSlug t).
Proof.
  intros d.
  refine (proj1 (proj2 (preSave_on_update utcRuntime d
            (okOr d (Event.preSave utcRuntime d)) _ _)) _);
    reflexivity.
Defined.

(** ** Creating an event *)

Lemma lookup_app_new {path : Type} (c : collection path) id f :
  existsb (fun r => fst r =? id) c = false ->
  lookup (c ++ [(id, f)]) id = Some f.
Proof.
  unfold lookup. intros H.
  induction c as [|r t IH]; simpl in *.
  - now rewrite N.eqb_refl.
  - apply orb_false_iff in H as [H1 H2]. rewrite H1. apply IH, H2.
Qed.

Lemma newEvent_string rt id obj p s :
  get (Event.newEvent rt id obj) p = VString s ->
  exists raw, obj p = VString raw.
Proof.
  simpl. unfold applySetters, applyDefault.
  destruct (obj p) as [|raw|l|i]; try (destruct (type _); discriminate); eauto.
Qed.

(** What a successful create has done. *)
Lemma createEvent_result rt db obj d db' :
  createEvent rt db obj = (Ok d, db') ->
  exists d0,
    Event.validate rt (Event.newEvent rt (nextId db) obj) = [] /\
    Event.preSave rt (Event.newEvent rt (nextId db) obj) = Ok d0 /\
    get d = get d0 /\ isNew d = false /\ _id d = nextId db /\
    (forall p, modified d p = false) /\
    existsb (fun r => fst r =? nextId db) (events db) = false /\
    db' = {| nextId := nextId db + 1;
             events := events db ++ [(nextId db, get d)];
             bookings := bookings db |}.
Proof.
  unfold createEvent, Event.saveEvent, save.
  fold (Event.validate rt (Event.newEvent rt (nextId db) obj)).
  destruct (Event.validate rt _) eqn:V; [|discriminate].
  destruct (Event.preSave rt _) as [d0|e] eqn:P; [|discriminate].
  destruct (preSave_result _ _ _ P) as (I & Nw & _).
  rewrite Nw. simpl. unfold insertOne.
  destruct (existsb _ (events db)) eqn:X; [discriminate|].
  destruct (uniqueViolation _ _ _ _ _); [discriminate|].
  rewrite I in *. simpl in *.
  intros [= <- <-]. exists d0. simpl. repeat split; auto.
Qed.

(** The text paths of a new document that passes validation were given as
    strings. *)
Lemma validated_text rt id obj p r t m :
  Event.validate rt (Event.newEvent rt id obj) = [] ->
  Event.eventSchema rt p = Event.textPath r t m ->
  exists raw, obj p = VString raw.
Proof.
  intros V E.
  pose proof (validateDoc_nil _ _ _ _ _ p V (Event_paths_all p)) as H.
  rewrite E in H. apply passes_textPath in H as [s Hs].
  exact (newEvent_string _ _ _ _ _ Hs).
Qed.

(** X9: a create that succeeds has stored the document under a new
    identifier, where a lookup finds it; its title and its time are the
    trimmed values given, its slug is the slug of the title given, and every
    path other than slug, date and time holds the value given, after the
    setters and the default of the path. *)
Theorem createEvent_stores rt db obj (d : Event.doc) db' :
  createEvent rt db obj = (Ok d, db') ->
  lookup (events db') (nextId db) = Some (get d) /\
  events db' = events db ++ [(nextId db, get d)] /\
  bookings db' = bookings db /\ nextId db' = nextId db + 1 /\
  isNew d = false /\
  (exists t tm,
     obj Event.title = VString t /\ obj Event.time = VString tm /\
     get d Event.title = VString (trim t) /\
     get d Event.slug = VString (generateSlug t) /\
     get d Event.time = VString (trim tm)) /\
  (forall p, p <> Event.slug -> p <> Event.date -> p <> Event.time ->
     get d p = applySetters (Event.eventSchema rt p)
                 (applyDefault (Event.eventSchema rt p) (obj p))).
Proof.
  intros C.
  destruct (createEvent_result _ _ _ _ _ C)
    as (d0 & V & P & G & Nw & I & _ & X & ->).
  destruct (preSave_result _ _ _ P)
    as (_ & _ & O & [_ S] & _ & [_ T]).
  simpl. split; [apply lookup_app_new, X|]. repeat split; auto.
  - destruct (validated_text rt _ obj Event.title _ _ _ V eq_refl) as [t Ht].
    destruct (validated_text rt _ obj Event.time _ _ _ V eq_refl) as [tm Htm].
    exists t, tm. rewrite G.
    destruct (S (orb_true_r _)) as (t' & Gt & Gs).
    rewrite (newEvent_title rt _ _ _ Ht) in Gt. injection Gt as <-.
    rewrite generateSlug_trim in Gs.
    assert (Mt : isModified (Event.newEvent rt (nextId db) obj) Event.time
                 = true) by (simpl; now rewrite Htm).
    destruct (T Mt) as (s & Hs & Ht'). simpl in Hs. rewrite Htm in Hs.
    simpl in Hs. injection Hs as <-. rewrite Ht', trim_trim, Gs.
    repeat split; auto.
    rewrite (O Event.title) by discriminate.
    apply (newEvent_title rt _ _ _ Ht).
  - intros p H1 H2 H3. rewrite G, (O p H1 H2 H3). reflexivity.
Qed.

Lemma createEvent_stores_witness :
  lookup (events dbWithNextjsConf) 1
  = Some (get (okOr (Event.newEvent utcRuntime 0 nextjsConf)
                 (fst (createEvent utcRuntime emptyDb nextjsConf)))).
Proof.
  refine (proj1 (createEvent_stores utcRuntime emptyDb nextjsConf
            (okOr (Event.newEvent utcRuntime 0 nextjsConf)
               (fst (createEvent utcRuntime emptyDb nextjsConf)))
            dbWithNextjsConf _)).
  reflexivity.
Defined.

(** On a strict host the date validator accepts dates of the calendar
    only. *)
Lemma dateValidator_strict rt v :
  strictHost rt -> dateValidator rt v = true ->
  exists y m d, realDate y m d /\ v = isoDate y m d.
Proof.
  intros S. unfold dateValidator.
  destruct (test isoDateRegex v) eqn:T; [|discriminate]. simpl.
  apply DateFacts.isoDateRegex_isoDate in T as (y & m & d & Hy & Hm & Hd & ->).
  intros H. exists y, m, d. split; [|reflexivity].
  destruct (realDate_dec y m d) as [R|R]; [exact R|].
  unfold ESDate.parse in H.
  rewrite (parseISO_not_real rt y m d Hy Hm Hd R), S in H. discriminate.
Qed.

(** X10: the date of an event that was created is the result of
    [normalizeDate] on the date given, which was of the pattern
    [YYYY-MM-DD] already; it is the date given whenever that names a date
    of the calendar, and always on a host that parses the standard format
    only. *)
Theorem createEvent_date rt db obj (d : Event.doc) db' :
  createEvent rt db obj = (Ok d, db') ->
  exists s s',
    obj Event.date = VString s /\ test isoDateRegex s = true /\
    normalizeDate rt s = Ok s' /\ get d Event.date = VString s' /\
    (forall y m dd, realDate y m dd -> s = isoDate y m dd -> s' = s) /\
    (strictHost rt -> s' = s).
Proof.
  intros C.
  destruct (createEvent_result _ _ _ _ _ C) as (d0 & V & P & G & _).
  destruct (preSave_result _ _ _ P) as (_ & _ & _ & _ & [_ D] & _).
  pose proof (validateDoc_nil _ _ _ _ _ Event.date V
                (Event_paths_all Event.date)) as Pd.
  apply passes_date in Pd as (s & Hs & Hv).
  destruct (newEvent_string _ _ _ _ _ Hs) as [raw Hraw].
  assert (E : raw = s) by (simpl in Hs; rewrite Hraw in Hs; now injection Hs).
  subst raw.
  assert (M : isModified (Event.newEvent rt (nextId db) obj) Event.date = true)
    by (simpl; now rewrite Hraw).
  destruct (D M) as (s1 & s' & H1 & Hn & Hd). rewrite Hs in H1.
  injection H1 as <-.
  assert (R : forall y m dd, realDate y m dd -> s = isoDate y m dd -> s' = s).
  { intros y m dd Rd ->. rewrite (normalizeDate_realDate rt y m dd Rd) in Hn.
    now injection Hn. }
  exists s, s'. rewrite G. repeat split; auto.
  - unfold dateValidator in Hv.
    destruct (test isoDateRegex s); [reflexivity | discriminate].
  - intros S. destruct (dateValidator_strict rt s S Hv) as (y & m & dd & Rd & E).
    exact (R y m dd Rd E).
Qed.

Lemma createEvent_date_witness :
  exists s s',
    nextjsConf Event.date = VString s /\ test isoDateRegex s = true /\
    normalizeDate utcRuntime s = Ok s' /\
    get (okOr (Event.newEvent utcRuntime 0 nextjsConf)
           (fst (createEvent utcRuntime emptyDb nextjsConf))) Event.date
    = VString s' /\
    (forall y m dd, realDate y m dd -> s = isoDate y m dd -> s' = s) /\
    (strictHost utcRuntime -> s' = s).
Proof.
  apply (createEvent_date utcRuntime emptyDb nextjsConf _ dbWithNextjsConf).
  reflexivity.
Defined.

(** ** The store: identifiers and slugs stay distinct *)

Lemma strings_eqb_refl l : strings_eqb l l = true.
Proof.
  induction l as [|s t IH]; simpl; [reflexivity|].
  now rewrite string_eqb_refl, IH.
Qed.

Lemma value_eqb_refl v : value_eqb v v = true.
Proof.
  destruct v; simpl; auto using string_eqb_refl, strings_eqb_refl, N.eqb_refl.
Qed.

Lemma existsb_none {A : Type} (f : A -> bool) l x :
  existsb f l = false -> In x l -> f x = false.
Proof.
  intros H Hin. destruct (f x) eqn:E; [|reflexivity].
  assert (existsb f l = true) by (apply existsb_exists; eauto). congruence.
Qed.

Lemma NoDup_snoc {A : Type} (l : list A) x :
  NoDup l -> ~ In x l -> NoDup (l ++ [x]).
Proof.
  induction 1 as [|y t Hy Ht IH]; intros Hx; simpl.
  - constructor; [intros [] | constructor].
  - constructor.
    + intros Hin. apply in_app_or in Hin as [Hin|[<-|[]]]; [auto|].
      apply Hx. now left.
    + apply IH. intros Hin. apply Hx. now right.
Qed.

(** No unique index is violated: no other document has the slug. *)
Lemma uniqueViolation_none rt c id f r :
  uniqueViolation Event.paths (Event.eventSchema rt) c id f = None ->
  In r c -> fst r <> id -> snd r Event.slug <> f Event.slug.
Proof.
  rewrite uniqueViolation_slug.
  destruct (existsb _ c) eqn:X; [discriminate|]. intros _ Hin Hne E.
  pose proof (existsb_none _ _ r X Hin) as H. simpl in H.
  apply N.eqb_neq in Hne. rewrite Hne, E, value_eqb_refl in H. discriminate.
Qed.

Lemma insertOne_distinct rt c id f c' :
  distinctIds c -> distinctSlugs c ->
  insertOne Event.paths Event.pathName (Event.eventSchema rt) c id f = Ok c' ->
  distinctIds c' /\ distinctSlugs c'.
Proof.
  unfold distinctIds, distinctSlugs, insertOne. intros Di Ds.
  destruct (existsb _ c) eqn:X; [discriminate|].
  destruct (uniqueViolation _ _ c id f) eqn:U; [discriminate|].
  intros [= <-]. rewrite !map_app. simpl.
  assert (Fresh : forall r, In r c -> fst r <> id).
  { intros r Hr. apply N.eqb_neq. exact (existsb_none _ _ r X Hr). }
  split; apply NoDup_snoc; auto.
  - intros Hin. apply in_map_iff in Hin as (r & E & Hr).
    exact (Fresh r Hr E).
  - intros Hin. apply in_map_iff in Hin as (r & E & Hr).
    exact (uniqueViolation_none rt c id f r U Hr (Fresh r Hr) E).
Qed.

Lemma map_replace_none {path : Type} (c : collection path) id
    (f : path -> value) :
  (forall r, In r c -> fst r <> id) ->
  map (fun r => if fst r =? id then (id, f) else r) c = c.
Proof.
  induction c as [|r t IH]; intros H; simpl; [reflexivity|].
  assert (E : (fst r =? id) = false)
    by (apply N.eqb_neq, H; now left).
  rewrite E, IH; [reflexivity|]. intros x Hx. apply H. now right.
Qed.

Lemma replace_ids {path : Type} (c : collection path) id (f : path -> value) :
  map fst (map (fun r => if fst r =? id then (id, f) else r) c) = map fst c.
Proof.
  induction c as [|r t IH]; simpl; [reflexivity|]. rewrite IH.
  destruct (N.eqb_spec (fst r) id) as [->|]; reflexivity.
Qed.

Lemma replace_distinctSlugs (c : collection Event.path) id f :
  distinctIds c -> distinctSlugs c ->
  (forall r, In r c -> fst r <> id -> snd r Event.slug <> f Event.slug) ->
  distinctSlugs (map (fun r => if fst r =? id then (id, f) else r) c).
Proof.
  unfold distinctIds, distinctSlugs.
  induction c as [|r t IH]; intros Di Ds H; simpl; [constructor|].
  simpl in Di, Ds. apply NoDup_cons_iff in Di as [Di1 Di2].
  apply NoDup_cons_iff in Ds as [Ds1 Ds2].
  destruct (N.eqb_spec (fst r) id) as [E|E].
  - rewrite map_replace_none.
    + simpl. constructor; [|exact Ds2].
      intros Hin. apply in_map_iff in Hin as (x & Ex & Hx).
      apply (H x (or_intror Hx)); [|exact Ex].
      intros Ei. apply Di1. apply in_map_iff. exists x. split; congruence.
    + intros x Hx Ei. apply Di1. apply in_map_iff. exists x.
      split; congruence.
  - constructor.
    + intros Hin. apply in_map_iff in Hin as (x & Ex & Hx).
      apply in_map_iff in Hx as (x0 & <- & Hx0).
      destruct (N.eqb_spec (fst x0) id).
      * simpl in Ex. apply (H r (or_introl eq_refl) E). congruence.
      * apply Ds1. apply in_map_iff. exists x0. split; assumption.
    + apply IH; auto. intros x Hx. apply H. now right.
Qed.

Lemma in_lookup {path : Type} (c : collection path) id old :
  lookup c id = Some old -> exists r, In r c /\ fst r = id.
Proof.
  unfold lookup. destruct (find _ c) as [r|] eqn:F; [|discriminate].
  intros _. apply find_some in F as [Hin E]. apply N.eqb_eq in E. eauto.
Qed.

Lemma updateOne_distinct rt c (d : Event.doc) c' :
  distinctIds c -> distinctSlugs c ->
  updateOne Event.paths Event.pathName (Event.eventSchema rt) c d = Ok c' ->
  distinctIds c' /\ distinctSlugs c'.
Proof.
  intros Di Ds. unfold updateOne.
  destruct (lookup c (_id d)) as [old|]; [|discriminate].
  destruct (uniqueViolation _ _ c (_id d) _) eqn:U; [discriminate|].
  intros [= <-]. split.
  - unfold distinctIds. rewrite replace_ids. exact Di.
  - apply replace_distinctSlugs; auto.
    intros r Hr Hne. exact (uniqueViolation_none rt c _ _ r U Hr Hne).
Qed.

(** X11: every save of an event, of a new document or of a stored one,
    successful or not, leaves a collection in which no two documents share
    an identifier and no two share a slug, when it found one. *)
Theorem saveEvent_keeps_slugs_unique rt (c : collection Event.path)
    (d : Event.doc) :
  distinctIds c -> distinctSlugs c ->
  distinctIds (snd (Event.saveEvent rt c d)) /\
  distinctSlugs (snd (Event.saveEvent rt c d)).
Proof.
  intros Di Ds. unfold Event.saveEvent, save.
  destruct (validateDoc _ _ _ d); [|simpl; auto].
  destruct (Event.preSave rt d) as [d'|e]; [|simpl; auto].
  destruct (isNew d').
  - destruct (insertOne _ _ _ c _ _) as [c'|e] eqn:I; [|simpl; auto].
    simpl. exact (insertOne_distinct rt c _ _ c' Di Ds I).
  - destruct (updateOne _ _ _ c d') as [c'|e] eqn:U; [|simpl; auto].
    simpl. exact (updateOne_distinct rt c d' c' Di Ds U).
Qed.

Lemma saveEvent_keeps_slugs_unique_witness :
  distinctSlugs
    (events (snd (createEvent utcRuntime dbWithNextjsConf
                    (sampleEvent (js "React Summit US 2025") (js "2025-09-12")
                       (js "offline"))))).
Proof.
  refine (proj2 (saveEvent_keeps_slugs_unique utcRuntime
            (events dbWithNextjsConf)
            (Event.newEvent utcRuntime 2
               (sampleEvent (js "React Summit US 2025") (js "2025-09-12")
                  (js "offline"))) _ _)).
  - vm_compute. constructor; [intros [] | constructor].
  - vm_compute. constructor; [intros [] | constructor].
Defined.

(** ** What a save can report *)

(** [normalizeDate] fails with the format error only. *)
Lemma normalizeDate_error rt s e :
  normalizeDate rt s = Err e -> e = JsError (invalidDateFormat s).
Proof.
  unfold normalizeDate.
  destruct (ESDate.parse rt s); [discriminate|].
  destruct (test isoDateRegex s); [discriminate|]. now intros [= <-].
Qed.

(** The hook fails in two ways only: with a TypeError, on a title or a time
    that is not a string, and with the format error of lines 192-194. *)
Lemma preSave_error rt (d : Event.doc) e :
  Event.preSave rt d = Err e ->
  e = TypeError \/ exists s, e = JsError (invalidDateFormat s).
Proof.
  unfold Event.preSave.
  destruct (isModified d Event.title || isNew d).
  - destruct (get d Event.title) as [|t| |]; try (intros [= <-]; auto).
    set (d1 := Event.assign rt Event.slug _ d).
    destruct (isModified d1 Event.date).
    + destruct (get d1 Event.date) as [|s| |]; try (intros [= <-]; eauto).
      destruct (normalizeDate rt s) as [s'|e'] eqn:N.
      * set (d2 := Event.assign rt Event.date _ d1).
        destruct (isModified d2 Event.time); [|discriminate].
        destruct (get d2 Event.time); try discriminate; intros [= <-]; auto.
      * apply normalizeDate_error in N. intros [= <-]. eauto.
    + destruct (isModified d1 Event.time); [|discriminate].
      destruct (get d1 Event.time); try discriminate; intros [= <-]; auto.
  - destruct (isModified d Event.date).
    + destruct (get d Event.date) as [|s| |]; try (intros [= <-]; eauto).
      destruct (normalizeDate rt s) as [s'|e'] eqn:N.
      * set (d2 := Event.assign rt Event.date _ d).
        destruct (isModified d2 Event.time); [|discriminate].
        destruct (get d2 Event.time); try discriminate; intros [= <-]; auto.
      * apply normalizeDate_error in N. intros [= <-]. eauto.
    + destruct (isModified d Event.time); [|discriminate].
      destruct (get d Event.time); try discriminate; intros [= <-]; auto.
Qed.

(** X12: the errors of the pre-save hook are never what a save reports.  On
    every document that passes validation the hook succeeds; and a document
    on which the hook would fail (with a TypeError, or with the format
    error of [normalizeDate], its only errors) has failed validation, so
    the save reports the validation error, without running the hook and
    without a write. *)
Theorem preSave_errors_unreachable rt (c : collection Event.path)
    (d : Event.doc) :
  (Event.validate rt d = [] -> exists d', Event.preSave rt d = Ok d') /\
  (forall e, Event.preSave rt d = Err e ->
     (e = TypeError \/ exists s, e = JsError (invalidDateFormat s)) /\
     Event.validate rt d <> [] /\
     Event.saveEvent rt c d
     = (Err (ValidationError (Event.validate rt d)), c)).
Proof.
  split; [apply preSave_valid|].
  intros e P.
  assert (V : Event.validate rt d <> []).
  { intros V. destruct (preSave_valid rt d V) as [d' P']. congruence. }
  split; [exact (preSave_error rt d e P)|]. split; [exact V|].
  apply save_invalid. exact V.
Qed.

(** X13: a create that fails, of an event or of a booking, leaves both
    collections as they were; for a booking, also when it fails because the
    store failed the lookup of the event. *)
Theorem failed_create_writes_nothing rt db :
  (forall obj e,
     fst (createEvent rt db obj) = Err e ->
     events (snd (createEvent rt db obj)) = events db /\
     bookings (snd (createEvent rt db obj)) = bookings db) /\
  (forall fault obj e,
     fst (createBooking fault db obj) = Err e ->
     events (snd (createBooking fault db obj)) = events db /\
     bookings (snd (createBooking fault db obj)) = bookings db).
Proof.
  split; [intros obj e | intros fault obj e].
  - unfold createEvent.
    destruct (Event.saveEvent rt (events db) _) as [r c] eqn:S. simpl.
    intros ->. split; [|reflexivity].
    exact (save_error_no_write _ _ _ _ _ _ _ _ _ S).
  - unfold createBooking.
    destruct (Booking.saveBooking fault (events db) (bookings db) _)
      as [r c] eqn:S.
    simpl. intros ->. split; [reflexivity|].
    exact (save_error_no_write _ _ _ _ _ _ _ _ _ S).
Qed.

Lemma failed_create_writes_nothing_witness :
  events (snd (createEvent utcRuntime dbWithNextjsConf nextjsConfAgain))
  = events dbWithNextjsConf.
Proof.
  refine (proj1 (proj1 (failed_create_writes_nothing utcRuntime
            dbWithNextjsConf) nextjsConfAgain
            (DuplicateKeyError (js "slug")) _)).
  reflexivity.
Defined.

(** ** booking.model.ts: validation and save *)

Lemma passes_eventId_iff v :
  passes (Booking.bookingSchema Booking.eventId) v <->
  exists id, v = VObjectId id.
Proof.
  unfold passes, validatePath, checkRequired. simpl. split.
  - destruct v as [|s|l|i]; try discriminate. eauto.
  - intros (id & ->). reflexivity.
Qed.

Lemma passes_email_iff v :
  passes (Booking.bookingSchema Booking.email) v <->
  exists s, v = VString s /\ wellFormedEmail s.
Proof.
  split.
  - destruct v as [|s|l|i];
      try (unfold passes, validatePath, checkRequired; simpl; discriminate).
    intros H. exists s. split; [reflexivity|].
    apply emailValidator_spec, email_passes_iff, H.
  - intros (s & -> & W). apply email_passes_iff, emailValidator_spec, W.
Qed.

(** X14: a Booking document passes validation exactly when [eventId] is an
    ObjectId and [email] is a string of the form the email pattern accepts:
    a local part, [@] and a domain with a dot inside. *)
Theorem booking_validation_accepts (d : Booking.doc) :
  Booking.validate d = [] <-> acceptableBooking d.
Proof.
  unfold acceptableBooking. split.
  - intros V.
    pose proof (fun p => validateDoc_nil _ _ _ _ d p V (Booking_paths_all p))
      as P.
    split; [apply passes_eventId_iff, P | apply passes_email_iff, P].
  - intros [H1 H2]. apply validateDoc_all_pass. intros p _.
    destruct p; [apply passes_eventId_iff, H1 | apply passes_email_iff, H2].
Qed.

Lemma uniqueViolation_booking c id f :
  uniqueViolation Booking.paths Booking.bookingSchema c id f = None.
Proof. reflexivity. Qed.

(** What a successful save of a booking implies. *)
Lemma saveBooking_ok fault events c (d d' : Booking.doc) c' :
  Booking.saveBooking fault events c d = (Ok d', c') ->
  Booking.validate d = [] /\ get d' = get d /\ _id d' = _id d /\
  fault = None /\
  exists id f, get d Booking.eventId = VObjectId id /\
               lookup events id = Some f.
Proof.
  unfold Booking.saveBooking, save. fold (Booking.validate d).
  destruct (Booking.validate d); [|discriminate].
  unfold Booking.preSave, Booking.findEvent, findById.
  destruct fault as [[m|]|];
    [destruct (get d Booking.eventId); discriminate
    |destruct (get d Booking.eventId); discriminate|].
  destruct (get d Booking.eventId) as [|s|l|id] eqn:E; try discriminate.
  destruct (lookup events id) as [f|] eqn:L; [|discriminate].
  destruct (if isNew d then _ else _); [|discriminate].
  intros [= <- _]. simpl. repeat split; eauto.
Qed.

(** X15: a booking is written only for an event that is stored: whenever a
    save of a booking succeeds, new or not, its [eventId] is the identifier
    of a document of the events collection at that moment, the document had
    passed validation, and the store had answered the lookup. *)
Theorem saved_booking_has_event fault events (c : collection Booking.path)
    (d d' : Booking.doc) c' :
  Booking.saveBooking fault events c d = (Ok d', c') ->
  acceptableBooking d /\
  (exists id f,
     get d' Booking.eventId = VObjectId id /\ lookup events id = Some f) /\
  fault = None.
Proof.
  intros S.
  destruct (saveBooking_ok _ _ _ _ _ _ S) as (V & G & _ & F & id & f & E & L).
  split; [|split; [|exact F]].
  - unfold acceptableBooking.
    pose proof (fun p => validateDoc_nil _ _ _ _ d p V (Booking_paths_all p))
      as P.
    split; [apply passes_eventId_iff, P | apply passes_email_iff, P].
  - exists id, f. rewrite G. auto.
Qed.

Lemma saved_booking_has_event_witness :
  exists id f,
    get (okOr (Booking.newBooking 0 (sampleBooking 1 (js "a@b.co")))
           (fst (createBooking None dbWithNextjsConf
                   (sampleBooking 1 (js "a@b.co"))))) Booking.eventId
    = VObjectId id /\
    lookup (events dbWithNextjsConf) id = Some f.
Proof.
  refine (proj1 (proj2 (saved_booking_has_event None (events dbWithNextjsConf)
            (bookings dbWithNextjsConf)
            (Booking.newBooking 2 (sampleBooking 1 (js "a@b.co")))
            _ (snd (Booking.saveBooking None (events dbWithNextjsConf)
                      (bookings dbWithNextjsConf)
                      (Booking.newBooking 2 (sampleBooking 1 (js "a@b.co")))))
            _))).
  reflexivity.
Defined.

(** X16: creating a booking for a stored event, with an email of Latin-1
    characters (on which the lower-casing of [JS] is that of the language)
    that is well formed once trimmed and lower-cased, succeeds when the
    store answers the lookup of the event: the booking is stored under a
    new identifier, where a lookup finds it, with the event identifier given
    and the normalised email; the events are untouched. *)
Theorem createBooking_stores db obj id raw (f : Event.path -> value) :
  obj Booking.eventId = VObjectId id -> obj Booking.email = VString raw ->
  latin1 raw ->
  lookup (events db) id = Some f ->
  wellFormedEmail (toLowerCase (trim raw)) ->
  (forall r, In r (bookings db) -> fst r <> nextId db) ->
  exists d,
    createBooking None db obj
    = (Ok d, {| nextId := nextId db + 1; events := events db;
                bookings := bookings db ++ [(nextId db, get d)] |}) /\
    get d Booking.eventId = VObjectId id /\
    get d Booking.email = VString (toLowerCase (trim raw)) /\
    lookup (bookings db ++ [(nextId db, get d)]) (nextId db) = Some (get d).
Proof.
  intros E M _ L W Fresh.
  set (d0 := Booking.newBooking (nextId db) obj).
  assert (Ge : get d0 Booking.eventId = VObjectId id)
    by (simpl; now rewrite E).
  assert (Gm : get d0 Booking.email = VString (toLowerCase (trim raw)))
    by (simpl; now rewrite M).
  assert (V : Booking.validate d0 = []).
  { apply validateDoc_all_pass. intros p _. destruct p.
    - apply passes_eventId_iff. eauto.
    - apply passes_email_iff. eauto. }
  assert (X : existsb (fun r => fst r =? nextId db) (bookings db) = false).
  { apply existsb_false. intros r Hr. apply N.eqb_neq, Fresh, Hr. }
  exists {| _id := nextId db; isNew := false; modified := fun _ => false;
            get := get d0 |}.
  split; [|split; [exact Ge | split; [exact Gm | apply lookup_app_new, X]]].
  unfold createBooking, Booking.saveBooking, save. fold d0.
  fold (Booking.validate d0). rewrite V.
  unfold Booking.preSave, Booking.findEvent, findById. rewrite Ge, L. simpl.
  unfold insertOne. rewrite X, uniqueViolation_booking. reflexivity.
Qed.

Lemma createBooking_stores_witness :
  exists d,
    createBooking None dbWithNextjsConf
      (sampleBooking 1 (js "  USER@Example.COM "))
    = (Ok d, {| nextId := 3; events := events dbWithNextjsConf;
                bookings := [(2, get d)] |}) /\
    get d Booking.eventId = VObjectId 1 /\
    get d Booking.email = VString (js "user@example.com") /\
    lookup [(2, get d)] 2 = Some (get d).
Proof.
  refine (createBooking_stores dbWithNextjsConf
            (sampleBooking 1 (js "  USER@Example.COM ")) 1
            (js "  USER@Example.COM ")
            (get (okOr (Event.newEvent utcRuntime 0 nextjsConf)
                    (fst (createEvent utcRuntime emptyDb nextjsConf))))
            _ _ _ _ _ _).
  - reflexivity.
  - reflexivity.
  - unfold latin1. repeat constructor.
  - reflexivity.
  - exists (js "user"), (js "example"), (js "com").
    repeat split; try discriminate; repeat constructor.
  - intros r [].
Defined.

(** X17: the referential check guards every save, not only the first: of a
    booking that passes validation, new or stored before, a save fails and
    writes nothing when the event is not stored, with the error that names
    the identifier, and when the store fails the lookup, whether the event
    is stored or not: with what the driver threw if that is an Error (line
    63), and with the error of line 64 otherwise. *)
Theorem saveBooking_unknown_event events (c : collection Booking.path)
    (d : Booking.doc) :
  Booking.validate d = [] ->
  (forall id,
     get d Booking.eventId = VObjectId id -> lookup events id = None ->
     Booking.saveBooking None events c d
     = (Err (JsError (js "Event with ID " ++ Booking.toHexString id
                        ++ js " does not exist")), c)) /\
  (forall m,
     Booking.saveBooking (Some (ErrorObject m)) events c d
     = (Err (Thrown (ErrorObject m)), c)) /\
  Booking.saveBooking (Some OtherValue) events c d
  = (Err (JsError (js "Failed to validate event reference")), c).
Proof.
  intros V. unfold Booking.saveBooking, save.
  fold (Booking.validate d). rewrite V.
  split; [|split].
  - intros id E L.
    rewrite (preSave_unknown_event None events d id E L). reflexivity.
  - intros m. unfold Booking.preSave, Booking.findEvent, findById.
    destruct (get d Booking.eventId); reflexivity.
  - unfold Booking.preSave, Booking.findEvent, findById.
    destruct (get d Booking.eventId); reflexivity.
Qed.

Lemma saveBooking_unknown_event_witness :
  let d := {| _id := 9; isNew := false; modified := fun _ => false;
              get := sampleBooking 5 (js "a@b.co") |} in
  Booking.saveBooking None (events dbWithNextjsConf) [(9, get d)] d
  = (Err (JsError (js "Event with ID 000000000000000000000005 does not exist")),
     [(9, get d)]).
Proof.
  intros d.
  apply (proj1 (saveBooking_unknown_event (events dbWithNextjsConf)
                  [(9, get d)] d eq_refl) 5);
    reflexivity.
Defined.

(** ** lib/mongodb.ts: further behaviour of the connection cache *)

Module ConnectionMore.
Import Connection ConnectionFacts.

Lemma configured_iff st :
  configured st <-> exists uri, validateMongoUri st = Ok uri.
Proof.
  unfold configured, validateMongoUri. split.
  - intros (c & uri & ->). eauto.
  - destruct (MONGODB_URI st) as [[|c uri]|]; intros [u H]; try discriminate.
    eauto.
Qed.

(** X18: a call of [connectDB] starts a connection attempt exactly when no
    connection is cached, none is in progress and the URI is set; only then
    does it call [mongoose.connect] and make a promise, and in every other
    case it leaves the attempts and the promises as they were. *)
Theorem connectDB_starts_attempt_iff (st : state) :
  ((exists p, fst (connectDB st) = Awaiting p) <-> idle st /\ configured st) /\
  attempts (snd (connectDB st))
  = match fst (connectDB st) with
    | Awaiting _ => S (attempts st)
    | _ => attempts st
    end /\
  promises (snd (connectDB st))
  = match fst (connectDB st) with
    | Awaiting _ => promises st ++ [Pending]
    | _ => promises st
    end.
Proof.
  rewrite configured_iff.
  unfold connectDB, getMongooseCache, idle.
  destruct (mongoose st) as [[[h|] [q|]]|] eqn:M; simpl.
  - split; [|split; reflexivity].
    split; [intros [p Hp]; discriminate | intros [[Hc _] _]; discriminate].
  - split; [|split; reflexivity].
    split; [intros [p Hp]; discriminate | intros [[Hc _] _]; discriminate].
  - split; [|split; reflexivity].
    split; [intros [p Hp]; discriminate | intros [[_ Hq] _]; discriminate].
  - destruct (validateMongoUri st) as [u|e] eqn:V; simpl.
    + split; [|split; reflexivity]. split; eauto.
    + split; [|split; reflexivity].
      split; [intros [p Hp]; discriminate | intros [_ [u Hu]]; discriminate].
  - rewrite validateMongoUri_withCache.
    destruct (validateMongoUri st) as [u|e] eqn:V; simpl.
    + split; [|split; reflexivity]. split; eauto.
    + split; [|split; reflexivity].
      split; [intros [p Hp]; discriminate | intros [_ [u Hu]]; discriminate].
Qed.

(** X19: once a connection is established, every later call of
    [connectDB] returns the cached handle at once, makes no attempt and
    leaves the state as it is. *)
Theorem connect_reuses_handle st (h : handle) :
  idle st -> configured st ->
  let st2 := settle (List.length (promises st)) (Ok h) (snd (connectDB st)) in
  connectDB st2 = (Returned h, st2) /\
  complete (Returned h) st2 = Some (Ok h, st2) /\
  attempts st2 = S (attempts st).
Proof.
  intros I U. rewrite (connectDB_idle st I U). simpl snd.
  cbv zeta. rewrite settle_started. repeat split.
Qed.

Lemma connect_reuses_handle_witness :
  let st2 := settle 0%nat (Ok 7) (snd (connectDB devState)) in
  connectDB st2 = (Returned 7, st2) /\
  complete (Returned 7) st2 = Some (Ok 7, st2) /\
  attempts st2 = 1%nat.
Proof.
  apply (connect_reuses_handle devState 7).
  - exact I.
  - exists 109, (tl (js "mongodb://localhost:27017/dev-events")). reflexivity.
Defined.

(** X20: without a URI (undefined, or the empty string) a call on an empty
    cache throws the configuration error and attempts nothing; the cache
    stays empty, so every later call fails in the same way. *)
Theorem connect_without_uri st :
  idle st -> MONGODB_URI st = None \/ MONGODB_URI st = Some [] ->
  fst (connectDB st) = Threw (JsError noUriMessage) /\
  attempts (snd (connectDB st)) = attempts st /\
  promises (snd (connectDB st)) = promises st /\
  idle (snd (connectDB st)) /\
  connectDB (snd (connectDB st))
  = (Threw (JsError noUriMessage), snd (connectDB st)).
Proof.
  intros I U.
  assert (V : validateMongoUri st = Err (JsError noUriMessage)).
  { unfold validateMongoUri. destruct U as [-> | ->]; reflexivity. }
  unfold connectDB, getMongooseCache, idle in *.
  destruct (mongoose st) as [[cn pr]|] eqn:M; simpl in *.
  - destruct I as [-> ->]. rewrite V. simpl. rewrite M. simpl. rewrite V.
    repeat split.
  - rewrite validateMongoUri_withCache, V. simpl.
    rewrite validateMongoUri_withCache, V. repeat split.
Qed.

Lemma connect_without_uri_witness :
  fst (connectDB (EventLoop.cacheState (EventLoop.start None)))
  = Threw (JsError noUriMessage).
Proof.
  refine (proj1 (connect_without_uri
            (EventLoop.cacheState (EventLoop.start None)) _ _)).
  - exact I.
  - left. reflexivity.
Defined.

(** The state after a failed attempt and the resumption of its call. *)
Lemma resume_failed st r :
  resume (List.length (promises st))
    (settle (List.length (promises st)) (Err r) (started st))
  = Some (Err (JsError (js "Failed to connect to MongoDB: " ++ messageOf r)),
          cleared r st).
Proof.
  rewrite settle_started_failed. exact (proj1 (complete_failed r st)).
Qed.

(** X21: when the connection attempt fails, the call that started it throws
    an error whose message is "Failed to connect to MongoDB: " followed by
    the message of what the driver threw, if that is an Error, and by
    "Unknown error" otherwise; the pending marker is cleared and no
    connection is cached, so the next call starts a second attempt. *)
Theorem connect_failure_allows_retry st (r : thrown) :
  idle st -> configured st ->
  let p := List.length (promises st) in
  let st2 := settle p (Err r) (snd (connectDB st)) in
  fst (connectDB st) = Awaiting p /\
  exists st3,
    complete (Awaiting p) st2
    = Some (Err (JsError
                   (js "Failed to connect to MongoDB: "
                      ++ match r with
                         | ErrorObject m => m
                         | OtherValue => js "Unknown error"
                         end)),
            st3) /\
    idle st3 /\ configured st3 /\ attempts st3 = S (attempts st) /\
    fst (connectDB st3) = Awaiting (S p) /\
    attempts (snd (connectDB st3)) = S (S (attempts st)).
Proof.
  intros I U. cbv zeta. rewrite (connectDB_idle st I U). simpl fst. simpl snd.
  split; [reflexivity|].
  unfold complete. rewrite resume_failed. exists (cleared r st).
  split; [reflexivity|].
  assert (U' : configured (cleared r st)) by exact U.
  assert (I' : idle (cleared r st)) by (split; reflexivity).
  split; [exact I'|]. split; [exact U'|]. split; [reflexivity|].
  rewrite (connectDB_idle _ I' U'). simpl.
  rewrite length_app. simpl. rewrite Nat.add_1_r. split; reflexivity.
Qed.

Lemma connect_failure_allows_retry_witness :
  exists st3,
    complete (Awaiting 0%nat)
      (settle 0%nat (Err (ErrorObject (js "boom"))) (snd (connectDB devState)))
    = Some (Err (JsError (js "Failed to connect to MongoDB: boom")), st3) /\
    idle st3 /\ configured st3 /\ attempts st3 = 1%nat /\
    fst (connectDB st3) = Awaiting 1%nat /\
    attempts (snd (connectDB st3)) = 2%nat.
Proof.
  refine (proj2 (connect_failure_allows_retry devState
                   (ErrorObject (js "boom")) _ _)).
  - exact I.
  - exists 109, (tl (js "mongodb://localhost:27017/dev-events")). reflexivity.
Defined.

(** X22: a call that arrives while an attempt is in progress joins it and
    makes no attempt of its own; when the attempt fails it receives what the
    driver threw, as it is, not the wrapped error of the call that started
    the attempt.  A call that arrives after the failure, and before the
    call that started the attempt has resumed, still joins the rejected
    promise: it receives the same failure and starts no new attempt.  Only
    the resumption of the first call clears the pending marker. *)
Theorem joined_call_gets_raw_error st p (r : thrown) :
  mongoose st = Some {| conn := None; promise := Some p |} ->
  nth_error (promises st) p = Some Pending ->
  let st1 := settle p (Err r) st in
  connectDB st = (Joined p, st) /\
  complete (Joined p) st = None /\
  complete (Joined p) st1 = Some (Err (Thrown r), st1) /\
  connectDB st1 = (Joined p, st1) /\
  attempts st1 = attempts st /\
  exists st2,
    resume p st1
    = Some (Err (JsError (js "Failed to connect to MongoDB: " ++ messageOf r)),
            st2) /\
    idle st2 /\
    complete (Joined p) st2 = Some (Err (Thrown r), st2).
Proof.
  intros M P. cbv zeta.
  assert (S1 : settle p (Err r) st
               = {| MONGODB_URI := MONGODB_URI st; mongoose := mongoose st;
                    promises := settleAt p (Rejected r) (promises st);
                    attempts := attempts st |})
    by (unfold settle; rewrite P; reflexivity).
  pose proof (nth_error_settleAt _ _ (Rejected r) P) as R.
  rewrite S1.
  split; [unfold connectDB, getMongooseCache; rewrite M; reflexivity|].
  split; [unfold complete; rewrite P; reflexivity|].
  split; [unfold complete; simpl; rewrite R; reflexivity|].
  split; [unfold connectDB, getMongooseCache; simpl; rewrite M; reflexivity|].
  split; [reflexivity|].
  unfold resume. simpl. rewrite R, M. simpl. eexists.
  split; [reflexivity|]. split; [split; reflexivity|].
  unfold complete. simpl. rewrite R. reflexivity.
Qed.

Lemma joined_call_gets_raw_error_witness :
  let st := started devState in
  let st1 := settle 0%nat (Err (ErrorObject (js "boom"))) st in
  connectDB st = (Joined 0%nat, st) /\
  complete (Joined 0%nat) st = None /\
  complete (Joined 0%nat) st1
  = Some (Err (Thrown (ErrorObject (js "boom"))), st1) /\
  connectDB st1 = (Joined 0%nat, st1) /\
  attempts st1 = attempts st /\
  exists st2,
    resume 0%nat st1
    = Some (Err (JsError (js "Failed to connect to MongoDB: boom")), st2) /\
    idle st2 /\
    complete (Joined 0%nat) st2
    = Some (Err (Thrown (ErrorObject (js "boom"))), st2).
Proof.
  apply (joined_call_gets_raw_error (started devState) 0%nat
           (ErrorObject (js "boom")));
    reflexivity.
Defined.

End ConnectionMore.

(** ** lib/mongodb.ts: disconnectDB, and connectDB under any schedule *)

Module EventLoopFacts.
Import Connection ConnectionFacts EventLoop.

(** [disconnectDB] with nothing in between, case by case. *)
Lemma disconnectNow_cases outcome st :
  match mongoose st with
  | Some {| conn := Some h; promise := _ |} =>
      disconnectDB st = (Closing h, st) /\
      disconnectNow outcome st
      = match outcome with
        | Ok _ => (Ok tt, withCache {| conn := None; promise := None |} st)
        | Err r => (Err (Thrown r), st)
        end
  | Some {| conn := None; promise := _ |} =>
      disconnectDB st = (NothingCached, st) /\
      disconnectNow outcome st = (Ok tt, st)
  | None =>
      disconnectNow outcome st
      = (Ok tt, withCache {| conn := None; promise := None |} st)
  end.
Proof.
  unfold disconnectNow, disconnectDB, getMongooseCache, disconnected.
  destruct (mongoose st) as [[[h|] pr]|] eqn:M; simpl.
  - split; [reflexivity|]. destruct outcome; [|reflexivity].
    unfold withCache. rewrite M. reflexivity.
  - split; reflexivity.
  - reflexivity.
Qed.

(** X23: [disconnectDB], run with no other job between its check and its
    assignments, makes no connection attempt.  With a connection cached it
    waits for [disconnect()]: when that succeeds, the connection and the
    pending marker are cleared, the next call of [connectDB] starts a new
    attempt and a further disconnect changes nothing; when that is
    rejected, the call is rejected with the same value, the cache is left
    as it was and [connectDB] goes on returning the cached handle.  With no
    connection cached it changes nothing, so an attempt in progress stays
    in progress. *)
Theorem disconnectDB_clears (st : state) (outcome : resultOf thrown unit) :
  attempts (snd (disconnectNow outcome st)) = attempts st /\
  promises (snd (disconnectNow outcome st)) = promises st /\
  (forall c h, mongoose st = Some c -> conn c = Some h ->
     disconnectDB st = (Closing h, st) /\
     (let st1 := withCache {| conn := None; promise := None |} st in
      disconnectNow (Ok tt) st = (Ok tt, st1) /\
      idle st1 /\
      disconnectNow outcome st1 = (Ok tt, st1) /\
      (configured st ->
       fst (connectDB st1) = Awaiting (List.length (promises st)) /\
       attempts (snd (connectDB st1)) = S (attempts st))) /\
     (forall r,
        disconnectNow (Err r) st = (Err (Thrown r), st) /\
        connectDB st = (Returned h, st))) /\
  (forall c, mongoose st = Some c -> conn c = None ->
     disconnectDB st = (NothingCached, st) /\
     disconnectNow outcome st = (Ok tt, st)).
Proof.
  pose proof (disconnectNow_cases outcome st) as D.
  pose proof (disconnectNow_cases (Ok tt) st) as D1.
  pose proof (fun r => disconnectNow_cases (Err r) st) as D2.
  destruct (mongoose st) as [[[h|] pr]|] eqn:M.
  - destruct D as [D0 D]. rewrite D.
    split; [destruct outcome; reflexivity|].
    split; [destruct outcome; reflexivity|].
    split.
    + intros c h0 [= <-] [= <-]. split; [exact D0|]. split.
      * cbv zeta. split; [exact (proj2 D1)|].
        assert (I : idle (withCache {| conn := None; promise := None |} st))
          by (split; reflexivity).
        split; [exact I|]. split; [reflexivity|].
        intros U. rewrite (connectDB_idle _ I U). split; reflexivity.
      * intros r. split; [exact (proj2 (D2 r))|].
        unfold connectDB, getMongooseCache. rewrite M. reflexivity.
    + intros c [= <-] Hc. discriminate Hc.
  - destruct D as [D0 D]. rewrite D.
    split; [reflexivity|]. split; [reflexivity|].
    split.
    + intros c h0 [= <-] Hc. discriminate Hc.
    + intros c _ _. split; [exact D0 | reflexivity].
  - rewrite D.
    split; [reflexivity|]. split; [reflexivity|].
    split; intros; discriminate.
Qed.

Lemma nth_error_settleAt_other ps : forall p q v,
  p <> q -> nth_error (settleAt p v ps) q = nth_error ps q.
Proof.
  induction ps as [|s t IH]; intros [|p] [|q] v H; simpl; try reflexivity.
  - congruence.
  - destruct s; reflexivity.
  - destruct s; reflexivity.
  - rewrite <- (IH p q v) by congruence. destruct s; reflexivity.
Qed.

Lemma settleAt_length ps : forall p v,
  List.length (settleAt p v ps) = List.length ps.
Proof.
  induction ps as [|s t IH]; intros [|p] v; simpl; try reflexivity.
  - destruct s; reflexivity.
  - rewrite <- (IH p v). destruct s; reflexivity.
Qed.

Lemma isSuspended_In w p : isSuspended w p = true -> In p (suspended w).
Proof.
  unfold isSuspended. intros H. apply existsb_exists in H as (q & Hq & E).
  apply Nat.eqb_eq in E. now subst.
Qed.

Lemma consistent_start uri : consistent (start uri).
Proof.
  unfold consistent, start. simpl. repeat split.
  - intros [|p]; discriminate.
  - intros p e [].
  - constructor.
  - intros p [].
Qed.

(** A call that makes an attempt. *)
Lemma consistent_attempt w c :
  consistent w ->
  (mongoose (cacheState w) = None \/
   mongoose (cacheState w) = Some {| conn := None; promise := None |}) ->
  consistent
    {| cacheState :=
         {| MONGODB_URI := MONGODB_URI c;
            mongoose :=
              Some {| conn := None;
                      promise := Some (List.length (promises (cacheState w))) |};
            promises := promises (cacheState w) ++ [Pending];
            attempts := S (attempts (cacheState w)) |};
       suspended := List.length (promises (cacheState w)) :: suspended w |}.
Proof.
  intros (I1 & I2 & I3 & I4 & I5) M. unfold consistent. simpl.
  set (ps := promises (cacheState w)) in *.
  assert (NoPending : forall p, nth_error ps p <> Some Pending).
  { intros p H. specialize (I1 p H). destruct M as [M|M]; congruence. }
  assert (NoStale : forall p e, In p (suspended w) ->
                                nth_error ps p <> Some (Rejected e)).
  { intros p e Hin H. specialize (I2 p e Hin H).
    destruct M as [M|M]; congruence. }
  repeat split.
  - intros p H. destruct (Nat.lt_trichotomy p (List.length ps)) as [L|[->|G]].
    + rewrite nth_error_app1 in H by exact L. destruct (NoPending p H).
    + reflexivity.
    + assert (E : nth_error (ps ++ [Pending]) p = None).
      { apply nth_error_None. rewrite length_app. simpl. lia. }
      congruence.
  - intros p e [<-|Hin] H.
    + rewrite nth_error_last in H. discriminate.
    + rewrite nth_error_app1 in H by (apply I5, Hin).
      destruct (NoStale p e Hin H).
  - constructor; [|exact I3]. intros Hin. specialize (I5 _ Hin). lia.
  - rewrite length_app. simpl. lia.
  - intros p [<-|Hin]; rewrite length_app; simpl; [lia|].
    specialize (I5 _ Hin). lia.
Qed.

(** A job that changes neither promises nor the fields of the cache that
    matter. *)
Lemma consistent_same w st' :
  consistent w ->
  promises st' = promises (cacheState w) ->
  attempts st' = attempts (cacheState w) ->
  (mongoose st' = mongoose (cacheState w) \/
   ((mongoose (cacheState w) = None) /\
    mongoose st' = Some {| conn := None; promise := None |})) ->
  consistent {| cacheState := st'; suspended := suspended w |}.
Proof.
  intros (I1 & I2 & I3 & I4 & I5) P A M. unfold consistent. simpl.
  rewrite P, A. repeat split; auto.
  - intros p H. specialize (I1 p H). destruct M as [->|[M _]]; congruence.
  - intros p e Hin H. specialize (I2 p e Hin H).
    destruct M as [->|[M _]]; congruence.
Qed.

Lemma consistent_call w : consistent w -> consistent (step w Call).
Proof.
  intros C. unfold step, connectDB, getMongooseCache.
  destruct (mongoose (cacheState w)) as [[[h|] [q|]]|] eqn:M; simpl.
  - apply consistent_same; auto.
  - apply consistent_same; auto.
  - apply consistent_same; auto.
  - destruct (validateMongoUri (cacheState w)) eqn:V; simpl.
    + rewrite M. simpl.
      apply (consistent_attempt w (cacheState w) C). now right.
    + apply consistent_same; auto.
  - rewrite validateMongoUri_withCache.
    destruct (validateMongoUri (cacheState w)) eqn:V; simpl.
    + apply (consistent_attempt w (cacheState w) C). now left.
    + apply consistent_same; auto.
Qed.

Lemma consistent_settle w p o : consistent w -> consistent (step w (Settle p o)).
Proof.
  intros C. pose proof C as (I1 & I2 & I3 & I4 & I5).
  unfold step, settle.
  destruct (nth_error (promises (cacheState w)) p) as [[|h0|e0]|] eqn:P.
  2, 3, 4: apply consistent_same; auto.
  pose proof (I1 p P) as M.
  assert (Other : forall q v x,
            nth_error (settleAt p v (promises (cacheState w))) q = Some x ->
            x <> v -> q <> p /\ nth_error (promises (cacheState w)) q = Some x).
  { intros q v x H Hx. destruct (Nat.eq_dec p q) as [<-|Hne].
    - rewrite (nth_error_settleAt _ _ v P) in H. congruence.
    - rewrite nth_error_settleAt_other in H by exact Hne. auto. }
  destruct o as [h|e]; unfold consistent; simpl; rewrite settleAt_length.
  - repeat split; auto.
    + intros q H. apply Other in H as [Hne H]; [|discriminate].
      specialize (I1 q H). congruence.
    + intros q e Hin H. apply Other in H as [Hne H]; [|discriminate].
      specialize (I2 q e Hin H). congruence.
  - repeat split; auto.
    + intros q H. apply Other in H as [Hne H]; [|discriminate].
      specialize (I1 q H). congruence.
    + intros q e1 Hin H. destruct (Nat.eq_dec p q) as [<-|Hne]; [exact M|].
      rewrite nth_error_settleAt_other in H by exact Hne.
      exact (I2 q e1 Hin H).
Qed.

Lemma consistent_resume w p : consistent w -> consistent (step w (Resume p)).
Proof.
  intros C. pose proof C as (I1 & I2 & I3 & I4 & I5).
  unfold step. destruct (isSuspended w p) eqn:S; [|exact C].
  apply isSuspended_In in S. unfold resume.
  assert (F : forall q, In q (filter (fun q => negb (Nat.eqb p q)) (suspended w))
                        -> In q (suspended w) /\ p <> q).
  { intros q H. apply filter_In in H as [H E].
    apply negb_true_iff, Nat.eqb_neq in E. auto. }
  destruct (nth_error (promises (cacheState w)) p) as [[|h|e]|] eqn:P;
    try exact C.
  - unfold consistent. simpl. repeat split; auto.
    + intros q e Hin H. apply F in Hin as [Hin _]. exact (I2 q e Hin H).
    + apply NoDup_filter, I3.
    + intros q Hin. apply F in Hin as [Hin _]. exact (I5 q Hin).
  - pose proof (I2 p e S P) as M.
    unfold consistent. simpl. rewrite M. simpl. repeat split; auto.
    + intros q H. specialize (I1 q H). rewrite M in I1.
      injection I1 as <-. congruence.
    + intros q e1 Hin H. apply F in Hin as [Hin Hne].
      specialize (I2 q e1 Hin H). rewrite M in I2. injection I2 as E.
      congruence.
    + apply NoDup_filter, I3.
    + intros q Hin. apply F in Hin as [Hin _]. exact (I5 q Hin).
Qed.

Lemma consistent_step w j : consistent w -> consistent (step w j).
Proof.
  destruct j; [apply consistent_call | apply consistent_settle
              | apply consistent_resume].
Qed.

Lemma consistent_run jobs : forall w, consistent w -> consistent (run jobs w).
Proof.
  unfold run. induction jobs as [|j t IH]; intros w C; simpl; [exact C|].
  apply IH, consistent_step, C.
Qed.

Lemma length_le_1 {A : Type} (l : list A) :
  NoDup l -> (forall x y, In x l -> In y l -> x = y) -> (List.length l <= 1)%nat.
Proof.
  intros N H. destruct l as [|a [|b t]]; simpl; try lia.
  apply NoDup_cons_iff in N as [N _]. exfalso. apply N.
  rewrite (H a b); simpl; auto.
Qed.

Lemma inFlight_pending st p :
  In p (inFlight st) <-> nth_error (promises st) p = Some Pending.
Proof.
  unfold inFlight. rewrite filter_In, in_seq. split.
  - intros [_ H]. destruct (nth_error (promises st) p) as [[| |]|];
      congruence.
  - intros H. split; [|now rewrite H].
    assert (p < List.length (promises st))%nat
      by (apply nth_error_Some; congruence). lia.
Qed.

(** X24: from the start of the process, under any sequence of calls of
    [connectDB], settlements of attempts and resumptions of suspended calls,
    at most one connection attempt is in flight at any time; while one is,
    no connection is cached and the pending marker is that attempt; and the
    number of calls of [mongoose.connect] is the number of promises made. *)
Theorem single_attempt_in_flight (uri : option jsstring) (jobs : list job) :
  let st := cacheState (run jobs (start uri)) in
  (List.length (inFlight st) <= 1)%nat /\
  (forall p, In p (inFlight st) ->
     mongoose st = Some {| conn := None; promise := Some p |}) /\
  attempts st = List.length (promises st).
Proof.
  cbv zeta.
  destruct (consistent_run jobs (start uri) (consistent_start uri))
    as (I1 & _ & _ & I4 & _).
  split; [|split; [|exact I4]].
  - apply length_le_1.
    + unfold inFlight. apply NoDup_filter, seq_NoDup.
    + intros x y Hx Hy. apply inFlight_pending in Hx, Hy.
      pose proof (I1 x Hx) as Ex. pose proof (I1 y Hy) as Ey. congruence.
  - intros p Hp. apply I1, inFlight_pending, Hp.
Qed.

End EventLoopFacts.
